(** * GLUtil: a model of the runtime-value utilities of [src/GLUtil.ts]

    The file embeds [GLUtil.deepClone], [GLUtil.isClassDefinition] and
    [GLUtil.padLeft] together with the part of the JavaScript object model
    they run on: a store of objects addressed by references, prototype
    chains, own data properties with their enumerable and writable flags,
    [for-in] enumeration, [instanceof], [typeof], assignment to a property
    in strict code, and the calls the source makes.
    It also embeds the functions of [GLUtil] on numbers and strings:
    [limitInto], [isValueBetweenNotEquals], [isValueBetweenEquals],
    [isPowerOfTwo], [power2Roundup], [colorToCssSharp], [colorToCssRgba]
    and [formatString], and the three tests [isUndefinedOrNull],
    [isUndefined] and [isFunction].  [trace], [requestAnimationFrame] and
    [cancelAnimationFrame] hand their arguments to the console and to the
    window and compute nothing: they are not embedded.

    A number is a double, with the comparisons and the arithmetic of
    IEEE 754; the bit operators work on its conversion to a 32-bit integer.
    A string is a sequence of code units, each below 256.  The text of a
    number is modelled for the 32-bit integers only, and [formatString]
    takes the conversion of its arguments to strings as a parameter.

    What the object model leaves out (none of it is touched by the three
    functions on ordinary data):
    - accessor properties (getters and setters) written by the user; of the
      accessors of the host the model has the three an assignment on a
      function reaches, [Object.prototype.__proto__],
      [Function.prototype.caller] and [Function.prototype.arguments], and
      only their setters;
    - objects that are not extensible;
    - symbol-keyed properties (invisible to [for-in]);
    - the indexed elements and the [length] of an array seen as named
      properties of a prototype: an array standing on the prototype chain of
      another object contributes only its named properties;
    - the own [length] and [name] of a function of the user, unless the
      store lists them: they are not enumerable, and [for-in] does not
      visit them (the function [deepClone] makes has both);
    - user functions with effects: a user function is a pure function of its
      receiver and its arguments;
    - the built-ins the source reaches by name ([Array.isArray],
      [Array.prototype.push], [Map.prototype.forEach], [Map.prototype.set],
      [Set.prototype.forEach], [Set.prototype.add], [Function.prototype.apply],
      [Object.create]) are the host's own, not replaced by user code.

    A run is a function from the store before to the store after and the
    way the run ended.  Recursion is bounded by a fuel argument:
    [deepClone R fuel v] descends at most [fuel] arrays or records and ends
    in [OutOfFuel] beyond; a call that ends so for every fuel is a call that
    does not return.

    The first part of the file is the model, with the vocabulary of the
    statements and the stores of the examples; the second part holds the
    proofs. *)

From Stdlib Require Import Floats.
From Stdlib Require Import ZArith String Ascii Bool Lia.
From Stdlib Require Import DecimalString.
From Stdlib Require Import Uint63.
From stdpp Require Import base list.

Local Open Scope nat_scope.

(** ** Values and objects *)

Abbreviation loc := nat.

(** A runtime value. Numbers are IEEE 754 doubles; a symbol is known by an
    identity; everything else that is not a primitive is a reference into
    the store. *)
Inductive val : Type :=
| VUndefined
| VNull
| VBool (b : bool)
| VNum (n : float)
| VStr (s : string)
| VSymbol (id : nat)
| VRef (l : loc).

(** An own data property.  One that is not [writable] is read-only: it
    refuses an assignment. *)
Record property : Type := Property { value : val; enumerable : bool; writable : bool }.

(** The behaviour of a function object.  [Forwarder target] is the closure
    built by [deepClone] (source lines 176-180):
    [function () { return sourceFunctionObject.apply(this, arguments); }]. *)
Inductive code : Type :=
| HasOwnPropertyBuiltin
| Forwarder (target : loc)
| Closure (body : val -> list val -> val).

(** The internal slots that make an object an array, a Map, a Set or a
    function. *)
Inductive internal : Type :=
| Ordinary
| ArrayExotic (elems : list val)
| MapData (entries : list (val * val))
| SetData (members : list val)
| Callable (c : code).

Record object : Type := Object {
  proto : option loc;
  slots : internal;
  props : list (string * property)
}.

(** The store: references are indices, allocation appends. *)
Abbreviation heap := (list object).

(** The intrinsic objects of the host.  [MapPrototype] and [SetPrototype]
    are [None] on a host where [$global.Map] or [$global.Set] is
    [undefined]. *)
Record realm : Type := Realm {
  ObjectPrototype : loc;
  FunctionPrototype : loc;
  ArrayPrototype : loc;
  MapPrototype : option loc;
  SetPrototype : option loc;
  BooleanPrototype : loc;
  NumberPrototype : loc;
  StringPrototype : loc;
  SymbolPrototype : loc
}.

(** ** Completions and the store monad *)

(** How an evaluation ends: normally, by a [TypeError], outside what the
    model covers (a dangling reference, a coercion that is not modelled), or
    by exhausting the recursion budget (unbounded recursion). *)
Inductive completion (A : Type) : Type :=
| Return (a : A)
| Throw
| Unmodelled
| OutOfFuel.
Arguments Return {A} a.
Arguments Throw {A}.
Arguments Unmodelled {A}.
Arguments OutOfFuel {A}.

Definition M (A : Type) : Type := heap -> heap * completion A.

Definition ret {A} (a : A) : M A := fun h => (h, Return a).

Definition bind {A B} (m : M A) (k : A -> M B) : M B :=
  fun h =>
    match m h with
    | (h1, Return a) => k a h1
    | (h1, Throw) => (h1, Throw)
    | (h1, Unmodelled) => (h1, Unmodelled)
    | (h1, OutOfFuel) => (h1, OutOfFuel)
    end.

Definition lift {A} (c : completion A) : M A := fun h => (h, c).

Definition read {A} (f : heap -> A) : M A := fun h => (h, Return (f h)).

Definition write (f : heap -> heap) : M unit := fun h => (f h, Return tt).

Declare Scope store_scope.
Delimit Scope store_scope with store.
Notation "x <- m ;; k" := (bind m (fun x => k))
  (at level 100, m at next level, right associativity) : store_scope.
Notation "m ;;; k" := (bind m (fun _ => k))
  (at level 100, right associativity) : store_scope.

(** ** Properties and prototype chains *)

Fixpoint lookup_prop (k : string) (ps : list (string * property)) : option property :=
  match ps with
  | [] => None
  | (k', p) :: ps' => if String.eqb k k' then Some p else lookup_prop k ps'
  end.

Definition get_own (h : heap) (l : loc) (k : string) : option property :=
  match h !! l with
  | Some o => lookup_prop k (props o)
  | None => None
  end.

(** [this.hasOwnProperty(k)] as the built-in computes it on an object with
    named properties. *)
Definition has_own (h : heap) (l : loc) (k : string) : bool :=
  match get_own h l k with Some _ => true | None => false end.

(** The objects of the prototype chain of [l], [l] first, at most [n] of
    them. *)
Fixpoint proto_chain (n : nat) (h : heap) (l : loc) : list loc :=
  match n with
  | 0 => []
  | S n' =>
    match h !! l with
    | None => []
    | Some o =>
      l :: match proto o with
           | None => []
           | Some p => proto_chain n' h p
           end
    end
  end.

(** A chain without a cycle is no longer than the store, so the whole chain
    is the one cut at that length. *)
Definition chain (h : heap) (l : loc) : list loc := proto_chain (length h) h l.

(** [[Get]]: the first object of the chain with the property decides. *)
Fixpoint get_along (h : heap) (ls : list loc) (k : string) : val :=
  match ls with
  | [] => VUndefined
  | l :: ls' =>
    match get_own h l k with
    | Some p => value p
    | None => get_along h ls' k
    end
  end.

Definition get (h : heap) (l : loc) (k : string) : val := get_along h (chain h l) k.

Definition mem_string (k : string) (ks : list string) : bool :=
  existsb (String.eqb k) ks.

(** The keys a [for (key in o)] loop visits: along the chain, the enumerable
    properties whose name was not met on an earlier object (shadowed names
    are skipped even when the shadowing property is not enumerable). *)
Fixpoint enumerate_along (h : heap) (ls : list loc) (seen : list string) : list string :=
  match ls with
  | [] => []
  | l :: ls' =>
    match h !! l with
    | None => []
    | Some o =>
      let own := props o in
      map fst (List.filter (fun kp => enumerable (snd kp) && negb (mem_string (fst kp) seen)) own)
        ++ enumerate_along h ls' (seen ++ map fst own)
    end
  end.

Definition for_in_keys (h : heap) (l : loc) : list string :=
  enumerate_along h (chain h l) [].

(** [typeof]. *)
Inductive type_tag : Type :=
| TUndefined | TObject | TBoolean | TNumber | TString | TSymbol | TFunction.

Definition type_tag_eqb (a b : type_tag) : bool :=
  match a, b with
  | TUndefined, TUndefined | TObject, TObject | TBoolean, TBoolean
  | TNumber, TNumber | TString, TString | TSymbol, TSymbol
  | TFunction, TFunction => true
  | _, _ => false
  end.

Definition is_callable (h : heap) (l : loc) : bool :=
  match h !! l with
  | Some o => match slots o with Callable _ => true | _ => false end
  | None => false
  end.

Definition typeof (h : heap) (v : val) : type_tag :=
  match v with
  | VUndefined => TUndefined
  | VNull => TObject
  | VBool _ => TBoolean
  | VNum _ => TNumber
  | VStr _ => TString
  | VSymbol _ => TSymbol
  | VRef l => if is_callable h l then TFunction else TObject
  end.

(** [v instanceof C] where [C.prototype] is the object at [p]: [p] stands on
    the prototype chain of [v], [v] itself apart; a primitive is an instance
    of nothing. *)
Definition instance_of (h : heap) (v : val) (p : loc) : bool :=
  match v with
  | VRef l => existsb (Nat.eqb p) (tail (chain h l))
  | _ => false
  end.

(** [$global.C !== undefined && v instanceof C]. *)
Definition instance_of_available (h : heap) (v : val) (p : option loc) : bool :=
  match p with
  | Some p => instance_of h v p
  | None => false
  end.

Definition is_array (h : heap) (v : val) : bool :=
  match v with
  | VRef l =>
    match h !! l with
    | Some o => match slots o with ArrayExotic _ => true | _ => false end
    | None => false
    end
  | _ => false
  end.

(** [===]. *)
Definition strict_equals (x y : val) : bool :=
  match x, y with
  | VUndefined, VUndefined => true
  | VNull, VNull => true
  | VBool a, VBool b => Bool.eqb a b
  | VNum a, VNum b => PrimFloat.eqb a b
  | VStr a, VStr b => String.eqb a b
  | VSymbol a, VSymbol b => Nat.eqb a b
  | VRef a, VRef b => Nat.eqb a b
  | _, _ => false
  end.

(** [ToBoolean]. *)
Definition to_boolean (v : val) : bool :=
  match v with
  | VUndefined | VNull => false
  | VBool b => b
  | VNum n => negb (PrimFloat.is_zero n || PrimFloat.is_nan n)
  | VStr s => negb (String.eqb s EmptyString)
  | VSymbol _ | VRef _ => true
  end.

(** ** Store updates *)

(** Allocation of a fresh object; its reference is the old size of the
    store. *)
Definition alloc (o : object) : M loc := fun h => (h ++ [o], Return (length h)).

Definition with_props (o : object) (ps : list (string * property)) : object :=
  {| proto := proto o; slots := slots o; props := ps |}.

Definition with_slots (o : object) (s : internal) : object :=
  {| proto := proto o; slots := s; props := props o |}.

(** [o[k] = v] on the property list of [o], for an assignment that writes
    an own property: an existing property keeps its place and its flags, a
    new one is enumerable and writable and comes last. *)
Fixpoint assign (k : string) (v : val) (ps : list (string * property)) : list (string * property) :=
  match ps with
  | [] => [(k, {| value := v; enumerable := true; writable := true |})]
  | (k', p) :: ps' =>
    if String.eqb k k'
    then (k', {| value := v; enumerable := enumerable p; writable := writable p |}) :: ps'
    else (k', p) :: assign k v ps'
  end.

Definition set_prop (l : loc) (k : string) (v : val) (h : heap) : heap :=
  match h !! l with
  | Some o => <[l := with_props o (assign k v (props o))]> h
  | None => h
  end.

(** The accessors of the host that an assignment can reach:
    [Object.prototype.__proto__], whose setter changes the prototype of the
    receiver, and [Function.prototype.caller] and
    [Function.prototype.arguments], whose setter raises a [TypeError]. *)
Inductive setter : Type :=
| ProtoSetter
| ThrowTypeError.

Definition intrinsic_setter (R : realm) (l : loc) (k : string) : option setter :=
  if (l =? ObjectPrototype R) && String.eqb k "__proto__" then Some ProtoSetter
  else if (l =? FunctionPrototype R)
          && (String.eqb k "caller" || String.eqb k "arguments")
  then Some ThrowTypeError
  else None.

(** What an assignment [o[k] = v] comes to ([[Set]]).  The first object on
    the chain of [o] that has [k] decides: a writable data property lets
    the assignment write an own property of [o], a read-only one refuses
    it, a setter is called.  When no object has [k] the assignment makes
    the property. *)
Inductive set_target : Type :=
| OwnData
| Refused
| CallSetter (s : setter).

Fixpoint set_along (R : realm) (h : heap) (ls : list loc) (k : string) : set_target :=
  match ls with
  | [] => OwnData
  | l :: ls' =>
    match get_own h l k with
    | Some p => if writable p then OwnData else Refused
    | None =>
      match intrinsic_setter R l k with
      | Some s => CallSetter s
      | None => set_along R h ls' k
      end
    end
  end.

Definition set_prototype (l : loc) (p : option loc) (h : heap) : heap :=
  match h !! l with
  | Some o => <[l := {| proto := p; slots := slots o; props := props o |}]> h
  | None => h
  end.

(** [o[k] = v] in strict code, [o] the object at [l]: an assignment that
    is refused raises a [TypeError].  The setter of [__proto__] takes an
    object or [null] for the new prototype, refuses an object whose chain
    comes back to [o], and ignores any other value. *)
Definition put (R : realm) (l : loc) (k : string) (v : val) : M unit :=
  fun h =>
    match set_along R h (chain h l) k with
    | OwnData => (set_prop l k v h, Return tt)
    | Refused => (h, Throw)
    | CallSetter ThrowTypeError => (h, Throw)
    | CallSetter ProtoSetter =>
      match v with
      | VNull => (set_prototype l None h, Return tt)
      | VRef p =>
        if existsb (Nat.eqb l) (chain h p) then (h, Throw)
        else (set_prototype l (Some p) h, Return tt)
      | _ => (h, Return tt)
      end
    end.

(** [Array.prototype.push] with one argument. *)
Definition array_push (l : loc) (v : val) (h : heap) : heap :=
  match h !! l with
  | Some o =>
    match slots o with
    | ArrayExotic elems => <[l := with_slots o (ArrayExotic (elems ++ [v]))]> h
    | _ => h
    end
  | None => h
  end.

(** [a.length] and [a[i]] of an array; a read past the end is [undefined]. *)
Definition array_elems (h : heap) (l : loc) : list val :=
  match h !! l with
  | Some o => match slots o with ArrayExotic elems => elems | _ => [] end
  | None => []
  end.

Definition array_length (h : heap) (l : loc) : nat := length (array_elems h l).

Definition array_get (h : heap) (l : loc) (i : nat) : val :=
  match array_elems h l !! i with
  | Some v => v
  | None => VUndefined
  end.

(** The key comparison of Map and Set ([SameValueZero]): [NaN] equals
    itself, [+0] equals [-0]. *)
Definition same_value_zero (x y : val) : bool :=
  match x, y with
  | VNum a, VNum b => PrimFloat.eqb a b || (PrimFloat.is_nan a && PrimFloat.is_nan b)
  | _, _ => strict_equals x y
  end.

(** [Map.prototype.set] and [Set.prototype.add] store [-0] as [+0]. *)
Definition normalize_key (k : val) : val :=
  match k with
  | VNum n => if PrimFloat.is_zero n then VNum PrimFloat.zero else k
  | _ => k
  end.

Fixpoint put_entry (k v : val) (entries : list (val * val)) : list (val * val) :=
  match entries with
  | [] => [(k, v)]
  | (k', v') :: es =>
    if same_value_zero k' k then (k', v) :: es else (k', v') :: put_entry k v es
  end.

Definition map_set (l : loc) (k v : val) (h : heap) : heap :=
  match h !! l with
  | Some o =>
    match slots o with
    | MapData entries => <[l := with_slots o (MapData (put_entry (normalize_key k) v entries))]> h
    | _ => h
    end
  | None => h
  end.

Fixpoint put_member (v : val) (members : list val) : list val :=
  match members with
  | [] => [v]
  | v' :: ms => if same_value_zero v' v then v' :: ms else v' :: put_member v ms
  end.

Definition set_add (l : loc) (v : val) (h : heap) : heap :=
  match h !! l with
  | Some o =>
    match slots o with
    | SetData members => <[l := with_slots o (SetData (put_member (normalize_key v) members))]> h
    | _ => h
    end
  | None => h
  end.

(** ** Calls *)

(** [Object.prototype.hasOwnProperty.call(this, key)].  The coercions of a
    receiver that is not an object and of a key that is not a string are not
    modelled, nor are the indexed properties of an array receiver;
    [deepClone] passes an object that is not an array and a string. *)
Definition hasOwnProperty_builtin (h : heap) (this : val) (args : list val) : completion val :=
  match this, args with
  | VRef l, VStr k :: _ =>
    match h !! l with
    | Some o =>
      match slots o with
      | ArrayExotic _ => Unmodelled
      | _ => Return (VBool (has_own h l k))
      end
    | None => Unmodelled
    end
  | _, _ => Unmodelled
  end.

(** [callee.call(this, ...args)].  Calling what is not a function is a
    [TypeError]; a forwarder hands receiver and arguments to its target
    ([sourceFunctionObject.apply(this, arguments)]). *)
Fixpoint call (fuel : nat) (h : heap) (callee : val) (this : val) (args : list val) : completion val :=
  match fuel with
  | 0 => OutOfFuel
  | S fuel' =>
    match callee with
    | VRef l =>
      match h !! l with
      | Some o =>
        match slots o with
        | Callable HasOwnPropertyBuiltin => hasOwnProperty_builtin h this args
        | Callable (Closure body) => Return (body this args)
        | Callable (Forwarder target) => call fuel' h (VRef target) this args
        | _ => Throw
        end
      | None => Unmodelled
      end
    | _ => Throw
    end
  end.

(** ** deepClone (source lines 143-206) *)

(** Lines 153-155:
    [for (var i = 0; i < sourceObject.length; ++i)
       tmpArray.push(GLUtil.deepClone(sourceObject[i]));]
    The length and the element are read from the store as it is at each
    turn.  [n] bounds the number of turns; it is the length when the loop
    starts, and the loop reports [OutOfFuel] should the array outgrow it. *)
Fixpoint clone_elements (clone : val -> M val) (n : nat) (src tmp : loc) (i : nat) : M unit :=
  fun h =>
    if i <? array_length h src then
      match n with
      | 0 => (h, OutOfFuel)
      | S n' =>
        (v <- clone (array_get h src i) ;;
         write (array_push tmp v) ;;;
         clone_elements clone n' src tmp (S i))%store h
      end
    else (h, Return tt).

(** Lines 161-163: [sourceObject.forEach((v, k) => { newMap.set(k, v); })]. *)
Fixpoint copy_entries (newMap : loc) (entries : list (val * val)) : M unit :=
  match entries with
  | [] => ret tt
  | (k, v) :: es => (write (map_set newMap k v) ;;; copy_entries newMap es)%store
  end.

(** Lines 168-170: [sourceObject.forEach((v) => { newSet.add(v); })]. *)
Fixpoint copy_members (newSet : loc) (members : list val) : M unit :=
  match members with
  | [] => ret tt
  | v :: ms => (write (set_add newSet v) ;;; copy_members newSet ms)%store
  end.

(** [sourceObject.hasOwnProperty(key)] as a condition. *)
Definition call_hasOwnProperty (fuel : nat) (src : loc) (key : string) : M bool :=
  fun h =>
    match call fuel h (get h src "hasOwnProperty") (VRef src) [VStr key] with
    | Return b => (h, Return (to_boolean b))
    | Throw => (h, Throw)
    | Unmodelled => (h, Unmodelled)
    | OutOfFuel => (h, OutOfFuel)
    end.

(** Lines 182-186:
    [for (var key in sourceFunctionObject)
       if (sourceFunctionObject.hasOwnProperty(key))
         fn[key] = sourceFunctionObject[key];]
    The assignment is one on a function, which has read-only properties of
    its own and inherits the accessors of the host: it can be refused. *)
Fixpoint copy_function_properties (R : realm) (fuel : nat) (src fn : loc)
    (keys : list string) : M unit :=
  match keys with
  | [] => ret tt
  | key :: keys' =>
    (own <- call_hasOwnProperty fuel src key ;;
     (if own
      then (v <- read (fun h => get h src key) ;; put R fn key v)
      else ret tt) ;;;
     copy_function_properties R fuel src fn keys')%store
  end.

(** Lines 193-197:
    [for (var key in sourceObject)
       if (sourceObject.hasOwnProperty(key))
         newObject[key] = GLUtil.deepClone(sourceObject[key]);]
    [newObject] has no prototype and no property but those the loop gave
    it: the assignment writes an own property. *)
Fixpoint clone_own_properties (clone : val -> M val) (fuel : nat) (src newObject : loc)
    (keys : list string) : M unit :=
  match keys with
  | [] => ret tt
  | key :: keys' =>
    (own <- call_hasOwnProperty fuel src key ;;
     (if own
      then (v <- read (fun h => get h src key) ;;
            v' <- clone v ;;
            write (set_prop newObject key v'))
      else ret tt) ;;;
     clone_own_properties clone fuel src newObject keys')%store
  end.

(** Lines 199-201:
    [for (var key in sourceObject)
       newObject[key] = GLUtil.deepClone(sourceObject[key]);] *)
Fixpoint clone_visible_properties (clone : val -> M val) (src newObject : loc)
    (keys : list string) : M unit :=
  match keys with
  | [] => ret tt
  | key :: keys' =>
    (v <- read (fun h => get h src key) ;;
     v' <- clone v ;;
     write (set_prop newObject key v') ;;;
     clone_visible_properties clone src newObject keys')%store
  end.

(** The function object a function expression without parameters and
    without a name evaluates to, with [p] the object of its [prototype]
    property: [length] and [name] are read-only, [prototype] is writable,
    none of them is enumerable. *)
Definition forwarder_object (R : realm) (src p : loc) : object :=
  {| proto := Some (FunctionPrototype R);
     slots := Callable (Forwarder src);
     props := [("length"%string,
                {| value := VNum 0%float; enumerable := false; writable := false |});
               ("name"%string,
                {| value := VStr EmptyString; enumerable := false; writable := false |});
               ("prototype"%string,
                {| value := VRef p; enumerable := false; writable := true |})] |}.

Definition prototype_object (R : realm) (fn : loc) : object :=
  {| proto := Some (ObjectPrototype R);
     slots := Ordinary;
     props := [("constructor"%string,
                {| value := VRef fn; enumerable := false; writable := true |})] |}.

(** The function expression of lines 176-180 evaluated: a function object
    that forwards to [src], and the fresh object its [prototype] property
    starts with. *)
Definition new_forwarder (R : realm) (src : loc) : M loc :=
  fun h =>
    let fn := length h in
    let p := S fn in
    (h ++ [forwarder_object R src p; prototype_object R fn], Return fn).

Definition slots_at (h : heap) (l : loc) : option internal :=
  match h !! l with Some o => Some (slots o) | None => None end.

(** Lines 152-156, the array branch. *)
Definition clone_array (R : realm) (clone : val -> M val) (src : loc) : M val :=
  (tmpArray <- alloc {| proto := Some (ArrayPrototype R);
                        slots := ArrayExotic [];
                        props := [] |} ;;
   bound <- read (fun h => array_length h src) ;;
   clone_elements clone bound src tmpArray 0 ;;;
   ret (VRef tmpArray))%store.

(** Lines 160-164, the Map branch.  [Map.prototype.forEach] refuses a
    receiver without Map data. *)
Definition clone_map (R : realm) (src : loc) : M val :=
  (newMap <- alloc {| proto := MapPrototype R; slots := MapData []; props := [] |} ;;
   srcSlots <- read (fun h => slots_at h src) ;;
   match srcSlots with
   | Some (MapData entries) => copy_entries newMap entries
   | Some _ => lift Throw
   | None => lift Unmodelled
   end ;;;
   ret (VRef newMap))%store.

(** Lines 167-171, the Set branch. *)
Definition clone_set (R : realm) (src : loc) : M val :=
  (newSet <- alloc {| proto := SetPrototype R; slots := SetData []; props := [] |} ;;
   srcSlots <- read (fun h => slots_at h src) ;;
   match srcSlots with
   | Some (SetData members) => copy_members newSet members
   | Some _ => lift Throw
   | None => lift Unmodelled
   end ;;;
   ret (VRef newSet))%store.

(** Lines 175-187, the function branch. *)
Definition clone_function (R : realm) (fuel : nat) (src : loc) : M val :=
  (fn <- new_forwarder R src ;;
   prototype <- read (fun h => get h src "prototype") ;;
   put R fn "prototype" prototype ;;;
   keys <- read (fun h => for_in_keys h src) ;;
   copy_function_properties R fuel src fn keys ;;;
   ret (VRef fn))%store.

(** Lines 191-203, the object branch. *)
Definition clone_record (clone : val -> M val) (fuel : nat) (src : loc) : M val :=
  (newObject <- alloc {| proto := None; slots := Ordinary; props := [] |} ;;
   hasOwnProperty <- read (fun h => get h src "hasOwnProperty") ;;
   usable <- read (fun h => type_tag_eqb (typeof h hasOwnProperty) TFunction) ;;
   keys <- read (fun h => for_in_keys h src) ;;
   (if usable
    then clone_own_properties clone fuel src newObject keys
    else clone_visible_properties clone src newObject keys) ;;;
   ret (VRef newObject))%store.

(** [GLUtil.deepClone(sourceObject)].  [fuel] bounds the depth of the
    recursion; the tests come in the order of the source.  A reference to
    no object of the store is outside the model. *)
Fixpoint deepClone (R : realm) (fuel : nat) (sourceObject : val) : M val :=
  fun h =>
    if strict_equals sourceObject VUndefined || strict_equals sourceObject VNull
       || strict_equals sourceObject (VBool true) || strict_equals sourceObject (VBool false)
    then (h, Return sourceObject)
    else if type_tag_eqb (typeof h sourceObject) TString
            || type_tag_eqb (typeof h sourceObject) TNumber
    then (h, Return sourceObject)
    else
      match sourceObject with
      | VRef src =>
        match slots_at h src with
        | None => (h, Unmodelled)
        | Some _ =>
          (* Arrays *)
          if is_array h sourceObject then
            match fuel with
            | 0 => (h, OutOfFuel)
            | S fuel' => clone_array R (deepClone R fuel') src h
            end
          (* ES6 classes *)
          else if instance_of_available h sourceObject (MapPrototype R) then
            clone_map R src h
          else if instance_of_available h sourceObject (SetPrototype R) then
            clone_set R src h
          (* Classic ES5 functions *)
          else if instance_of h sourceObject (FunctionPrototype R)
                  || type_tag_eqb (typeof h sourceObject) TFunction then
            clone_function R (S fuel) src h
          (* Classic ES5 objects *)
          else if instance_of h sourceObject (ObjectPrototype R)
                  || type_tag_eqb (typeof h sourceObject) TObject then
            match fuel with
            | 0 => (h, OutOfFuel)
            | S fuel' => clone_record (deepClone R fuel') (S fuel) src h
            end
          else (h, Return VUndefined)
        end
      | _ => (h, Return VUndefined)
      end.

(** ** isClassDefinition (source lines 46-56) *)

(** [s.indexOf(pattern)]. *)
Definition indexOf (s pattern : string) : Z :=
  match String.index 0 pattern s with
  | Some n => Z.of_nat n
  | None => (-1)%Z
  end.

(** Line 51, on the host's [window.navigator.appVersion]. *)
Definition isIE11 (appVersion : string) : bool :=
  (0 <=? indexOf appVersion "Trident/7.0")%Z && (0 <=? indexOf appVersion "rv:11.0")%Z.

Definition number_of_nat (n : nat) : float := PrimFloat.of_uint63 (Uint63.of_Z (Z.of_nat n)).

Definition index_key (i : nat) : string := NilEmpty.string_of_uint (Nat.to_uint i).

(** The own properties of an indexed receiver of [n] elements: [length] and
    the canonical indices below [n]. *)
Definition indexed_own {A} (n : nat) (elem : nat -> A) (len : A) (k : string) : option A :=
  if String.eqb k "length" then Some len
  else match find (fun i => String.eqb k (index_key i)) (seq 0 n) with
       | Some i => Some (elem i)
       | None => None
       end.

(** [v.k] for any value [v]: a primitive reads through the prototype of its
    wrapper, [undefined] and [null] have no properties. *)
Definition get_val (R : realm) (h : heap) (v : val) (k : string) : completion val :=
  match v with
  | VUndefined | VNull => Throw
  | VBool _ => Return (get h (BooleanPrototype R) k)
  | VNum _ => Return (get h (NumberPrototype R) k)
  | VSymbol _ => Return (get h (SymbolPrototype R) k)
  | VStr s =>
    match indexed_own (String.length s) (fun i => VStr (String.substring i 1 s))
                      (VNum (number_of_nat (String.length s))) k with
    | Some x => Return x
    | None => Return (get h (StringPrototype R) k)
    end
  | VRef l =>
    match slots_at h l with
    | None => Unmodelled
    | Some (ArrayExotic elems) =>
      match indexed_own (length elems) (fun i => nth i elems VUndefined)
                        (VNum (number_of_nat (length elems))) k with
      | Some x => Return x
      | None => Return (get h l k)
      end
    | Some _ => Return (get h l k)
    end
  end.

Definition bind_completion {A B} (c : completion A) (k : A -> completion B) : completion B :=
  match c with
  | Return a => k a
  | Throw => Throw
  | Unmodelled => Unmodelled
  | OutOfFuel => OutOfFuel
  end.

(** [GLUtil.isClassDefinition(value)]. *)
Definition isClassDefinition (R : realm) (appVersion : string) (h : heap) (value : val)
    : completion bool :=
  let typeCheck :=
    if type_tag_eqb (typeof h value) TFunction then true
    else isIE11 appVersion && type_tag_eqb (typeof h value) TObject in
  (* value && value.prototype ? value.prototype.constructor === value : false *)
  bind_completion
    (if to_boolean value then get_val R h value "prototype" else Return value)
    (fun condition =>
       bind_completion
         (if to_boolean condition
          then bind_completion (get_val R h value "prototype") (fun prototype =>
               bind_completion (get_val R h prototype "constructor") (fun constructor =>
               Return (strict_equals constructor value)))
          else Return false)
         (fun constructorCheck => Return (typeCheck && constructorCheck))).

(** ** padLeft (source lines 275-283) *)

(** Lines 276-278: [while (str.length < targetLength) str = padWith + str;]
    [None] when the loop has not ended after [fuel] turns. *)
Fixpoint pad_loop (fuel : nat) (str : string) (targetLength : Z) (padWith : string)
    : option string :=
  if (Z.of_nat (String.length str) <? targetLength)%Z then
    match fuel with
    | 0 => None
    | S fuel' => pad_loop fuel' (String.append padWith str) targetLength padWith
    end
  else Some str.

(** [s.substring(start, end)] on integers: both ends are clamped to
    [0 .. s.length] and swapped when out of order. *)
Definition clamp_index (x : Z) (len : nat) : nat :=
  Z.to_nat (Z.min (Z.max x 0) (Z.of_nat len)).

Definition js_substring (s : string) (start finish : Z) : string :=
  let a := clamp_index start (String.length s) in
  let b := clamp_index finish (String.length s) in
  String.substring (Nat.min a b) (Nat.max a b - Nat.min a b) s.

(** [GLUtil.padLeft(str, targetLength, padWith)] for an integer
    [targetLength]; a string is a sequence of code units. *)
Definition padLeft (fuel : nat) (str : string) (targetLength : Z) (padWith : string)
    : option string :=
  match pad_loop fuel str targetLength padWith with
  | None => None
  | Some str1 =>
    let len := Z.of_nat (String.length str1) in
    if (targetLength <? len)%Z
    then Some (js_substring str1 (len - targetLength) (len - 1))
    else Some str1
  end.

(** ** Tests on one value (source lines 17-37) *)

(** [GLUtil.isUndefinedOrNull(value)]. *)
Definition isUndefinedOrNull (value : val) : bool :=
  strict_equals value VUndefined || strict_equals value VNull.

(** [GLUtil.isUndefined(value)]. *)
Definition isUndefined (value : val) : bool := strict_equals value VUndefined.

(** [GLUtil.isFunction(value)]. *)
Definition isFunction (h : heap) (value : val) : bool :=
  type_tag_eqb (typeof h value) TFunction.

(** ** Numbers *)

Section Numbers.
Local Open Scope Z_scope.

(** The integer part of a number, towards zero; 0 for [NaN] and the
    infinities.  A finite double is [m 2^e], with its sign. *)
Definition truncate (x : float) : Z :=
  match Prim2SF x with
  | S754_finite s m e =>
    let a := Z.shiftl (Z.pos m) e in if s then - a else a
  | _ => 0
  end.

(** The conversions the bit operators make of their operands. *)
Definition ToUint32 (x : float) : Z := truncate x mod 2 ^ 32.

Definition ToInt32 (x : float) : Z :=
  let u := ToUint32 x in if u <? 2 ^ 31 then u else u - 2 ^ 32.

(** The number whose value is the integer [z], of magnitude below [2^63]:
    the result of a bit operator is such a number. *)
Definition number_of_Z (z : Z) : float :=
  if z <? 0 then (- PrimFloat.of_uint63 (Uint63.of_Z (- z)))%float
  else PrimFloat.of_uint63 (Uint63.of_Z z).

(** [x | y], [x & y], [x >> n] and [x >>> n], the shift by a literal [n]
    from 0 to 31.  On [Z] the bit operations are those of two's complement
    and [Z.shiftr] keeps the sign. *)
Definition bitwise_or (x y : float) : float :=
  number_of_Z (Z.lor (ToInt32 x) (ToInt32 y)).

Definition bitwise_and (x y : float) : float :=
  number_of_Z (Z.land (ToInt32 x) (ToInt32 y)).

Definition signed_right_shift (x : float) (n : Z) : float :=
  number_of_Z (Z.shiftr (ToInt32 x) n).

Definition unsigned_right_shift (x : float) (n : Z) : float :=
  number_of_Z (Z.shiftr (ToUint32 x) n).

(** [GLUtil.limitInto(v, min, max)], source lines 66-70:
    [v < min && (v = min); v > max && (v = max); return v;]
    where [v > max] is [max < v]. *)
Definition limitInto (v min max : float) : float :=
  let v := if (v <? min)%float then min else v in
  let v := if (max <? v)%float then max else v in
  v.

(** [GLUtil.isValueBetweenNotEquals(v, min, max)], source lines 80-82. *)
Definition isValueBetweenNotEquals (v min max : float) : bool :=
  (min <? v)%float && (v <? max)%float.

(** [GLUtil.isValueBetweenEquals(v, min, max)], source lines 92-94. *)
Definition isValueBetweenEquals (v min max : float) : bool :=
  (min <=? v)%float && (v <=? max)%float.

(** [GLUtil.isPowerOfTwo(positiveNumber)], source lines 213-220.  On two
    numbers [!=] is the negation of the numeric equality and [=== 0] is the
    numeric equality. *)
Definition isPowerOfTwo (positiveNumber : float) : bool :=
  let num := bitwise_or positiveNumber 0 in
  if negb (num =? positiveNumber)%float || PrimFloat.is_nan num
     || negb (PrimFloat.is_finite num)
  then false
  else (0 <? num)%float && (bitwise_and num (num - 1) =? 0)%float.

(** [GLUtil.power2Roundup(positiveNumber)], source lines 227-237. *)
Definition power2Roundup (positiveNumber : float) : float :=
  if (positiveNumber <? 0)%float then 0%float
  else
    let positiveNumber := (positiveNumber - 1)%float in
    let positiveNumber := bitwise_or positiveNumber (unsigned_right_shift positiveNumber 1) in
    let positiveNumber := bitwise_or positiveNumber (unsigned_right_shift positiveNumber 2) in
    let positiveNumber := bitwise_or positiveNumber (unsigned_right_shift positiveNumber 4) in
    let positiveNumber := bitwise_or positiveNumber (unsigned_right_shift positiveNumber 8) in
    let positiveNumber := bitwise_or positiveNumber (unsigned_right_shift positiveNumber 16) in
    (positiveNumber + 1)%float.

(** ** Colors (source lines 261-273) *)

(** The digit [d] of a radix up to 36, in lower case. *)
Definition digit_char (d : Z) : ascii :=
  if d <? 10 then ascii_of_nat (48 + Z.to_nat d) else ascii_of_nat (87 + Z.to_nat d).

(** The digits of [n >= 0] before [acc], the most significant first; as
    many as [fuel] at most. *)
Fixpoint digits (fuel : nat) (radix n : Z) (acc : string) : string :=
  match fuel with
  | O => acc
  | S fuel' =>
    let acc' := String (digit_char (n mod radix)) acc in
    if n <? radix then acc' else digits fuel' radix (n / radix) acc'
  end.

(** [x.toString(radix)], and the conversion to a string that [join] makes,
    on a number whose value is an integer of magnitude below [2^32]: a
    minus sign for a negative one, and the digits.  The bit operators give
    such numbers; the text of any other number is not modelled. *)
Definition integer_toString (radix z : Z) : string :=
  if z <? 0 then String "-" (digits 32 radix (- z) EmptyString)
  else digits 32 radix z EmptyString.

Definition number_toString (radix : Z) (x : float) : string :=
  integer_toString radix (truncate x).

(** [GLUtil.colorToCssSharp(color)], source lines 261-264; [fuel] is that
    of [padLeft]. *)
Definition colorToCssSharp (fuel : nat) (color : float) : option string :=
  let color := bitwise_or color 0 in
  match padLeft fuel (number_toString 16 color) 6 "0" with
  | Some padded => Some (String.append "#" padded)
  | None => None
  end.

(** [GLUtil.colorToCssRgba(color)], source lines 266-273. *)
Definition colorToCssRgba (color : float) : string :=
  let color := bitwise_or color 0 in
  let a := bitwise_and (signed_right_shift color 24) 255 in
  let r := bitwise_and (signed_right_shift color 16) 255 in
  let g := bitwise_and (signed_right_shift color 8) 255 in
  let b := bitwise_and color 255 in
  String.append "rgba("
    (String.append (String.concat "," (map (number_toString 10) [r; g; b; a])) ")").

End Numbers.

(** ** formatString (source lines 106-128) *)

Section Format.

(** [x.toString()] for an argument [x] that is neither [undefined] nor
    [null], with the conversion [replace] makes of what the replacer
    returns.  It runs code of the argument: the model takes it as given. *)
Variable toString : val -> completion string.

Definition is_digit (c : ascii) : bool :=
  (48 <=? nat_of_ascii c) && (nat_of_ascii c <=? 57).

(** The number of decimal digits at the head of [s]. *)
Fixpoint count_digits (s : string) : nat :=
  match s with
  | String c s' => if is_digit c then S (count_digits s') else 0
  | EmptyString => 0
  end.

(** The regular expression [{[\d]+}] tried at the head of [s]: the length
    of the match.  The digits are taken greedily; giving some back cannot
    help, since the character after them would be a digit. *)
Definition match_placeholder (s : string) : option nat :=
  match s with
  | String "{" s' =>
    let n := count_digits s' in
    match String.get n s' with
    | Some "}"%char => if 0 <? n then Some (n + 2) else None
    | _ => None
    end
  | _ => None
  end.

(** [s.replace(regex, replacer)] for the global [regex] above: the matches
    are looked for from left to right and do not overlap, each is replaced
    by what [replacer] returns on it, and the text between them is kept.
    [skip] counts the characters still to pass of the match just
    replaced. *)
Fixpoint replace_placeholders (replacer : string -> completion string) (skip : nat)
    (s : string) : completion string :=
  match s with
  | EmptyString => Return EmptyString
  | String c s' =>
    match skip with
    | S skip' => replace_placeholders replacer skip' s'
    | O =>
      match match_placeholder s with
      | Some len =>
        bind_completion (replacer (String.substring 0 len s)) (fun replacement =>
        bind_completion (replace_placeholders replacer (len - 1) s') (fun rest =>
        Return (String.append replacement rest)))
      | None =>
        bind_completion (replace_placeholders replacer 0 s') (fun rest =>
        Return (String c rest))
      end
    end
  end.

(** [parseInt(s)] on a string of decimal digits: their value.  The number
    [parseInt] returns is the double nearest to it; compared with a length
    (below [2^32]) and used as an index it behaves as the integer.  [None]
    stands for [NaN], the result on the empty string; strings with other
    characters are not in the domain of the model. *)
Fixpoint parse_digits (acc : Z) (s : string) : Z :=
  match s with
  | String c s' =>
    if is_digit c then parse_digits (10 * acc + (Z.of_nat (nat_of_ascii c) - 48))%Z s'
    else acc
  | EmptyString => acc
  end.

Definition parseInt (s : string) : option Z :=
  match s with
  | String c _ => if is_digit c then Some (parse_digits 0 s) else None
  | EmptyString => None
  end.

(** The inner function of lines 110-124.  [replaceWithArray] is the rest
    parameter, an array in every call: [isUndefinedOrNull] is [false] of
    it, and the list is that of its elements. *)
Definition __stringFormatter (replaceWithArray : list val) (matched : string)
    : completion string :=
  let replaceWithArrayIsNull := false in
  let replaceWithArrayLength :=
    if replaceWithArrayIsNull then (-1)%Z else Z.of_nat (length replaceWithArray) in
  let indexString :=
    js_substring matched 1 (Z.of_nat (String.length matched) - 1) in
  match parseInt indexString with
  | Some indexValue =>
    if negb replaceWithArrayIsNull
       && ((0 <=? indexValue)%Z && (indexValue <? replaceWithArrayLength)%Z)
    then
      let element := nth (Z.to_nat indexValue) replaceWithArray VUndefined in
      if strict_equals element VUndefined then Return "undefined"%string
      else if strict_equals element VNull then Return "null"%string
      else toString element
    else Return matched
  | None => Return matched
  end.

(** [GLUtil.formatString(format, ...replaceWithArray)]. *)
Definition formatString (format : string) (replaceWithArray : list val)
    : completion string :=
  replace_placeholders (__stringFormatter replaceWithArray) 0 format.

End Format.


(** ** Well-formed stores *)

(** The prototype chain of [l] reaches [null] within [n] objects, all of
    them allocated. *)
Fixpoint chain_ends (n : nat) (h : heap) (l : loc) : bool :=
  match n with
  | 0 => false
  | S n' =>
    match h !! l with
    | None => false
    | Some o =>
      match proto o with
      | None => true
      | Some p => chain_ends n' h p
      end
    end
  end.

(** Every prototype chain of the store ends: no cycle, no dangling
    prototype. *)
Definition wf_heap (h : heap) : bool :=
  forallb (chain_ends (length h) h) (seq 0 (length h)).

Definition allocated (h : heap) (p : option loc) : bool :=
  match p with
  | Some l => l <? length h
  | None => true
  end.

(** The intrinsics [deepClone] hands to the objects it creates are in the
    store. *)
Definition wf_realm (R : realm) (h : heap) : bool :=
  allocated h (Some (ObjectPrototype R)) && allocated h (Some (FunctionPrototype R))
  && allocated h (Some (ArrayPrototype R))
  && allocated h (MapPrototype R) && allocated h (SetPrototype R).

(** [h'] extends [h]: every object of [h] is in [h'], unchanged. *)
Definition extends (h h' : heap) : Prop :=
  forall l o, h !! l = Some o -> h' !! l = Some o.

(** ** Values deepClone copies to the end *)

(** What [l.hasOwnProperty] resolves to. *)
Inductive own_test : Type :=
| BuiltinTest      (* Object.prototype.hasOwnProperty *)
| OtherFunction    (* a function put in its place *)
| NotAFunction     (* nothing callable: typeof is not "function" *)
| DanglingTest.    (* a reference to no object of the store *)

Definition own_test_of (h : heap) (l : loc) : own_test :=
  match get h l "hasOwnProperty" with
  | VRef f =>
    match slots_at h f with
    | Some (Callable HasOwnPropertyBuiltin) => BuiltinTest
    | Some (Callable _) => OtherFunction
    | Some _ => NotAFunction
    | None => DanglingTest
    end
  | _ => NotAFunction
  end.

Definition is_builtin_test (t : own_test) : bool :=
  match t with BuiltinTest => true | _ => false end.

Definition is_map_data (s : internal) : bool :=
  match s with MapData _ => true | _ => false end.

Definition is_set_data (s : internal) : bool :=
  match s with SetData _ => true | _ => false end.

(** The assignment [fn[k] = v] on the function [deepClone] has made, in a
    store that extends [h], writes an own property of [fn]: [k] is neither
    [length] nor [name], which [fn] has read-only, and on the chain of
    [Function.prototype], which is that of [fn] from its second object on,
    no read-only property and no setter answers to [k]. *)
Definition accepted_by_new_function (R : realm) (h : heap) (k : string) : bool :=
  negb (String.eqb k "length") && negb (String.eqb k "name")
  && (ObjectPrototype R <? length h) && (FunctionPrototype R <? length h)
  && match set_along R h (chain h (FunctionPrototype R)) k with
     | OwnData => true
     | _ => false
     end.

(** [v] nests arrays and records at most [n] deep (Maps, Sets and functions
    count as leaves: nothing below them is visited), every Map or Set
    instance met on the way holds the data its prototype promises, every
    function or record met resolves [hasOwnProperty] to the built-in test
    (a record may also have none, and is then descended into through all
    its visible keys), and the own enumerable properties of every function
    met have names the new function accepts. *)
Fixpoint clonable (R : realm) (n : nat) (h : heap) (v : val) : bool :=
  match v with
  | VRef l =>
    match slots_at h l with
    | None => false
    | Some s =>
      if is_array h v then
        match n with
        | 0 => false
        | S n' => forallb (clonable R n' h) (array_elems h l)
        end
      else if instance_of_available h v (MapPrototype R) then is_map_data s
      else if instance_of_available h v (SetPrototype R) then is_set_data s
      else if instance_of h v (FunctionPrototype R)
              || type_tag_eqb (typeof h v) TFunction then
        is_builtin_test (own_test_of h l)
        && forallb (fun k => negb (has_own h l k) || accepted_by_new_function R h k)
                   (for_in_keys h l)
      else
        match n with
        | 0 => false
        | S n' =>
          match own_test_of h l with
          | BuiltinTest =>
            forallb (fun k => negb (has_own h l k) || clonable R n' h (get h l k))
                    (for_in_keys h l)
          | NotAFunction =>
            forallb (fun k => clonable R n' h (get h l k)) (for_in_keys h l)
          | _ => false
          end
        end
    end
  | _ => true
  end.

(** ** Vocabulary of the statements *)

(** [m] started from a store that still holds every object of [h0] ends in
    such a store, however it ends. *)
Definition preserves (h0 : heap) {A} (m : M A) : Prop :=
  forall h h' c, extends h0 h -> m h = (h', c) -> extends h0 h'.

(** [m] keeps every object of the store it is started from. *)
Definition monotone {A} (m : M A) : Prop :=
  forall h h' c, m h = (h', c) -> extends h h'.

Definition is_array_slots (s : internal) : bool :=
  match s with ArrayExotic _ => true | _ => false end.

(** [l.hasOwnProperty] is usable as an own-property test: it is a function,
    and called on [l] with a key it answers, within [fuel] forwarders,
    whether [l] has the key as an own property.  The built-in test is. *)
Definition acts_as_own_test (fuel : nat) (h : heap) (l : loc) : Prop :=
  type_tag_eqb (typeof h (get h l "hasOwnProperty")) TFunction = true
  /\ forall key, call_hasOwnProperty fuel l key h = (h, Return (has_own h l key)).

(** The object at [fn] is a function as [deepClone] makes it and fills it:
    its prototype is [Function.prototype], and of its own properties only
    [length] and [name] are read-only. *)
Definition new_function_at (R : realm) (h : heap) (fn : loc) : Prop :=
  exists o, h !! fn = Some o
            /\ proto o = Some (FunctionPrototype R)
            /\ forall k p, lookup_prop k (props o) = Some p -> writable p = false ->
                           k = "length"%string \/ k = "name"%string.

(** The object at [l] has [k] as a read-only property of its own. *)
Definition has_read_only (h : heap) (l : loc) (k : string) : Prop :=
  exists o p, h !! l = Some o /\ lookup_prop k (props o) = Some p /\ writable p = false.

(** [h'] holds every object of [h] unchanged, the one at [skip] apart. *)
Definition except (skip : loc) (h h' : heap) : Prop :=
  forall l o, l <> skip -> h !! l = Some o -> h' !! l = Some o.

(** [v'] is the value a run of [clone] on [v] returned, started on a store
    that extends [h] and holds the container [skip] under construction; what
    that run built is still in [h'], [skip] apart. *)
Definition cloned_within (clone : val -> M val) (h h' : heap) (skip : loc) (v v' : val) : Prop :=
  exists h1 h2,
    extends h h1 /\ skip < length h1 /\ clone v h1 = (h2, Return v') /\ except skip h2 h'.

Definition own_enumerable_keys (o : object) : list string :=
  map fst (List.filter (fun kp => enumerable (snd kp)) (props o)).

(** The shape [deepClone] takes a value for: its chain of tests, first match
    wins. *)
Inductive shape : Type :=
| Nullish | BooleanShape | NumberShape | StringShape
| Sequence | Mapping | UniquenessSet | CallableWithState | PlainRecord
| Unrecognized.

Definition classify (R : realm) (h : heap) (v : val) : shape :=
  if strict_equals v VUndefined || strict_equals v VNull then Nullish
  else if strict_equals v (VBool true) || strict_equals v (VBool false) then BooleanShape
  else if type_tag_eqb (typeof h v) TString then StringShape
  else if type_tag_eqb (typeof h v) TNumber then NumberShape
  else if is_array h v then Sequence
  else if instance_of_available h v (MapPrototype R) then Mapping
  else if instance_of_available h v (SetPrototype R) then UniquenessSet
  else if instance_of h v (FunctionPrototype R)
          || type_tag_eqb (typeof h v) TFunction then CallableWithState
  else if instance_of h v (ObjectPrototype R)
          || type_tag_eqb (typeof h v) TObject then PlainRecord
  else Unrecognized.

Definition is_primitive (v : val) : bool :=
  match v with
  | VUndefined | VNull | VBool _ | VNum _ | VStr _ => true
  | VSymbol _ | VRef _ => false
  end.

Definition is_NaN (v : val) : bool :=
  match v with VNum n => PrimFloat.is_nan n | _ => false end.

Definition allocated_val (h : heap) (v : val) : bool :=
  match v with
  | VRef l => l <? length h
  | _ => true
  end.

(** [m.get(k)], and the members of a Set in the order of iteration. *)
Definition map_get (h : heap) (m : loc) (k : val) : option val :=
  match slots_at h m with
  | Some (MapData entries) =>
    match find (fun kv => same_value_zero (fst kv) k) entries with
    | Some kv => Some (snd kv)
    | None => None
    end
  | _ => None
  end.

Definition set_members (h : heap) (s : loc) : list val :=
  match slots_at h s with
  | Some (SetData members) => members
  | _ => []
  end.

(** [k] is none of the keys of [es]. *)
Definition fresh_key (k : val) (es : list (val * val)) : bool :=
  forallb (fun kv => negb (same_value_zero (fst kv) k)) es.

(** The entries a Map can hold after [acc]: no key twice, no key [-0]. *)
Fixpoint genuine_from (acc es : list (val * val)) : Prop :=
  match es with
  | [] => True
  | (k, v) :: es' =>
    normalize_key k = k /\ fresh_key k acc = true /\ genuine_from (acc ++ [(k, v)]) es'
  end.

Definition genuine_entries (es : list (val * val)) : Prop := genuine_from [] es.

Definition genuine_members (ms : list val) : Prop :=
  genuine_entries (map (fun v => (v, v)) ms).

(** The values an object holds: elements, keys and values of entries,
    members, property values.  The prototype link is not one of them. *)
Definition stored_values (o : object) : list val :=
  match slots o with
  | ArrayExotic elems => elems
  | MapData entries => map fst entries ++ map snd entries
  | SetData members => members
  | _ => []
  end ++ map (fun kp => value (snd kp)) (props o).

(** Every object reached from [v] through stored values, at most [n] steps
    deep, is at [b] or above: it was allocated after the store had [b]
    objects. *)
Fixpoint detached (b n : nat) (h : heap) (v : val) : bool :=
  match v with
  | VRef l =>
    (b <=? l)
    && match n with
       | 0 => false
       | S n' =>
         match h !! l with
         | Some o => forallb (detached b n' h) (stored_values o)
         | None => false
         end
       end
  | _ => true
  end.

(** [clonable] values without a Map, a Set or a function anywhere. *)
Fixpoint plain_data (R : realm) (n : nat) (h : heap) (v : val) : bool :=
  match v with
  | VRef l =>
    match slots_at h l with
    | None => false
    | Some s =>
      if is_array h v then
        match n with
        | 0 => false
        | S n' => forallb (plain_data R n' h) (array_elems h l)
        end
      else if instance_of_available h v (MapPrototype R) then false
      else if instance_of_available h v (SetPrototype R) then false
      else if instance_of h v (FunctionPrototype R)
              || type_tag_eqb (typeof h v) TFunction then false
      else
        match n with
        | 0 => false
        | S n' =>
          match own_test_of h l with
          | BuiltinTest =>
            forallb (fun k => negb (has_own h l k) || plain_data R n' h (get h l k))
                    (for_in_keys h l)
          | NotAFunction =>
            forallb (fun k => plain_data R n' h (get h l k)) (for_in_keys h l)
          | _ => false
          end
        end
    end
  | _ => true
  end.

(** ** Vocabulary of the statements on numbers and strings *)

Section NumberVocabulary.
Local Open Scope Z_scope.

(** The Standard Library specifies a double [x] by [Prim2SF x]: a zero, an
    infinity, [NaN], or a sign, a mantissa and an exponent.  This is the
    double whose value is the integer [q], of at most 53 bits, with the
    sign [s]: the mantissa is [q] shifted to 53 bits. *)
Definition SF_of_pos (s : bool) (q : positive) : spec_float :=
  match 53 - Z.pos (digits2_pos q) with
  | Z.pos d => S754_finite s (Pos.iter xO q d) (- Z.pos d)
  | _ => S754_finite s q 0
  end.

(** The double whose value is the integer [z], of magnitude below [2^53]. *)
Definition SF_of_Z (z : Z) : spec_float :=
  match z with
  | Z0 => S754_zero false
  | Z.pos q => SF_of_pos false q
  | Z.neg q => SF_of_pos true q
  end.

(** The integer of magnitude [q] and sign [s]. *)
Definition SF_sign_value (s : bool) (q : positive) : Z :=
  if s then Z.neg q else Z.pos q.

Definition SF_is_nan (x : spec_float) : bool :=
  match x with S754_nan => true | _ => false end.

(** The signed 32-bit integer congruent to [z]. *)
Definition wrap_int32 (z : Z) : Z :=
  let u := z mod 2 ^ 32 in if u <? 2 ^ 31 then u else u - 2 ^ 32.

(** [u | (u >>> w)] on an unsigned integer, and the five lines of
    [power2Roundup] on it. *)
Definition smear (w u : Z) : Z := Z.lor u (Z.shiftr u w).

Definition smear32 (u : Z) : Z := smear 16 (smear 8 (smear 4 (smear 2 (smear 1 u)))).

(** The bit [i] of [a] is set when one of the [w] bits of [m] from [i] on
    is. *)
Definition spread (m w a : Z) : Prop :=
  forall i, 0 <= i ->
    (Z.testbit a i = true <-> exists t, 0 <= t < w /\ Z.testbit m (i + t) = true).

End NumberVocabulary.

(** [n] times the character [c]. *)
Fixpoint repeat_char (c : ascii) (n : nat) : string :=
  match n with
  | O => EmptyString
  | S n' => String c (repeat_char c n')
  end.

(** [s] without its first [n] characters. *)
Fixpoint string_drop (n : nat) (s : string) : string :=
  match n, s with
  | S n', String _ s' => string_drop n' s'
  | _, _ => s
  end.

(** [s] holds decimal digits only. *)
Fixpoint all_digits (s : string) : bool :=
  match s with
  | String c s' => is_digit c && all_digits s'
  | EmptyString => true
  end.

(** The head of [rest] ends a run of digits and is no closing brace. *)
Definition neutral_head (rest : string) : Prop :=
  match rest with
  | String d _ => is_digit d = false /\ d <> "}"%char
  | EmptyString => True
  end.

(** A conversion for the examples: the text of a string is the string, that
    of a boolean its name. *)
Definition text_of (v : val) : completion string :=
  match v with
  | VStr s => Return s
  | VBool true => Return "true"%string
  | VBool false => Return "false"%string
  | _ => Unmodelled
  end.

(** ** Vocabulary of the statements on cycles *)

(** [deepClone] on [l] descends into [l']: [l] is an array that holds [l'],
    or a plain record that holds it under a key the loop copies. *)
Definition descends_to (R : realm) (h : heap) (l l' : loc) : Prop :=
  match classify R h (VRef l) with
  | Sequence => exists i, array_elems h l !! i = Some (VRef l')
  | PlainRecord =>
    exists k, In k (for_in_keys h l) /\ get h l k = VRef l'
              /\ match own_test_of h l with
                 | BuiltinTest => has_own h l k = true
                 | NotAFunction => True
                 | _ => False
                 end
  | _ => False
  end.

(** ** A host and some values, for the examples *)

Definition hidden (v : val) : property :=
  {| value := v; enumerable := false; writable := true |}.
Definition visible (v : val) : property :=
  {| value := v; enumerable := true; writable := true |}.

(** The intrinsics: [Object.prototype] (0) with its [hasOwnProperty] (1),
    [Function.prototype] (2), [Array.prototype] (3), [Map.prototype] (4),
    [Set.prototype] (5) and the prototypes of the wrappers (6-9). *)
Definition host_objects : heap :=
  [ {| proto := None; slots := Ordinary;
       props := [("hasOwnProperty"%string, hidden (VRef 1))] |};
    {| proto := Some 2; slots := Callable HasOwnPropertyBuiltin; props := [] |};
    {| proto := Some 0; slots := Callable (Closure (fun _ _ => VUndefined)); props := [] |};
    {| proto := Some 0; slots := Ordinary; props := [] |};
    {| proto := Some 0; slots := Ordinary; props := [] |};
    {| proto := Some 0; slots := Ordinary; props := [] |};
    {| proto := Some 0; slots := Ordinary; props := [] |};
    {| proto := Some 0; slots := Ordinary; props := [] |};
    {| proto := Some 0; slots := Ordinary; props := [] |};
    {| proto := Some 0; slots := Ordinary; props := [] |} ].

Definition host : realm :=
  {| ObjectPrototype := 0; FunctionPrototype := 2; ArrayPrototype := 3;
     MapPrototype := Some 4; SetPrototype := Some 5;
     BooleanPrototype := 6; NumberPrototype := 7; StringPrototype := 8;
     SymbolPrototype := 9 |}.

Definition array_object (elems : list val) : object :=
  {| proto := Some 3; slots := ArrayExotic elems; props := [] |}.

Definition record_object (ps : list (string * property)) : object :=
  {| proto := Some 0; slots := Ordinary; props := ps |}.

(** [[1, [2, 3], "s"]]: the inner array at 10, the outer one at 11. *)
Definition nested_array_heap : heap :=
  host_objects ++ [ array_object [VNum 2; VNum 3];
                    array_object [VNum 1; VRef 10; VStr "s"] ].

(** [{a: 1, b: {c: 2}}]: the inner record at 10, the outer one at 11. *)
Definition nested_record_heap : heap :=
  host_objects ++ [ record_object [("c"%string, visible (VNum 2))];
                    record_object [("a"%string, visible (VNum 1));
                                   ("b"%string, visible (VRef 10))] ].

(** A record made by [Object.create(p)] where [p] (at 10) is itself without
    prototype and has an enumerable property: the record (at 11) has no
    [hasOwnProperty] at all. *)
Definition bare_record_heap : heap :=
  host_objects ++ [ {| proto := None; slots := Ordinary;
                       props := [("inherited"%string, visible (VNum 7))] |};
                    {| proto := Some 10; slots := Ordinary;
                       props := [("own"%string, visible (VNum 1))] |} ].


(** A function [f] (at 10) with [f.tag = "x"], [f.data = [1]] (the array at
    12) and [f(y) = y + 1], and its prototype object (at 11), whose
    [constructor] leads back to [f]. *)
Definition successor (this : val) (args : list val) : val :=
  match args with
  | VNum y :: _ => VNum (y + 1)%float
  | _ => VUndefined
  end.

Definition function_heap : heap :=
  host_objects ++ [ {| proto := Some 2; slots := Callable (Closure successor);
                       props := [("prototype"%string, hidden (VRef 11));
                                 ("tag"%string, visible (VStr "x"));
                                 ("data"%string, visible (VRef 12))] |};
                    {| proto := Some 0; slots := Ordinary;
                       props := [("constructor"%string, hidden (VRef 10))] |};
                    array_object [VNum 1] ].

(** A Map (at 11) with the entries [("k1", [1]), ("k2", 2)]; the array is
    at 10. *)
Definition map_heap : heap :=
  host_objects ++ [ array_object [VNum 1];
                    {| proto := Some 4;
                       slots := MapData [(VStr "k1", VRef 10); (VStr "k2", VNum 2)];
                       props := [] |} ].

(** A Set (at 11) whose one member is the array [[1]] (at 10). *)
Definition set_heap : heap :=
  host_objects ++ [ array_object [VNum 1];
                    {| proto := Some 5; slots := SetData [VRef 10]; props := [] |} ].

(** A function whose own [hasOwnProperty] is the number 1, and a record
    with the same property. *)
Definition tampered_heap : heap :=
  host_objects ++ [ {| proto := Some 2; slots := Callable (Closure successor);
                       props := [("hasOwnProperty"%string, visible (VNum 1))] |};
                    record_object [("hasOwnProperty"%string, visible (VNum 1))] ].

(** An object made by [Object.create(Map.prototype)]: an instance of Map
    without Map data. *)
Definition fake_map_heap : heap :=
  host_objects ++ [ {| proto := Some 4; slots := Ordinary; props := [] |} ].

(** A record (at 11) that brings its own [hasOwnProperty] (the function at
    10), which answers for the two keys the record has. *)
Definition custom_test (this : val) (args : list val) : val :=
  match args with
  | VStr k :: _ => VBool (String.eqb k "a" || String.eqb k "hasOwnProperty")
  | _ => VBool false
  end.

Definition custom_test_heap : heap :=
  host_objects ++ [ {| proto := Some 2; slots := Callable (Closure custom_test);
                       props := [] |};
                    record_object [("a"%string, visible (VNum 1));
                                   ("hasOwnProperty"%string, visible (VRef 10))] ].

(** A class (at 10) with a static member called [name], as
    [class Point { static name = "Point"; }] makes it, and its prototype
    object (at 11). *)
Definition static_name_heap : heap :=
  host_objects ++ [ {| proto := Some 2; slots := Callable (Closure successor);
                       props := [("prototype"%string, hidden (VRef 11));
                                 ("name"%string, visible (VStr "Point"))] |};
                    {| proto := Some 0; slots := Ordinary;
                       props := [("constructor"%string, hidden (VRef 10))] |} ].

(** A function (at 10) with an own enumerable property called [__proto__],
    which holds the record at 11. *)
Definition proto_key_heap : heap :=
  host_objects ++ [ {| proto := Some 2; slots := Callable (Closure successor);
                       props := [("__proto__"%string, visible (VRef 11))] |};
                    record_object [("tag"%string, visible (VStr "x"))] ].

(** [{self: o}], the record [o] at 10. *)
Definition cyclic_record_heap : heap :=
  host_objects ++ [ record_object [("self"%string, visible (VRef 10))] ].

(** An object (at 10) that is no function and has a [prototype] (at 11)
    whose [constructor] it is: a class as the legacy engine shows some. *)
Definition legacy_heap : heap :=
  host_objects ++ [ record_object [("prototype"%string, hidden (VRef 11))];
                    record_object [("constructor"%string, hidden (VRef 10))] ].


(** * Proofs *)

(** ** Reasoning on the store monad *)

(** Splits a hypothesis [bind m k h = (h', c)] on the way [m h] ends. *)
Ltac inv_bind H :=
  let h1 := fresh "h1" in
  let c1 := fresh "c1" in
  let E := fresh "E" in
  unfold bind in H;
  match type of H with
  | context [match ?m ?h with _ => _ end] =>
    destruct (m h) as [h1 c1] eqn:E;
    destruct c1;
    [ cbv beta in H | inversion H; subst; clear H | inversion H; subst; clear H
      | inversion H; subst; clear H ]
  end.

Lemma extends_refl h : extends h h.
Proof. intros l o Hl. exact Hl. Qed.

Lemma extends_trans h1 h2 h3 : extends h1 h2 -> extends h2 h3 -> extends h1 h3.
Proof. intros H12 H23 l o Hl. apply H23, H12, Hl. Qed.

Lemma extends_app h ext : extends h (h ++ ext).
Proof.
  intros l o Hl. rewrite lookup_app_l; [exact Hl|].
  eapply lookup_lt_Some, Hl.
Qed.

Lemma extends_length h h' : extends h h' -> length h <= length h'.
Proof.
  intros He. destruct (decide (length h <= length h')) as [|Hn]; [assumption|].
  assert (Hlt : length h' < length h) by lia.
  destruct (lookup_lt_is_Some_2 h (length h') Hlt) as [o Ho].
  apply He in Ho. apply lookup_lt_Some in Ho. lia.
Qed.

Lemma extends_insert h0 h l o :
  length h0 <= l -> extends h0 h -> extends h0 (<[l := o]> h).
Proof.
  intros Hl He j oj Hj.
  assert (j < length h0) by (eapply lookup_lt_Some, Hj).
  rewrite list_lookup_insert_ne by lia. apply He, Hj.
Qed.

Lemma extends_set_prop h0 h l k v :
  length h0 <= l -> extends h0 h -> extends h0 (set_prop l k v h).
Proof.
  intros Hl He. unfold set_prop. destruct (h !! l); [|exact He].
  apply extends_insert; assumption.
Qed.

Lemma extends_set_prototype h0 h l p :
  length h0 <= l -> extends h0 h -> extends h0 (set_prototype l p h).
Proof.
  intros Hl He. unfold set_prototype. destruct (h !! l); [|exact He].
  apply extends_insert; assumption.
Qed.

Lemma extends_array_push h0 h l v :
  length h0 <= l -> extends h0 h -> extends h0 (array_push l v h).
Proof.
  intros Hl He. unfold array_push. destruct (h !! l) as [o|]; [|exact He].
  destruct (slots o); try exact He. apply extends_insert; assumption.
Qed.

Lemma extends_map_set h0 h l k v :
  length h0 <= l -> extends h0 h -> extends h0 (map_set l k v h).
Proof.
  intros Hl He. unfold map_set. destruct (h !! l) as [o|]; [|exact He].
  destruct (slots o); try exact He. apply extends_insert; assumption.
Qed.

Lemma extends_set_add h0 h l v :
  length h0 <= l -> extends h0 h -> extends h0 (set_add l v h).
Proof.
  intros Hl He. unfold set_add. destruct (h !! l) as [o|]; [|exact He].
  destruct (slots o); try exact He. apply extends_insert; assumption.
Qed.

Lemma monotone_preserves {A} (m : M A) h0 : monotone m -> preserves h0 m.
Proof. intros Hm h h' c He E. eapply extends_trans; [exact He|]. eapply Hm, E. Qed.

Lemma preserves_monotone {A} (m : M A) : (forall h0, preserves h0 m) -> monotone m.
Proof. intros Hp h h' c E. eapply (Hp h); [apply extends_refl|exact E]. Qed.

Lemma preserves_ret {A} h0 (a : A) : preserves h0 (ret a).
Proof. intros h h' c He E. inversion E; subst. exact He. Qed.

Lemma preserves_lift {A} h0 (c : completion A) : preserves h0 (lift c).
Proof. intros h h' c' He E. inversion E; subst. exact He. Qed.

Lemma preserves_read {A} h0 (f : heap -> A) : preserves h0 (read f).
Proof. intros h h' c He E. inversion E; subst. exact He. Qed.

Lemma preserves_write h0 (f : heap -> heap) :
  (forall h, extends h0 h -> extends h0 (f h)) -> preserves h0 (write f).
Proof. intros Hf h h' c He E. inversion E; subst. apply Hf, He. Qed.

Lemma preserves_bind {A B} h0 (m : M A) (k : A -> M B) :
  preserves h0 m -> (forall a, preserves h0 (k a)) -> preserves h0 (bind m k).
Proof.
  intros Hm Hk h h' c He Hb. inv_bind Hb; try (eapply Hm; eassumption).
  eapply Hk; [|exact Hb]. eapply Hm; eassumption.
Qed.

(** After an allocation the continuation works on a reference that is not
    an object of [h0]. *)
Lemma preserves_alloc {B} h0 (o : object) (k : loc -> M B) :
  (forall l, length h0 <= l -> preserves h0 (k l)) -> preserves h0 (bind (alloc o) k).
Proof.
  intros Hk h h' c He E. unfold bind, alloc in E.
  eapply (Hk (length h)); [apply extends_length, He| |exact E].
  eapply extends_trans; [exact He|apply extends_app].
Qed.

Lemma preserves_new_forwarder {B} h0 R src (k : loc -> M B) :
  (forall l, length h0 <= l -> preserves h0 (k l)) ->
  preserves h0 (bind (new_forwarder R src) k).
Proof.
  intros Hk h h' c He E. unfold bind, new_forwarder in E.
  eapply (Hk (length h)); [apply extends_length, He| |exact E].
  eapply extends_trans; [exact He|apply extends_app].
Qed.

(** An assignment writes to its receiver only, however it ends. *)
Lemma preserves_put h0 R l k v :
  length h0 <= l -> preserves h0 (put R l k v).
Proof.
  intros Hl h h' c He E. unfold put in E.
  destruct (set_along R h (chain h l) k) as [| |[|]].
  - inversion E; subst. apply extends_set_prop; assumption.
  - inversion E; subst. exact He.
  - destruct v as [| | | | | |p]; try (inversion E; subst; exact He).
    + inversion E; subst. apply extends_set_prototype; assumption.
    + destruct (existsb (Nat.eqb l) (chain h p)); inversion E; subst;
        [exact He|apply extends_set_prototype; assumption].
  - inversion E; subst. exact He.
Qed.

Lemma preserves_call_hasOwnProperty h0 fuel src key :
  preserves h0 (call_hasOwnProperty fuel src key).
Proof.
  intros h h' c He E. unfold call_hasOwnProperty in E.
  destruct (call _ _ _ _ _); inversion E; subst; exact He.
Qed.

(** ** The loops keep the objects of the store they were started on *)

Lemma preserves_clone_elements h0 clone src tmp :
  (forall v, monotone (clone v)) -> length h0 <= tmp ->
  forall n i, preserves h0 (clone_elements clone n src tmp i).
Proof.
  intros Hc Ht n. induction n as [|n IH]; intros i h h' c He E; simpl in E.
  - destruct (i <? array_length h src); inversion E; subst; exact He.
  - destruct (i <? array_length h src); [|inversion E; subst; exact He].
    refine (preserves_bind h0 _ _ _ _ h h' c He E).
    + apply monotone_preserves, Hc.
    + intros v. apply preserves_bind; [|intros _; apply IH].
      apply preserves_write. intros h2 He2. apply extends_array_push; assumption.
Qed.

Lemma preserves_copy_entries h0 newMap entries :
  length h0 <= newMap -> preserves h0 (copy_entries newMap entries).
Proof.
  intros Hn. induction entries as [|[k v] es IH]; simpl.
  - apply preserves_ret.
  - apply preserves_bind; [|intros _; exact IH].
    apply preserves_write. intros h He. apply extends_map_set; assumption.
Qed.

Lemma preserves_copy_members h0 newSet members :
  length h0 <= newSet -> preserves h0 (copy_members newSet members).
Proof.
  intros Hn. induction members as [|v ms IH]; simpl.
  - apply preserves_ret.
  - apply preserves_bind; [|intros _; exact IH].
    apply preserves_write. intros h He. apply extends_set_add; assumption.
Qed.

Lemma preserves_copy_function_properties h0 R fuel src fn keys :
  length h0 <= fn -> preserves h0 (copy_function_properties R fuel src fn keys).
Proof.
  intros Hn. induction keys as [|key keys IH]; simpl.
  - apply preserves_ret.
  - apply preserves_bind; [apply preserves_call_hasOwnProperty|].
    intros own. apply preserves_bind; [|intros _; exact IH].
    destruct own; [|apply preserves_ret].
    apply preserves_bind; [apply preserves_read|].
    intros v. apply preserves_put, Hn.
Qed.

Lemma preserves_clone_own_properties h0 clone fuel src newObject keys :
  (forall v, monotone (clone v)) -> length h0 <= newObject ->
  preserves h0 (clone_own_properties clone fuel src newObject keys).
Proof.
  intros Hc Hn. induction keys as [|key keys IH]; simpl.
  - apply preserves_ret.
  - apply preserves_bind; [apply preserves_call_hasOwnProperty|].
    intros own. apply preserves_bind; [|intros _; exact IH].
    destruct own; [|apply preserves_ret].
    apply preserves_bind; [apply preserves_read|].
    intros v. apply preserves_bind; [apply monotone_preserves, Hc|].
    intros v'. apply preserves_write. intros h He. apply extends_set_prop; assumption.
Qed.

Lemma preserves_clone_visible_properties h0 clone src newObject keys :
  (forall v, monotone (clone v)) -> length h0 <= newObject ->
  preserves h0 (clone_visible_properties clone src newObject keys).
Proof.
  intros Hc Hn. induction keys as [|key keys IH]; simpl.
  - apply preserves_ret.
  - apply preserves_bind; [apply preserves_read|].
    intros v. apply preserves_bind; [apply monotone_preserves, Hc|].
    intros v'. apply preserves_bind; [|intros _; exact IH].
    apply preserves_write. intros h He. apply extends_set_prop; assumption.
Qed.

(** ** The branches of deepClone *)

(** [deepClone] on a reference: the tests on primitives fail, the rest of
    the chain of tests decides. *)
Lemma deepClone_ref R fuel src h :
  deepClone R fuel (VRef src) h =
  match slots_at h src with
  | None => (h, Unmodelled)
  | Some _ =>
    if is_array h (VRef src) then
      match fuel with
      | 0 => (h, OutOfFuel)
      | S fuel' => clone_array R (deepClone R fuel') src h
      end
    else if instance_of_available h (VRef src) (MapPrototype R) then clone_map R src h
    else if instance_of_available h (VRef src) (SetPrototype R) then clone_set R src h
    else if instance_of h (VRef src) (FunctionPrototype R)
            || type_tag_eqb (typeof h (VRef src)) TFunction then
      clone_function R (S fuel) src h
    else if instance_of h (VRef src) (ObjectPrototype R)
            || type_tag_eqb (typeof h (VRef src)) TObject then
      match fuel with
      | 0 => (h, OutOfFuel)
      | S fuel' => clone_record (deepClone R fuel') (S fuel) src h
      end
    else (h, Return VUndefined)
  end.
Proof.
  destruct fuel; cbn [deepClone strict_equals orb typeof];
    destruct (is_callable h src); reflexivity.
Qed.

(** On anything but a reference the store is left as it is. *)
Lemma deepClone_primitive_store R fuel v h :
  (forall l, v <> VRef l) -> fst (deepClone R fuel v h) = h.
Proof.
  intros Hv. destruct v; try (exfalso; eapply Hv; reflexivity);
    destruct fuel; cbn; try reflexivity; destruct b; reflexivity.
Qed.

Lemma monotone_clone_array R clone src :
  (forall v, monotone (clone v)) -> monotone (clone_array R clone src).
Proof.
  intros Hc. apply preserves_monotone. intros h0. unfold clone_array.
  apply preserves_alloc. intros tmp Ht.
  apply preserves_bind; [apply preserves_read|]. intros bound.
  apply preserves_bind; [|intros _; apply preserves_ret].
  apply preserves_clone_elements; assumption.
Qed.

Lemma monotone_clone_map R src : monotone (clone_map R src).
Proof.
  apply preserves_monotone. intros h0. unfold clone_map.
  apply preserves_alloc. intros newMap Hn.
  apply preserves_bind; [apply preserves_read|]. intros srcSlots.
  apply preserves_bind; [|intros _; apply preserves_ret].
  destruct srcSlots as [[]|]; try apply preserves_lift.
  apply preserves_copy_entries, Hn.
Qed.

Lemma monotone_clone_set R src : monotone (clone_set R src).
Proof.
  apply preserves_monotone. intros h0. unfold clone_set.
  apply preserves_alloc. intros newSet Hn.
  apply preserves_bind; [apply preserves_read|]. intros srcSlots.
  apply preserves_bind; [|intros _; apply preserves_ret].
  destruct srcSlots as [[]|]; try apply preserves_lift.
  apply preserves_copy_members, Hn.
Qed.

Lemma monotone_clone_function R fuel src : monotone (clone_function R fuel src).
Proof.
  apply preserves_monotone. intros h0. unfold clone_function.
  apply preserves_new_forwarder. intros fn Hn.
  apply preserves_bind; [apply preserves_read|]. intros prototype.
  apply preserves_bind; [apply preserves_put, Hn|].
  intros _. apply preserves_bind; [apply preserves_read|]. intros keys.
  apply preserves_bind; [|intros _; apply preserves_ret].
  apply preserves_copy_function_properties, Hn.
Qed.

Lemma monotone_clone_record clone fuel src :
  (forall v, monotone (clone v)) -> monotone (clone_record clone fuel src).
Proof.
  intros Hc. apply preserves_monotone. intros h0. unfold clone_record.
  apply preserves_alloc. intros newObject Hn.
  apply preserves_bind; [apply preserves_read|]. intros hasOwnProperty.
  apply preserves_bind; [apply preserves_read|]. intros usable.
  apply preserves_bind; [apply preserves_read|]. intros keys.
  apply preserves_bind; [|intros _; apply preserves_ret].
  destruct usable.
  - apply preserves_clone_own_properties; assumption.
  - apply preserves_clone_visible_properties; assumption.
Qed.

(** Closes a goal [extends h h'] when [E] runs [deepClone] on a primitive. *)
Ltac primitive_case E :=
  match type of E with
  | deepClone ?R ?f ?v ?h = _ =>
    let Hs := fresh "Hs" in
    assert (Hs : fst (deepClone R f v h) = h)
      by (apply deepClone_primitive_store; discriminate);
    rewrite E in Hs; simpl in Hs; subst; apply extends_refl
  end.

(** Whatever its outcome, [deepClone] keeps every object of the store it
    was started on; what it writes, it writes to objects it has allocated
    itself. *)
Lemma deepClone_monotone R fuel : forall v, monotone (deepClone R fuel v).
Proof.
  induction fuel as [|fuel IH]; intros v h h' c E.
  - destruct v as [| | b | n | s | id | l]; try primitive_case E.
    rewrite deepClone_ref in E.
    destruct (slots_at h l); [|inversion E; subst; apply extends_refl].
    repeat match type of E with
           | (if ?b then _ else _) = _ => destruct b
           end;
      try (inversion E; subst; apply extends_refl).
    + eapply monotone_clone_map, E.
    + eapply monotone_clone_set, E.
    + eapply monotone_clone_function, E.
  - destruct v as [| | b | n | s | id | l]; try primitive_case E.
    rewrite deepClone_ref in E.
    destruct (slots_at h l); [|inversion E; subst; apply extends_refl].
    repeat match type of E with
           | (if ?b then _ else _) = _ => destruct b
           end;
      try (inversion E; subst; apply extends_refl).
    + eapply monotone_clone_array, E. exact IH.
    + eapply monotone_clone_map, E.
    + eapply monotone_clone_set, E.
    + eapply monotone_clone_function, E.
    + eapply monotone_clone_record, E. exact IH.
Qed.

(** ** Reads through prototype chains are stable under extension *)

Lemma extends_lookup hb h l :
  extends hb h -> l < length hb -> h !! l = hb !! l.
Proof.
  intros He Hl. destruct (lookup_lt_is_Some_2 hb l Hl) as [o Ho].
  rewrite Ho. apply He, Ho.
Qed.

Lemma wf_heap_chain_ends h l :
  wf_heap h = true -> l < length h -> chain_ends (length h) h l = true.
Proof.
  unfold wf_heap. rewrite forallb_forall. intros Hwf Hl.
  apply Hwf. apply in_seq. lia.
Qed.

Lemma chain_ends_frame hb h :
  extends hb h ->
  forall n l m, chain_ends n hb l = true -> n <= m ->
                proto_chain m h l = proto_chain n hb l.
Proof.
  intros He n. induction n as [|n IH]; intros l m Hends Hm; [discriminate|].
  destruct m as [|m]; [lia|]. simpl in *.
  destruct (hb !! l) as [o|] eqn:Hl; [|discriminate].
  rewrite (He _ _ Hl). destruct (proto o) as [p|]; [|reflexivity].
  f_equal. apply IH; [exact Hends|lia].
Qed.

Lemma chain_frame hb h l :
  wf_heap hb = true -> extends hb h -> l < length hb -> chain h l = chain hb l.
Proof.
  intros Hwf He Hl. unfold chain.
  apply chain_ends_frame; [exact He| |apply extends_length, He].
  apply wf_heap_chain_ends; assumption.
Qed.

Lemma proto_chain_allocated h n : forall l l',
  In l' (proto_chain n h l) -> l' < length h.
Proof.
  induction n as [|n IH]; intros l l' Hin; simpl in Hin; [contradiction|].
  destruct (h !! l) as [o|] eqn:Hl; [|contradiction].
  destruct Hin as [<-|Hin]; [eapply lookup_lt_Some, Hl|].
  destruct (proto o); [eapply IH, Hin|contradiction].
Qed.

Lemma get_own_frame hb h l k :
  extends hb h -> l < length hb -> get_own h l k = get_own hb l k.
Proof. intros He Hl. unfold get_own. rewrite (extends_lookup hb h l He Hl). reflexivity. Qed.

Lemma has_own_frame hb h l k :
  extends hb h -> l < length hb -> has_own h l k = has_own hb l k.
Proof. intros He Hl. unfold has_own. rewrite (get_own_frame hb h l k He Hl). reflexivity. Qed.

Lemma get_along_frame hb h k ls :
  extends hb h -> (forall l, In l ls -> l < length hb) ->
  get_along h ls k = get_along hb ls k.
Proof.
  intros He. induction ls as [|l ls IH]; intros Hls; simpl; [reflexivity|].
  rewrite (get_own_frame hb h l k He) by (apply Hls; left; reflexivity).
  destruct (get_own hb l k); [reflexivity|].
  apply IH. intros l' Hl'. apply Hls. right. exact Hl'.
Qed.

Lemma enumerate_along_frame hb h ls :
  extends hb h -> (forall l, In l ls -> l < length hb) ->
  forall seen, enumerate_along h ls seen = enumerate_along hb ls seen.
Proof.
  intros He. induction ls as [|l ls IH]; intros Hls seen; simpl; [reflexivity|].
  rewrite (extends_lookup hb h l He) by (apply Hls; left; reflexivity).
  destruct (hb !! l); [|reflexivity].
  rewrite IH; [reflexivity|]. intros l' Hl'. apply Hls. right. exact Hl'.
Qed.

Section Frame.
Variables (hb h : heap) (l : loc).
Hypothesis Hwf : wf_heap hb = true.
Hypothesis He : extends hb h.
Hypothesis Hl : l < length hb.

Lemma get_frame k : get h l k = get hb l k.
Proof.
  unfold get. rewrite (chain_frame hb h l Hwf He Hl).
  apply get_along_frame; [exact He|]. intros l'. apply proto_chain_allocated.
Qed.

Lemma for_in_keys_frame : for_in_keys h l = for_in_keys hb l.
Proof.
  unfold for_in_keys. rewrite (chain_frame hb h l Hwf He Hl).
  apply enumerate_along_frame; [exact He|]. intros l'. apply proto_chain_allocated.
Qed.

Lemma instance_of_frame p : instance_of h (VRef l) p = instance_of hb (VRef l) p.
Proof. unfold instance_of. rewrite (chain_frame hb h l Hwf He Hl). reflexivity. Qed.

Lemma instance_of_available_frame p :
  instance_of_available h (VRef l) p = instance_of_available hb (VRef l) p.
Proof. destruct p; [apply instance_of_frame|reflexivity]. Qed.

Lemma slots_at_frame : slots_at h l = slots_at hb l.
Proof. unfold slots_at. rewrite (extends_lookup hb h l He Hl). reflexivity. Qed.

Lemma is_callable_frame : is_callable h l = is_callable hb l.
Proof. unfold is_callable. rewrite (extends_lookup hb h l He Hl). reflexivity. Qed.

Lemma typeof_frame : typeof h (VRef l) = typeof hb (VRef l).
Proof. simpl. rewrite is_callable_frame. reflexivity. Qed.

Lemma is_array_frame : is_array h (VRef l) = is_array hb (VRef l).
Proof. unfold is_array. rewrite (extends_lookup hb h l He Hl). reflexivity. Qed.

Lemma array_elems_frame : array_elems h l = array_elems hb l.
Proof. unfold array_elems. rewrite (extends_lookup hb h l He Hl). reflexivity. Qed.

Lemma own_test_of_frame :
  own_test_of hb l <> DanglingTest -> own_test_of h l = own_test_of hb l.
Proof.
  unfold own_test_of. rewrite get_frame.
  destruct (get hb l "hasOwnProperty") as [| | | | | |f]; try reflexivity.
  unfold slots_at. destruct (hb !! f) as [o|] eqn:Hf; [|congruence].
  rewrite (He _ _ Hf). reflexivity.
Qed.
End Frame.

(** ** Running the monad forward *)

Lemma bind_return {A B} (m : M A) (k : A -> M B) h h1 a :
  m h = (h1, Return a) -> bind m k h = k a h1.
Proof. intros E. unfold bind. rewrite E. reflexivity. Qed.

Lemma bind_read {A B} (f : heap -> A) (k : A -> M B) h :
  bind (read f) k h = k (f h) h.
Proof. reflexivity. Qed.

Lemma bind_write {B} (f : heap -> heap) (k : unit -> M B) h :
  bind (write f) k h = k tt (f h).
Proof. reflexivity. Qed.

Lemma bind_alloc {B} (o : object) (k : loc -> M B) h :
  bind (alloc o) k h = k (length h) (h ++ [o]).
Proof. reflexivity. Qed.

Lemma bind_ret {A B} (a : A) (k : A -> M B) h : bind (ret a) k h = k a h.
Proof. reflexivity. Qed.

(** A bind that returns went through a first part that returned. *)
Lemma bind_inv_return {A B} (m : M A) (k : A -> M B) h h' b :
  bind m k h = (h', Return b) ->
  exists h1 a, m h = (h1, Return a) /\ k a h1 = (h', Return b).
Proof.
  unfold bind. destruct (m h) as [h1 [a| | |]]; try discriminate.
  intros E. exists h1, a. split; [reflexivity|exact E].
Qed.

Lemma bind_assoc {A B C} (m : M A) (k1 : A -> M B) (k2 : B -> M C) h :
  bind (bind m k1) k2 h = bind m (fun a => bind (k1 a) k2) h.
Proof. unfold bind. destruct (m h) as [h1 []]; reflexivity. Qed.

(** ** The built-in own-property test *)

Lemma builtin_test_call h src s fuel key :
  own_test_of h src = BuiltinTest ->
  slots_at h src = Some s -> is_array_slots s = false ->
  call_hasOwnProperty (S fuel) src key h = (h, Return (has_own h src key)).
Proof.
  unfold own_test_of, call_hasOwnProperty, slots_at. intros Ht Hs Ha.
  destruct (get h src "hasOwnProperty") as [| | | | | |f]; try discriminate.
  simpl. destruct (h !! f) as [o|]; [|discriminate].
  destruct (slots o) as [| | | |[| |]]; try discriminate.
  simpl. destruct (h !! src) as [o'|]; [|discriminate].
  inversion Hs; subst. destruct (slots o'); try discriminate; reflexivity.
Qed.

Lemma builtin_test_usable h src :
  own_test_of h src = BuiltinTest ->
  type_tag_eqb (typeof h (get h src "hasOwnProperty")) TFunction = true.
Proof.
  unfold own_test_of, slots_at. intros Ht.
  destruct (get h src "hasOwnProperty") as [| | | | | |f]; try discriminate.
  simpl. unfold is_callable. destruct (h !! f) as [o|]; [|discriminate].
  destruct (slots o) as [| | | |[| |]]; try discriminate. reflexivity.
Qed.

Lemma no_test_unusable h src :
  own_test_of h src = NotAFunction ->
  type_tag_eqb (typeof h (get h src "hasOwnProperty")) TFunction = false.
Proof.
  unfold own_test_of, slots_at. intros Ht.
  destruct (get h src "hasOwnProperty") as [| | | | | |f]; try reflexivity.
  simpl. unfold is_callable. destruct (h !! f) as [o|]; [|discriminate].
  destruct (slots o) as [| | | |[| |]]; try discriminate; reflexivity.
Qed.

(** A call that the model covers gives the same result on a larger store. *)
Lemma call_extends h h' :
  extends h h' ->
  forall n callee this args,
    call n h callee this args <> Unmodelled ->
    call n h' callee this args = call n h callee this args.
Proof.
  intros He. induction n as [|n IH]; intros callee this args Hm; [reflexivity|].
  simpl in *. destruct callee as [| | | | | |l]; try reflexivity.
  destruct (h !! l) as [o|] eqn:Hl; [|congruence]. rewrite (He _ _ Hl).
  destruct (slots o) as [| | | |[|target|body]]; try reflexivity.
  - unfold hasOwnProperty_builtin in *.
    destruct this as [| | | | | |t]; try reflexivity.
    destruct args as [|[| | | |k| |] args]; try reflexivity.
    destruct (h !! t) as [ot|] eqn:Ht; [|congruence]. rewrite (He _ _ Ht).
    destruct (slots ot); try reflexivity;
      unfold has_own, get_own; rewrite Ht, (He _ _ Ht); reflexivity.
  - apply IH. exact Hm.
Qed.

Lemma builtin_acts h src s fuel :
  own_test_of h src = BuiltinTest ->
  slots_at h src = Some s -> is_array_slots s = false ->
  acts_as_own_test (S fuel) h src.
Proof.
  intros Ht Hs Ha. split; [apply builtin_test_usable, Ht|].
  intros key. eapply builtin_test_call; eassumption.
Qed.

(** A usable own-property test stays one on a larger store. *)
Lemma acts_call hb h src fuel key :
  wf_heap hb = true -> extends hb h -> src < length hb ->
  acts_as_own_test fuel hb src ->
  call_hasOwnProperty fuel src key h = (h, Return (has_own hb src key)).
Proof.
  intros Hwf He Hl [_ Hcall]. specialize (Hcall key).
  unfold call_hasOwnProperty in *. rewrite (get_frame hb h src Hwf He Hl).
  destruct (call fuel hb (get hb src "hasOwnProperty") (VRef src) [VStr key]) eqn:Ec;
    try discriminate.
  rewrite (call_extends hb h He) by (rewrite Ec; discriminate).
  rewrite Ec. inversion Hcall. reflexivity.
Qed.

Lemma acts_usable hb h src fuel :
  wf_heap hb = true -> extends hb h -> src < length hb ->
  acts_as_own_test fuel hb src ->
  type_tag_eqb (typeof h (get h src "hasOwnProperty")) TFunction = true.
Proof.
  intros Hwf He Hl [Hty _]. rewrite (get_frame hb h src Hwf He Hl).
  destruct (get hb src "hasOwnProperty") as [| | | | | |f]; try discriminate.
  simpl in *. unfold is_callable in *.
  destruct (hb !! f) as [o|] eqn:Hf; [|discriminate].
  rewrite (He _ _ Hf). exact Hty.
Qed.

(** ** Property lists *)

Lemma lookup_assign_eq k v ps :
  lookup_prop k (assign k v ps)
  = Some {| value := v;
            enumerable := match lookup_prop k ps with
                          | Some p => enumerable p
                          | None => true
                          end;
            writable := match lookup_prop k ps with
                        | Some p => writable p
                        | None => true
                        end |}.
Proof.
  induction ps as [|[k' p] ps IH]; simpl.
  - rewrite String.eqb_refl. reflexivity.
  - destruct (String.eqb k k') eqn:Hk; simpl; rewrite Hk; [reflexivity|exact IH].
Qed.

Lemma lookup_assign_ne k k' v ps :
  k <> k' -> lookup_prop k' (assign k v ps) = lookup_prop k' ps.
Proof.
  intros Hne. induction ps as [|[k0 p] ps IH]; simpl.
  - destruct (String.eqb_spec k' k); [congruence|reflexivity].
  - destruct (String.eqb_spec k k0) as [->|Hk0]; simpl.
    + destruct (String.eqb_spec k' k0); [congruence|reflexivity].
    + destruct (String.eqb k' k0); [reflexivity|exact IH].
Qed.

Lemma lookup_prop_In k ps : lookup_prop k ps <> None <-> In k (map fst ps).
Proof.
  induction ps as [|[k' p] ps IH]; simpl; [tauto|].
  destruct (String.eqb_spec k k') as [->|Hne].
  - split; [auto|discriminate].
  - rewrite IH. split; [auto|]. intros [?|?]; [congruence|assumption].
Qed.

Lemma mem_string_In k ks : mem_string k ks = true <-> In k ks.
Proof.
  unfold mem_string. rewrite existsb_exists. split.
  - intros (x & Hx & Hk). apply String.eqb_eq in Hk. subst. exact Hx.
  - intros Hk. exists k. split; [exact Hk|apply String.eqb_refl].
Qed.

Lemma set_prop_lookup l k v h o ps :
  h !! l = Some (with_props o ps) ->
  set_prop l k v h !! l = Some (with_props o (assign k v ps)).
Proof.
  intros Hl. unfold set_prop. rewrite Hl. simpl.
  rewrite list_lookup_insert_eq by (eapply lookup_lt_Some, Hl). reflexivity.
Qed.

(** ** Assignment on the function deepClone makes *)

Lemma set_along_frame R hb h k ls :
  extends hb h -> (forall l, In l ls -> l < length hb) ->
  set_along R h ls k = set_along R hb ls k.
Proof.
  intros He. induction ls as [|l ls IH]; intros Hls; simpl; [reflexivity|].
  rewrite (get_own_frame hb h l k He) by (apply Hls; left; reflexivity).
  destruct (get_own hb l k); [reflexivity|].
  destruct (intrinsic_setter R l k); [reflexivity|].
  apply IH. intros l' Hl'. apply Hls. right. exact Hl'.
Qed.

Lemma chain_cons h l o :
  h !! l = Some o ->
  chain h l = l :: match proto o with
                   | None => []
                   | Some p => proto_chain (length h - 1) h p
                   end.
Proof.
  intros Hl. unfold chain.
  assert (Hlen : l < length h) by (eapply lookup_lt_Some, Hl).
  destruct (length h) as [|n]; [lia|]. simpl. rewrite Hl.
  replace (n - 0) with n by lia. reflexivity.
Qed.

(** An assignment to a writable own property writes it. *)
Lemma put_own_writable R h l o k p v :
  h !! l = Some o -> lookup_prop k (props o) = Some p -> writable p = true ->
  put R l k v h = (set_prop l k v h, Return tt).
Proof.
  intros Hl Hk Hw. unfold put. rewrite (chain_cons h l o Hl). cbn [set_along].
  unfold get_own. rewrite Hl, Hk, Hw. reflexivity.
Qed.

(** An assignment to a read-only own property is refused. *)
Lemma put_own_read_only R h l o k p v :
  h !! l = Some o -> lookup_prop k (props o) = Some p -> writable p = false ->
  put R l k v h = (h, Throw).
Proof.
  intros Hl Hk Hw. unfold put. rewrite (chain_cons h l o Hl). cbn [set_along].
  unfold get_own. rewrite Hl, Hk, Hw. reflexivity.
Qed.

Lemma new_function_at_start R src h v :
  new_function_at R
    (set_prop (length h) "prototype" v
       (h ++ [forwarder_object R src (S (length h)); prototype_object R (length h)]))
    (length h).
Proof.
  eexists. split.
  - apply (set_prop_lookup (length h) "prototype" v _
             (forwarder_object R src (S (length h)))).
    rewrite lookup_app_r by lia. rewrite Nat.sub_diag. reflexivity.
  - split; [reflexivity|]. intros k p. simpl.
    destruct (String.eqb_spec k "length"); [auto|].
    destruct (String.eqb_spec k "name"); [auto|].
    destruct (String.eqb k "prototype"); [|discriminate].
    intros [= <-]. discriminate.
Qed.

(** The function branch up to its loop: the new function, with the
    [prototype] of the source in the place of its own. *)
Lemma clone_function_start R fuel src h :
  clone_function R fuel src h
  = (let h1 := h ++ [forwarder_object R src (S (length h));
                     prototype_object R (length h)] in
     let h2 := set_prop (length h) "prototype" (get h1 src "prototype") h1 in
     bind (copy_function_properties R fuel src (length h) (for_in_keys h2 src))
          (fun _ => ret (VRef (length h))) h2).
Proof.
  unfold clone_function. unfold bind at 1. unfold new_forwarder.
  rewrite bind_read. unfold bind at 1.
  rewrite (put_own_writable R _ (length h) (forwarder_object R src (S (length h)))
             "prototype"
             {| value := VRef (S (length h)); enumerable := false; writable := true |});
    [reflexivity| |reflexivity|reflexivity].
  rewrite lookup_app_r by lia. rewrite Nat.sub_diag. reflexivity.
Qed.

Section NewFunction.
Variables (R : realm) (hb : heap) (fn : loc).
Hypothesis Hwf : wf_heap hb = true.
Hypothesis Hfn : length hb <= fn.

(** On the new function an assignment under an accepted name writes an own
    property. *)
Lemma put_accepted h k v :
  extends hb h -> new_function_at R h fn ->
  accepted_by_new_function R hb k = true ->
  put R fn k v h = (set_prop fn k v h, Return tt).
Proof.
  intros He (o & Ho & Hp & Hro) Hacc. unfold accepted_by_new_function in Hacc.
  apply andb_true_iff in Hacc as [Hacc Hset].
  apply andb_true_iff in Hacc as [Hacc HF]. apply Nat.ltb_lt in HF.
  apply andb_true_iff in Hacc as [Hacc HO]. apply Nat.ltb_lt in HO.
  apply andb_true_iff in Hacc as [Hlen Hname].
  unfold put. rewrite (chain_cons h fn o Ho), Hp. cbn [set_along].
  unfold get_own at 1. rewrite Ho.
  destruct (lookup_prop k (props o)) as [p|] eqn:Hk.
  - destruct (writable p) eqn:Hw; [reflexivity|].
    destruct (Hro k p Hk Hw) as [-> | ->]; discriminate.
  - assert (Hi : intrinsic_setter R fn k = None).
    { unfold intrinsic_setter.
      replace (fn =? ObjectPrototype R) with false by (symmetry; apply Nat.eqb_neq; lia).
      replace (fn =? FunctionPrototype R) with false by (symmetry; apply Nat.eqb_neq; lia).
      reflexivity. }
    rewrite Hi.
    assert (Hlt : fn < length h) by (eapply lookup_lt_Some, Ho).
    rewrite (chain_ends_frame hb h He (length hb) (FunctionPrototype R) (length h - 1));
      [|apply wf_heap_chain_ends; assumption|lia].
    rewrite (set_along_frame R hb h k _ He)
      by (intros l'; apply proto_chain_allocated).
    fold (chain hb (FunctionPrototype R)).
    destruct (set_along R hb (chain hb (FunctionPrototype R)) k);
      [reflexivity|discriminate|discriminate].
Qed.

(** The chain of the new function, below the function itself, is that of
    [Function.prototype] in the store the clone was asked in. *)
Lemma set_along_new_function h k :
  extends hb h -> new_function_at R h fn ->
  ObjectPrototype R < length hb -> FunctionPrototype R < length hb ->
  get_own h fn k = None ->
  set_along R h (chain h fn) k = set_along R hb (chain hb (FunctionPrototype R)) k.
Proof.
  intros He (o & Ho & Hp & _) HO HF Hk.
  rewrite (chain_cons h fn o Ho), Hp. cbn [set_along]. rewrite Hk.
  assert (Hi : intrinsic_setter R fn k = None).
  { unfold intrinsic_setter.
    replace (fn =? ObjectPrototype R) with false by (symmetry; apply Nat.eqb_neq; lia).
    replace (fn =? FunctionPrototype R) with false by (symmetry; apply Nat.eqb_neq; lia).
    reflexivity. }
  rewrite Hi.
  assert (Hlt : fn < length h) by (eapply lookup_lt_Some, Ho).
  rewrite (chain_ends_frame hb h He (length hb) (FunctionPrototype R) (length h - 1));
    [|apply wf_heap_chain_ends; assumption|lia].
  apply (set_along_frame R hb h k _ He). intros l'. apply proto_chain_allocated.
Qed.
Lemma new_function_at_set_prop h k v :
  new_function_at R h fn -> new_function_at R (set_prop fn k v h) fn.
Proof.
  intros (o & Ho & Hp & Hro).
  exists (with_props o (assign k v (props o))). split; [|split; [exact Hp|]].
  - apply (set_prop_lookup fn k v h o (props o)). rewrite Ho. destruct o; reflexivity.
  - intros k' p'. cbn [props with_props].
    destruct (String.eqb_spec k k') as [<-|Hne].
    + rewrite lookup_assign_eq. intros [= <-]. cbn [writable].
      destruct (lookup_prop k (props o)) as [p|] eqn:Hk; [|discriminate].
      intros Hw. apply (Hro k p Hk Hw).
    + rewrite (lookup_assign_ne k k' v _ Hne). apply Hro.
Qed.

Variables (src : loc) (s : internal).
Hypothesis Hsrc : src < length hb.
Hypothesis Ht : own_test_of hb src = BuiltinTest.
Hypothesis Hs : slots_at hb src = Some s.
Hypothesis Ha : is_array_slots s = false.

Lemma builtin_test_call_frame fuel key h :
  extends hb h ->
  call_hasOwnProperty (S fuel) src key h = (h, Return (has_own hb src key)).
Proof.
  intros He. rewrite <- (has_own_frame hb h src key He Hsrc).
  eapply builtin_test_call; [| |exact Ha].
  - rewrite (own_test_of_frame hb h src Hwf He Hsrc); [exact Ht|congruence].
  - rewrite (slots_at_frame hb h src He Hsrc). exact Hs.
Qed.

(** With accepted names only, the loop of lines 182-186 is the loop of
    lines 193-197 with the identity in the place of the recursive call. *)
Lemma copy_function_properties_as_clone fuel keys :
  Forall (fun k => has_own hb src k = true -> accepted_by_new_function R hb k = true) keys ->
  forall h, extends hb h -> new_function_at R h fn ->
    copy_function_properties R (S fuel) src fn keys h
    = clone_own_properties ret (S fuel) src fn keys h.
Proof.
  induction keys as [|key keys IH]; intros Hacc h He Hnew; simpl; [reflexivity|].
  inversion Hacc as [|? ? Hkey Hkeys]; subst.
  rewrite !(bind_return _ _ _ _ _ (builtin_test_call_frame fuel key h He)).
  destruct (has_own hb src key) eqn:Hown.
  - rewrite !bind_assoc, !bind_read, !bind_assoc, bind_ret, bind_write.
    unfold bind at 1.
    rewrite (put_accepted h key _ He Hnew (Hkey eq_refl)).
    apply IH; [exact Hkeys| |apply new_function_at_set_prop, Hnew].
    apply extends_set_prop; assumption.
  - rewrite !bind_ret. apply IH; assumption.
Qed.

Lemma copy_function_properties_returns fuel keys :
  Forall (fun k => has_own hb src k = true -> accepted_by_new_function R hb k = true) keys ->
  forall h, extends hb h -> new_function_at R h fn ->
    exists h', copy_function_properties R (S fuel) src fn keys h = (h', Return tt).
Proof.
  induction keys as [|key keys IH]; intros Hacc h He Hnew; simpl.
  - eexists. reflexivity.
  - inversion Hacc as [|? ? Hkey Hkeys]; subst.
    rewrite (bind_return _ _ _ _ _ (builtin_test_call_frame fuel key h He)).
    destruct (has_own hb src key) eqn:Hown.
    + rewrite bind_assoc, bind_read. unfold bind at 1.
      rewrite (put_accepted h key _ He Hnew (Hkey eq_refl)).
      apply IH; [exact Hkeys| |apply new_function_at_set_prop, Hnew].
      apply extends_set_prop; assumption.
    + rewrite bind_ret. apply IH; assumption.
Qed.
End NewFunction.

(** ** Enough fuel gives a result *)

Lemma copy_entries_returns newMap entries h :
  exists h', copy_entries newMap entries h = (h', Return tt).
Proof.
  revert h. induction entries as [|[k v] es IH]; intros h; simpl.
  - eexists. reflexivity.
  - rewrite bind_write. apply IH.
Qed.

Lemma copy_members_returns newSet members h :
  exists h', copy_members newSet members h = (h', Return tt).
Proof.
  revert h. induction members as [|v ms IH]; intros h; simpl.
  - eexists. reflexivity.
  - rewrite bind_write. apply IH.
Qed.

Section Returns.
Variables (hb : heap) (clone : val -> M val) (good : val -> Prop).
Hypothesis Hwf : wf_heap hb = true.
Hypothesis Hmono : forall v, monotone (clone v).
Hypothesis Hret : forall v h, extends hb h -> good v ->
                              exists h' v', clone v h = (h', Return v').

Lemma clone_elements_returns src tmp elems :
  src < length hb -> array_elems hb src = elems -> length hb <= tmp ->
  Forall good elems ->
  forall bound i h, extends hb h -> i + bound = length elems ->
    exists h', clone_elements clone bound src tmp i h = (h', Return tt).
Proof.
  intros Hsrc Helems Htmp Hgood bound.
  induction bound as [|bound IH]; intros i h He Hi; simpl;
    unfold array_length; rewrite (array_elems_frame hb h src He Hsrc), Helems.
  - replace (i <? length elems) with false by (symmetry; apply Nat.ltb_ge; lia).
    eexists. reflexivity.
  - replace (i <? length elems) with true by (symmetry; apply Nat.ltb_lt; lia).
    assert (Hg : good (array_get h src i)).
    { unfold array_get. rewrite (array_elems_frame hb h src He Hsrc), Helems.
      destruct (elems !! i) as [e|] eqn:Hei.
      - rewrite Forall_forall in Hgood. apply Hgood.
        eapply list_elem_of_lookup_2, Hei.
      - apply lookup_ge_None in Hei. lia. }
    destruct (Hret _ h He Hg) as (h1 & v' & E).
    rewrite (bind_return _ _ _ _ _ E), bind_write.
    apply IH; [|lia].
    apply extends_array_push; [exact Htmp|].
    eapply extends_trans; [exact He|]. eapply Hmono, E.
Qed.

Lemma clone_own_properties_returns src newObject s fuel keys :
  src < length hb -> own_test_of hb src = BuiltinTest ->
  slots_at hb src = Some s -> is_array_slots s = false -> length hb <= newObject ->
  Forall (fun k => has_own hb src k = true -> good (get hb src k)) keys ->
  forall h, extends hb h ->
    exists h', clone_own_properties clone (S fuel) src newObject keys h = (h', Return tt).
Proof.
  intros Hsrc Ht Hs Ha Hn. induction keys as [|key keys IH]; intros Hgood h He; simpl.
  - eexists. reflexivity.
  - inversion Hgood as [|? ? Hkey Hkeys]; subst.
    erewrite bind_return; cycle 1.
    { eapply builtin_test_call; [| |exact Ha].
      - rewrite (own_test_of_frame hb h src Hwf He Hsrc); [exact Ht|congruence].
      - rewrite (slots_at_frame hb h src He Hsrc). exact Hs. }
    rewrite (has_own_frame hb h src key He Hsrc).
    destruct (has_own hb src key) eqn:Hown.
    + rewrite bind_assoc, bind_read, (get_frame hb h src Hwf He Hsrc).
      destruct (Hret _ h He (Hkey eq_refl)) as (h1 & v' & E).
      rewrite bind_assoc, (bind_return _ _ _ _ _ E), bind_write.
      apply IH; [exact Hkeys|].
      apply extends_set_prop; [exact Hn|].
      eapply extends_trans; [exact He|]. eapply Hmono, E.
    + rewrite bind_ret. apply IH; assumption.
Qed.

Lemma clone_visible_properties_returns src newObject keys :
  src < length hb -> length hb <= newObject ->
  Forall (fun k => good (get hb src k)) keys ->
  forall h, extends hb h ->
    exists h', clone_visible_properties clone src newObject keys h = (h', Return tt).
Proof.
  intros Hsrc Hn. induction keys as [|key keys IH]; intros Hgood h He; simpl.
  - eexists. reflexivity.
  - inversion Hgood as [|? ? Hkey Hkeys]; subst.
    rewrite bind_read, (get_frame hb h src Hwf He Hsrc).
    destruct (Hret _ h He Hkey) as (h1 & v' & E).
    rewrite (bind_return _ _ _ _ _ E), bind_write.
    apply IH; [exact Hkeys|].
    apply extends_set_prop; [exact Hn|].
    eapply extends_trans; [exact He|]. eapply Hmono, E.
Qed.
End Returns.

(** On a primitive [deepClone] returns at once, whatever the fuel. *)
Lemma deepClone_primitive R fuel v h :
  (forall l, v <> VRef l) ->
  deepClone R fuel v h = (h, Return (match v with VSymbol _ => VUndefined | _ => v end)).
Proof.
  intros Hv. destruct v as [| | [|] | n | s | id | l];
    try (destruct fuel; reflexivity).
  exfalso. eapply Hv. reflexivity.
Qed.

Lemma slots_at_allocated h l s : slots_at h l = Some s -> l < length h.
Proof.
  unfold slots_at. destruct (h !! l) eqn:Hl; [|discriminate].
  intros _. eapply lookup_lt_Some, Hl.
Qed.

Lemma is_array_slots_at h l s :
  slots_at h l = Some s -> is_array h (VRef l) = is_array_slots s.
Proof.
  unfold slots_at, is_array. destruct (h !! l); [|discriminate].
  intros [= <-]. reflexivity.
Qed.

Section ReturnsStep.
Variables (R : realm) (hb : heap) (n : nat).
Hypothesis Hwf : wf_heap hb = true.
Hypothesis IH : forall m, m < n -> forall v h, extends hb h ->
  clonable R m hb v = true -> exists h' v', deepClone R m v h = (h', Return v').

Lemma clone_array_returns m src h :
  m < n -> src < length hb -> extends hb h ->
  forallb (clonable R m hb) (array_elems hb src) = true ->
  exists h', clone_array R (deepClone R m) src h = (h', Return (VRef (length h))).
Proof.
  intros Hm Hsrc He Hall. unfold clone_array.
  rewrite bind_alloc, bind_read.
  assert (He1 : extends hb (h ++ [{| proto := Some (ArrayPrototype R);
                                     slots := ArrayExotic []; props := [] |}]))
    by (eapply extends_trans; [exact He|apply extends_app]).
  destruct (clone_elements_returns hb (deepClone R m)
              (fun v => clonable R m hb v = true) (deepClone_monotone R m)
              (IH m Hm) src (length h) (array_elems hb src) Hsrc eq_refl
              (extends_length _ _ He)
              ltac:(apply Forall_forall; intros x Hx;
                    rewrite forallb_forall in Hall; apply Hall;
                    apply list_elem_of_In, Hx)
              (array_length (h ++ [{| proto := Some (ArrayPrototype R);
                                      slots := ArrayExotic []; props := [] |}]) src)
              0 _ He1) as (h' & E).
  { unfold array_length. rewrite (array_elems_frame hb _ src He1 Hsrc). reflexivity. }
  rewrite (bind_return _ _ _ _ _ E). eexists. reflexivity.
Qed.

Lemma clone_map_returns src entries h :
  src < length hb -> extends hb h -> slots_at hb src = Some (MapData entries) ->
  exists h', clone_map R src h = (h', Return (VRef (length h))).
Proof.
  intros Hsrc He Hs. unfold clone_map. rewrite bind_alloc, bind_read.
  rewrite (slots_at_frame hb _ src
             ltac:(eapply extends_trans; [exact He|apply extends_app]) Hsrc), Hs.
  destruct (copy_entries_returns (length h) entries
              (h ++ [{| proto := MapPrototype R; slots := MapData []; props := [] |}]))
    as (h' & E).
  rewrite (bind_return _ _ _ _ _ E). eexists. reflexivity.
Qed.

Lemma clone_set_returns src members h :
  src < length hb -> extends hb h -> slots_at hb src = Some (SetData members) ->
  exists h', clone_set R src h = (h', Return (VRef (length h))).
Proof.
  intros Hsrc He Hs. unfold clone_set. rewrite bind_alloc, bind_read.
  rewrite (slots_at_frame hb _ src
             ltac:(eapply extends_trans; [exact He|apply extends_app]) Hsrc), Hs.
  destruct (copy_members_returns (length h) members
              (h ++ [{| proto := SetPrototype R; slots := SetData []; props := [] |}]))
    as (h' & E).
  rewrite (bind_return _ _ _ _ _ E). eexists. reflexivity.
Qed.

Lemma clone_function_returns fuel src s h :
  src < length hb -> extends hb h ->
  slots_at hb src = Some s -> is_array_slots s = false ->
  own_test_of hb src = BuiltinTest ->
  forallb (fun k => negb (has_own hb src k) || accepted_by_new_function R hb k)
          (for_in_keys hb src) = true ->
  exists h', clone_function R (S fuel) src h = (h', Return (VRef (length h))).
Proof.
  intros Hsrc He Hs Ha Ht Hacc. rewrite clone_function_start. cbv zeta.
  set (h1 := h ++ [forwarder_object R src (S (length h)); prototype_object R (length h)]).
  set (h2 := set_prop (length h) "prototype" (get h1 src "prototype") h1).
  assert (Hn : length hb <= length h) by (apply extends_length, He).
  assert (He2 : extends hb h2).
  { apply extends_set_prop; [exact Hn|].
    eapply extends_trans; [exact He|apply extends_app]. }
  rewrite (for_in_keys_frame hb h2 src Hwf He2 Hsrc).
  destruct (copy_function_properties_returns R hb (length h) Hwf Hn src s Hsrc Ht Hs Ha
              fuel (for_in_keys hb src)) with (h := h2) as (h' & E);
    [|exact He2|apply new_function_at_start|].
  { apply Forall_forall. intros k Hk Hown.
    rewrite forallb_forall in Hacc. apply list_elem_of_In, Hacc in Hk.
    rewrite Hown in Hk. exact Hk. }
  rewrite (bind_return _ _ _ _ _ E). eexists. reflexivity.
Qed.

Lemma clone_record_returns m src s h :
  m < n -> src < length hb -> extends hb h ->
  slots_at hb src = Some s -> is_array_slots s = false ->
  match own_test_of hb src with
  | BuiltinTest =>
    forallb (fun k => negb (has_own hb src k) || clonable R m hb (get hb src k))
            (for_in_keys hb src)
  | NotAFunction =>
    forallb (fun k => clonable R m hb (get hb src k)) (for_in_keys hb src)
  | _ => false
  end = true ->
  exists h', clone_record (deepClone R m) (S (S m)) src h = (h', Return (VRef (length h))).
Proof.
  intros Hm Hsrc He Hs Ha Hall. unfold clone_record.
  rewrite bind_alloc, bind_read, bind_read, bind_read.
  set (h1 := h ++ [{| proto := None; slots := Ordinary; props := [] |}]).
  assert (He1 : extends hb h1)
    by (eapply extends_trans; [exact He|apply extends_app]).
  assert (Hn : length hb <= length h) by (apply extends_length, He).
  rewrite (for_in_keys_frame hb h1 src Hwf He1 Hsrc).
  destruct (own_test_of hb src) eqn:Ht; try discriminate.
  - rewrite builtin_test_usable
      by (rewrite (own_test_of_frame hb h1 src Hwf He1 Hsrc); [exact Ht|congruence]).
    destruct (clone_own_properties_returns hb (deepClone R m)
                (fun v => clonable R m hb v = true) Hwf (deepClone_monotone R m)
                (IH m Hm) src (length h) s (S m) (for_in_keys hb src)
                Hsrc Ht Hs Ha Hn) with (h := h1) as (h' & E); [|exact He1|].
    { apply Forall_forall. intros k Hk Hown.
      rewrite forallb_forall in Hall. apply list_elem_of_In, Hall in Hk.
      rewrite Hown in Hk. exact Hk. }
    rewrite (bind_return _ _ _ _ _ E). eexists. reflexivity.
  - rewrite no_test_unusable
      by (rewrite (own_test_of_frame hb h1 src Hwf He1 Hsrc); [exact Ht|congruence]).
    destruct (clone_visible_properties_returns hb (deepClone R m)
                (fun v => clonable R m hb v = true) Hwf (deepClone_monotone R m)
                (IH m Hm) src (length h) (for_in_keys hb src)
                Hsrc Hn) with (h := h1) as (h' & E); [|exact He1|].
    { apply Forall_forall. intros k Hk.
      rewrite forallb_forall in Hall. apply Hall, list_elem_of_In, Hk. }
    rewrite (bind_return _ _ _ _ _ E). eexists. reflexivity.
Qed.
End ReturnsStep.

Lemma clonable_ref R n h l :
  clonable R n h (VRef l) =
  match slots_at h l with
  | None => false
  | Some s =>
    if is_array h (VRef l) then
      match n with
      | 0 => false
      | S n' => forallb (clonable R n' h) (array_elems h l)
      end
    else if instance_of_available h (VRef l) (MapPrototype R) then is_map_data s
    else if instance_of_available h (VRef l) (SetPrototype R) then is_set_data s
    else if instance_of h (VRef l) (FunctionPrototype R)
            || type_tag_eqb (typeof h (VRef l)) TFunction then
      is_builtin_test (own_test_of h l)
      && forallb (fun k => negb (has_own h l k) || accepted_by_new_function R h k)
                 (for_in_keys h l)
    else
      match n with
      | 0 => false
      | S n' =>
        match own_test_of h l with
        | BuiltinTest =>
          forallb (fun k => negb (has_own h l k) || clonable R n' h (get h l k))
                  (for_in_keys h l)
        | NotAFunction =>
          forallb (fun k => clonable R n' h (get h l k)) (for_in_keys h l)
        | _ => false
        end
      end
  end.
Proof. destruct n; reflexivity. Qed.

(** On a well-formed store, [deepClone] with fuel [n] returns on every value
    that is [clonable] at depth [n], from any store that extends the one
    the value lives in. *)
Lemma deepClone_returns R hb :
  wf_heap hb = true ->
  forall n v h, extends hb h -> clonable R n hb v = true ->
    exists h' v', deepClone R n v h = (h', Return v').
Proof.
  intros Hwf n. induction n as [n IH] using lt_wf_ind. intros v h He Hc.
  destruct v as [| | b | x | s | id | l];
    try (eexists; eexists; apply deepClone_primitive; discriminate).
  rewrite clonable_ref in Hc.
  destruct (slots_at hb l) as [s|] eqn:Hs; [|discriminate].
  pose proof (slots_at_allocated _ _ _ Hs) as Hl.
  rewrite deepClone_ref.
  rewrite (slots_at_frame hb h l He Hl), Hs.
  rewrite (is_array_frame hb h l He Hl).
  rewrite !(instance_of_available_frame hb h l Hwf He Hl).
  rewrite !(instance_of_frame hb h l Hwf He Hl).
  rewrite (typeof_frame hb h l He Hl).
  pose proof (is_array_slots_at _ _ _ Hs) as Ha.
  destruct (is_array hb (VRef l)) eqn:Harr.
  { destruct n as [|m]; [discriminate|].
    destruct (clone_array_returns R hb (S m) IH m l h) as (h' & E);
      [lia|exact Hl|exact He|exact Hc|]. eauto. }
  destruct (instance_of_available hb (VRef l) (MapPrototype R)).
  { destruct s; try discriminate.
    destruct (clone_map_returns R hb l entries h Hl He Hs) as (h' & E). eauto. }
  destruct (instance_of_available hb (VRef l) (SetPrototype R)).
  { destruct s; try discriminate.
    destruct (clone_set_returns R hb l members h Hl He Hs) as (h' & E). eauto. }
  destruct (instance_of hb (VRef l) (FunctionPrototype R)
            || type_tag_eqb (typeof hb (VRef l)) TFunction) eqn:Hfun.
  { apply andb_true_iff in Hc as [Hc Hacc].
    destruct (own_test_of hb l) eqn:Ht; try discriminate.
    destruct (clone_function_returns R hb Hwf n l s h Hl He Hs (eq_sym Ha) Ht Hacc)
      as (h' & E). eauto. }
  destruct n as [|m]; [discriminate|].
  replace (instance_of hb (VRef l) (ObjectPrototype R)
           || type_tag_eqb (typeof hb (VRef l)) TObject) with true.
  - destruct (clone_record_returns R hb (S m) Hwf IH m l s h) as (h' & E);
      [lia|exact Hl|exact He|exact Hs|symmetry; exact Ha|exact Hc|]. eauto.
  - (* a callable object was taken by the function branch *)
    symmetry. simpl in *. destruct (is_callable hb l); simpl in *.
    + rewrite orb_true_r in Hfun. discriminate.
    + apply orb_true_r.
Qed.

(** ** What the array branch builds *)

Lemma except_refl skip h : except skip h h.
Proof. intros l o _ Hl. exact Hl. Qed.

Lemma except_trans skip h1 h2 h3 : except skip h1 h2 -> except skip h2 h3 -> except skip h1 h3.
Proof. intros H12 H23 l o Hn Hl. apply H23, H12; assumption. Qed.

Lemma extends_except skip h h' : extends h h' -> except skip h h'.
Proof. intros He l o _ Hl. apply He, Hl. Qed.

Lemma except_insert skip h o : except skip h (<[skip := o]> h).
Proof. intros l o' Hn Hl. rewrite list_lookup_insert_ne by congruence. exact Hl. Qed.

Lemma except_array_push skip v h : except skip h (array_push skip v h).
Proof.
  unfold array_push. destruct (h !! skip) as [o|]; [|apply except_refl].
  destruct (slots o); try apply except_refl. apply except_insert.
Qed.

Lemma except_set_prop skip k v h : except skip h (set_prop skip k v h).
Proof.
  unfold set_prop. destruct (h !! skip) as [o|]; [|apply except_refl].
  apply except_insert.
Qed.

Lemma cloned_within_later clone h h1 h2 skip v v' :
  except skip h1 h2 -> cloned_within clone h h1 skip v v' -> cloned_within clone h h2 skip v v'.
Proof.
  intros H12 (ha & hb & He & Hs & E & Hx). exists ha, hb. split; [exact He|].
  split; [exact Hs|]. split; [exact E|]. eapply except_trans; eassumption.
Qed.

Lemma array_push_lookup tmp v h o acc :
  h !! tmp = Some (with_slots o (ArrayExotic acc)) ->
  array_push tmp v h !! tmp = Some (with_slots o (ArrayExotic (acc ++ [v]))).
Proof.
  intros Ht. unfold array_push. rewrite Ht. simpl.
  rewrite list_lookup_insert_eq by (eapply lookup_lt_Some, Ht). reflexivity.
Qed.

Section ArraySpec.
Variables (hb : heap) (clone : val -> M val).
Hypothesis Hmono : forall v, monotone (clone v).
Variables (src tmp : loc) (elems : list val) (otmp : object).
Hypothesis Hsrc : src < length hb.
Hypothesis Helems : array_elems hb src = elems.
Hypothesis Htmp : length hb <= tmp.

(** The loop appends to [tmp] one clone for each element of the source
    from [i] on, in order. *)
Lemma clone_elements_spec :
  forall bound i h acc h',
    extends hb h ->
    h !! tmp = Some (with_slots otmp (ArrayExotic acc)) ->
    clone_elements clone bound src tmp i h = (h', Return tt) ->
    exists news,
      h' !! tmp = Some (with_slots otmp (ArrayExotic (acc ++ news)))
      /\ Forall2 (cloned_within clone hb h' tmp) (drop i elems) news
      /\ except tmp h h'.
Proof.
  induction bound as [|bound IH]; intros i h acc h' He Ht E; simpl in E;
    unfold array_length in E; rewrite (array_elems_frame hb h src He Hsrc), Helems in E;
    destruct (i <? length elems) eqn:Hi; try discriminate.
  - inversion E; subst. exists []. rewrite app_nil_r.
    apply Nat.ltb_ge in Hi. rewrite drop_ge by lia.
    split; [exact Ht|]. split; [constructor|apply except_refl].
  - apply Nat.ltb_lt in Hi.
    destruct (lookup_lt_is_Some_2 elems i Hi) as [e Hei].
    assert (Hget : array_get h src i = e).
    { unfold array_get. rewrite (array_elems_frame hb h src He Hsrc), Helems, Hei.
      reflexivity. }
    rewrite Hget in E. apply bind_inv_return in E as (h1 & a & E0 & E).
    rewrite bind_write in E.
    pose proof (Hmono _ _ _ _ E0) as He1.
    pose proof (array_push_lookup tmp a h1 otmp acc (He1 _ _ Ht)) as Ht1.
    destruct (IH (S i) _ _ _
                ltac:(apply extends_array_push;
                      [exact Htmp|eapply extends_trans; eassumption]) Ht1 E)
      as (news & Hn & Hall & Hx).
    exists (a :: news). rewrite <- app_assoc in Hn. split; [exact Hn|].
    assert (Hx1 : except tmp h1 h').
    { eapply except_trans; [apply except_array_push|exact Hx]. }
    split.
    + rewrite (drop_S _ _ _ Hei). constructor; [|exact Hall].
      exists h, h1. split; [exact He|]. split; [eapply lookup_lt_Some, Ht|]. auto.
    + eapply except_trans; [apply extends_except, He1|exact Hx1].
  - inversion E; subst. exists []. rewrite app_nil_r.
    apply Nat.ltb_ge in Hi. rewrite drop_ge by lia.
    split; [exact Ht|]. split; [constructor|apply except_refl].
Qed.
End ArraySpec.

(** The array branch: a fresh array whose elements are, in order, the
    clones of the elements of the source. *)
Lemma clone_array_spec R clone src elems h h' v' :
  (forall v, monotone (clone v)) ->
  src < length h -> array_elems h src = elems ->
  clone_array R clone src h = (h', Return v') ->
  exists elems',
    v' = VRef (length h)
    /\ h' !! length h = Some {| proto := Some (ArrayPrototype R);
                                slots := ArrayExotic elems';
                                props := [] |}
    /\ Forall2 (cloned_within clone h h' (length h)) elems elems'.
Proof.
  intros Hmono Hsrc Helems E. unfold clone_array in E.
  rewrite bind_alloc, bind_read in E.
  apply bind_inv_return in E as (h1 & [] & E0 & E). inversion E; subst. clear E.
  set (o0 := {| proto := Some (ArrayPrototype R); slots := ArrayExotic []; props := [] |})
    in *.
  assert (Ht : (h ++ [o0]) !! length h = Some (with_slots o0 (ArrayExotic []))).
  { rewrite lookup_app_r by lia. rewrite Nat.sub_diag. reflexivity. }
  destruct (clone_elements_spec h clone Hmono src (length h) (array_elems h src) o0
              Hsrc eq_refl (le_n _) _ 0 _ [] _ (extends_app h _) Ht E0)
    as (news & Hn & Hall & _).
  exists news. split; [reflexivity|]. split; [exact Hn|]. exact Hall.
Qed.

(** ** What for-in visits *)

Lemma enumerate_along_unseen h ls : forall seen k,
  In k (enumerate_along h ls seen) -> ~ In k seen.
Proof.
  induction ls as [|l ls IH]; intros seen k Hin; simpl in Hin; [contradiction|].
  destruct (h !! l) as [o|]; [|contradiction].
  apply in_app_or in Hin as [Hin|Hin].
  - apply in_map_iff in Hin as ([k' p] & <- & Hf).
    apply List.filter_In in Hf as [_ Hf]. apply andb_true_iff in Hf as [_ Hf].
    apply negb_true_iff in Hf. intros Hs. apply mem_string_In in Hs. simpl in *. congruence.
  - apply IH in Hin. intros Hs. apply Hin, in_or_app. left. exact Hs.
Qed.

(** Of the keys a for-in loop on [src] visits, the built-in test keeps
    exactly the own enumerable ones. *)
Lemma filter_own_for_in h src o :
  h !! src = Some o ->
  List.filter (has_own h src) (for_in_keys h src) = own_enumerable_keys o.
Proof.
  intros Hsrc. unfold for_in_keys, chain, own_enumerable_keys.
  assert (Hlen : 0 < length h) by (apply lookup_lt_Some in Hsrc; lia).
  destruct (length h) as [|n]; [lia|]. simpl. rewrite Hsrc. simpl. rewrite Hsrc.
  rewrite List.filter_app.
  assert (Hown : forall k, has_own h src k = true <-> In k (map fst (props o))).
  { intros k. unfold has_own, get_own. rewrite Hsrc. rewrite <- lookup_prop_In.
    destruct (lookup_prop k (props o)); split; congruence. }
  match goal with
  | |- _ ++ List.filter _ ?rest = _ =>
    assert (Hrest : List.filter (has_own h src) rest = [])
  end.
  { match goal with |- List.filter _ ?rest = _ => remember rest as ks eqn:Hks end.
    assert (Hno : forall k, In k ks -> has_own h src k = false).
    { intros k Hk. subst ks. apply enumerate_along_unseen in Hk.
      destruct (has_own h src k) eqn:Hh; [|reflexivity].
      exfalso. apply Hk, Hown, Hh. }
    clear Hks. induction ks as [|k ks IH]; [reflexivity|]. simpl.
    rewrite (Hno k) by (left; reflexivity). apply IH.
    intros k' Hk'. apply Hno. right. exact Hk'. }
  rewrite Hrest, app_nil_r.
  remember (props o) as ps eqn:Hps.
  assert (Hsub : forall kp, In kp ps -> has_own h src (fst kp) = true).
  { intros kp Hkp. apply Hown. apply in_map. exact Hkp. }
  clear Hps Hown Hrest. induction ps as [|[k p] ps IH]; [reflexivity|].
  simpl. rewrite andb_true_r.
  destruct (enumerable p); simpl.
  - pose proof (Hsub (k, p) (or_introl eq_refl)) as Hk. simpl in Hk.
    rewrite Hk. f_equal.
    apply IH. intros kp Hkp. apply Hsub. right. exact Hkp.
  - apply IH. intros kp Hkp. apply Hsub. right. exact Hkp.
Qed.

(** ** What the object branch builds *)

Lemma bind_ext {A B} (m : M A) (k1 k2 : A -> M B) h :
  (forall h1 a, m h = (h1, Return a) -> k1 a h1 = k2 a h1) ->
  bind m k1 h = bind m k2 h.
Proof.
  intros Hk. unfold bind. destruct (m h) as [h1 [a| | |]]; try reflexivity.
  apply Hk. reflexivity.
Qed.

Section RecordSpec.
Variables (hb : heap) (clone : val -> M val).
Hypothesis Hwf : wf_heap hb = true.
Hypothesis Hmono : forall v, monotone (clone v).
Variables (src newObject : loc) (onew : object).
Hypothesis Hsrc : src < length hb.
Hypothesis Hnew : length hb <= newObject.

(** The loop of lines 199-201 assigns to [newObject], for each key in
    turn, a clone of what the source holds under that key. *)
Lemma clone_visible_properties_spec :
  forall keys h ps h',
    extends hb h ->
    h !! newObject = Some (with_props onew ps) ->
    clone_visible_properties clone src newObject keys h = (h', Return tt) ->
    exists ps',
      h' !! newObject = Some (with_props onew ps')
      /\ except newObject h h'
      /\ (forall k, lookup_prop k ps' <> None <-> lookup_prop k ps <> None \/ In k keys)
      /\ (forall k, ~ In k keys -> lookup_prop k ps' = lookup_prop k ps)
      /\ (forall k p', lookup_prop k ps' = Some p' ->
            enumerable p' = match lookup_prop k ps with
                            | Some p => enumerable p
                            | None => true
                            end)
      /\ (forall k p', In k keys -> lookup_prop k ps' = Some p' ->
            cloned_within clone hb h' newObject (get hb src k) (value p')).
Proof.
  induction keys as [|key keys IH]; intros h ps h' He Hn E; simpl in E.
  - inversion E; subst. exists ps. split; [exact Hn|]. split; [apply except_refl|].
    split; [intros k; simpl; tauto|]. split; [reflexivity|].
    split; [intros k p' ->; reflexivity|]. intros k p' [].
  - rewrite bind_read, (get_frame hb h src Hwf He Hsrc) in E.
    apply bind_inv_return in E as (h1 & v' & E0 & E). rewrite bind_write in E.
    pose proof (Hmono _ _ _ _ E0) as He1.
    pose proof (set_prop_lookup newObject key v' h1 onew ps (He1 _ _ Hn)) as Hn1.
    destruct (IH _ _ _
                ltac:(apply extends_set_prop;
                      [exact Hnew|eapply extends_trans; eassumption]) Hn1 E)
      as (ps' & Hn' & Hx & Hdom & Hout & Hflag & Hval).
    assert (Hx1 : except newObject h1 h')
      by (eapply except_trans; [apply except_set_prop|exact Hx]).
    exists ps'. split; [exact Hn'|].
    split; [eapply except_trans; [apply extends_except, He1|exact Hx1]|].
    split; [|split; [|split]].
    + intros k. rewrite Hdom. simpl.
      destruct (String.eqb_spec key k) as [->|Hne].
      * rewrite lookup_assign_eq. split; [auto|]. intros _. left. discriminate.
      * rewrite (lookup_assign_ne key k v' ps Hne). tauto.
    + intros k Hk. simpl in Hk. rewrite Hout by tauto.
      apply lookup_assign_ne. tauto.
    + intros k p' Hp. rewrite (Hflag k p' Hp).
      destruct (String.eqb_spec key k) as [->|Hne].
      * rewrite lookup_assign_eq. reflexivity.
      * rewrite (lookup_assign_ne key k v' ps Hne). reflexivity.
    + intros k p' Hk Hp.
      destruct (in_dec string_dec k keys) as [Hin|Hnin]; [eapply Hval; eassumption|].
      destruct Hk as [<-|Hk]; [|contradiction].
      rewrite (Hout key Hnin), lookup_assign_eq in Hp. inversion Hp; subst. simpl.
      exists h, h1. split; [exact He|]. split; [eapply lookup_lt_Some, Hn|]. auto.
Qed.

(** With a usable own-property test, the loop of lines 193-197 is the loop
    of lines 199-201 run on the own keys. *)
Lemma clone_own_properties_as_visible fuel :
  acts_as_own_test fuel hb src ->
  forall keys h, extends hb h ->
    clone_own_properties clone fuel src newObject keys h
    = clone_visible_properties clone src newObject
        (List.filter (has_own hb src) keys) h.
Proof.
  intros Hacts. induction keys as [|key keys IH]; intros h He; simpl; [reflexivity|].
  rewrite (bind_return _ _ _ _ _ (acts_call hb h src fuel key Hwf He Hsrc Hacts)).
  destruct (has_own hb src key); simpl.
  - rewrite bind_assoc, !bind_read, bind_assoc. apply bind_ext.
    intros h1 v' E. rewrite !bind_write. apply IH.
    apply extends_set_prop; [exact Hnew|].
    eapply extends_trans; [exact He|]. eapply Hmono, E.
  - rewrite bind_ret. apply IH, He.
Qed.
End RecordSpec.

Lemma map_fst_assign k v ps :
  map fst (assign k v ps)
  = if mem_string k (map fst ps) then map fst ps else map fst ps ++ [k].
Proof.
  induction ps as [|[k' p] ps IH]; simpl; [reflexivity|].
  unfold mem_string in *. simpl.
  destruct (String.eqb k k') eqn:Hk; simpl; [reflexivity|].
  rewrite IH. destruct (existsb (String.eqb k) (map fst ps)); reflexivity.
Qed.

Lemma NoDup_assign k v ps : NoDup (map fst ps) -> NoDup (map fst (assign k v ps)).
Proof.
  intros Hnd. rewrite map_fst_assign.
  destruct (mem_string k (map fst ps)) eqn:Hm; [exact Hnd|].
  apply NoDup_app. split; [exact Hnd|]. split; [|apply NoDup_singleton].
  intros x Hx Hk. apply list_elem_of_singleton in Hk. subst x.
  apply list_elem_of_In, mem_string_In in Hx. congruence.
Qed.

(** The loop of lines 199-201 never gives [newObject] a key twice. *)
Lemma clone_visible_properties_nodup clone src newObject onew :
  (forall v, monotone (clone v)) ->
  forall keys h ps h' ps',
    h !! newObject = Some (with_props onew ps) -> NoDup (map fst ps) ->
    clone_visible_properties clone src newObject keys h = (h', Return tt) ->
    h' !! newObject = Some (with_props onew ps') -> NoDup (map fst ps').
Proof.
  intros Hmono. induction keys as [|key keys IH]; intros h ps h' ps' Hn Hnd E Hn';
    simpl in E.
  - inversion E; subst. rewrite Hn in Hn'. inversion Hn'; subst. exact Hnd.
  - rewrite bind_read in E. apply bind_inv_return in E as (h1 & v' & E0 & E).
    rewrite bind_write in E.
    eapply IH; [| |exact E|exact Hn'].
    + eapply set_prop_lookup. eapply Hmono; eassumption.
    + apply NoDup_assign, Hnd.
Qed.

(** The object branch, run on a store [h] that extends a well-formed store
    [hb] holding the source: a fresh object without prototype whose
    properties are, under the keys [visited], clones of what the source
    holds under them; [visited] are the own enumerable keys when
    [hasOwnProperty] is usable as an own-property test, and every key
    for-in visits when it is not a function. *)
Lemma clone_record_spec clone fuel hb src o visited h h' v' :
  (forall v, monotone (clone v)) ->
  wf_heap hb = true -> extends hb h -> hb !! src = Some o ->
  (acts_as_own_test fuel hb src /\ visited = own_enumerable_keys o)
  \/ (own_test_of hb src = NotAFunction /\ visited = for_in_keys hb src) ->
  clone_record clone fuel src h = (h', Return v') ->
  exists ps',
    v' = VRef (length h)
    /\ h' !! length h = Some {| proto := None; slots := Ordinary; props := ps' |}
    /\ NoDup (map fst ps')
    /\ (forall k, lookup_prop k ps' <> None <-> In k visited)
    /\ (forall k p', lookup_prop k ps' = Some p' ->
          enumerable p' = true
          /\ cloned_within clone hb h' (length h) (get hb src k) (value p')).
Proof.
  intros Hmono Hwf He Hsrc Ht E. unfold clone_record in E.
  rewrite bind_alloc, bind_read, bind_read, bind_read in E.
  set (onew := {| proto := None; slots := Ordinary; props := [] |}) in *.
  set (h1 := h ++ [onew]) in *.
  assert (He1 : extends hb h1) by (eapply extends_trans; [exact He|apply extends_app]).
  assert (Hl : src < length hb) by (eapply lookup_lt_Some, Hsrc).
  assert (Hlen : length hb <= length h) by (apply extends_length, He).
  assert (Hn : h1 !! length h = Some (with_props onew []))
    by (unfold h1; rewrite lookup_app_r by lia; rewrite Nat.sub_diag; reflexivity).
  rewrite (for_in_keys_frame hb h1 src Hwf He1 Hl) in E.
  apply bind_inv_return in E as (h2 & [] & E0 & E). inversion E; subst; clear E.
  assert (Hspec : exists keys,
    clone_visible_properties clone src (length h) keys h1 = (h', Return tt)
    /\ forall k, In k keys <-> In k visited).
  { destruct Ht as [[Hacts ->]|[Ht ->]].
    - rewrite (acts_usable hb h1 src fuel Hwf He1 Hl Hacts) in E0.
      rewrite (clone_own_properties_as_visible hb clone Hwf Hmono src (length h) Hl
                 Hlen fuel Hacts _ h1 He1) in E0.
      eexists. split; [exact E0|]. intros k.
      rewrite (filter_own_for_in hb src o Hsrc). tauto.
    - rewrite no_test_unusable in E0
        by (rewrite (own_test_of_frame hb h1 src Hwf He1 Hl); [exact Ht|congruence]).
      eexists. split; [exact E0|]. intros k. tauto. }
  destruct Hspec as (keys & E & Hkeys).
  destruct (clone_visible_properties_spec hb clone Hwf Hmono src (length h) onew Hl
              Hlen keys h1 [] h' He1 Hn E)
    as (ps' & Hn' & _ & Hdom & _ & Hflag & Hval).
  exists ps'. split; [reflexivity|]. split; [exact Hn'|]. split; [|split].
  - eapply (clone_visible_properties_nodup clone src (length h) onew Hmono keys h1 []);
      [exact Hn|constructor|exact E|exact Hn'].
  - intros k. rewrite Hdom, <- Hkeys. simpl. tauto.
  - intros k p' Hp. split; [rewrite (Hflag k p' Hp); reflexivity|].
    apply (Hval k p'); [|exact Hp].
    assert (Hk : lookup_prop k ps' <> None) by congruence.
    apply Hdom in Hk as [Hk|Hk]; [simpl in Hk; congruence|exact Hk].
Qed.

(** ** Primitives (claim C6) *)

(** C6. For every boolean, number, string, [undefined] or [null] value [v],
    [deepClone(v)] returns [v] itself and leaves the store as it was; the
    returned value is [===] to [v] (for [NaN], which is [===] to nothing, it
    is the same [NaN]). *)
Theorem deepClone_primitive_identity R fuel h v :
  is_primitive v = true ->
  deepClone R fuel v h = (h, Return v)
  /\ (is_NaN v = false -> forall v', snd (deepClone R fuel v h) = Return v' ->
      strict_equals v' v = true).
Proof.
  intros Hp.
  assert (E : deepClone R fuel v h = (h, Return v)).
  { rewrite deepClone_primitive by (intros l ->; discriminate).
    destruct v; try discriminate; reflexivity. }
  split; [exact E|]. intros Hnan v' Hv'. rewrite E in Hv'. inversion Hv'; subst v'.
  destruct v as [| | b | n | s | id | l]; try discriminate; simpl.
  - reflexivity.
  - reflexivity.
  - destruct b; reflexivity.
  - simpl in Hnan. unfold PrimFloat.is_nan in Hnan.
    apply negb_false_iff in Hnan. exact Hnan.
  - apply String.eqb_refl.
Qed.

Lemma deepClone_primitive_identity_witness :
  is_primitive (VNum 42) = true
  /\ deepClone host 0 (VNum 42) host_objects = (host_objects, Return (VNum 42))
  /\ strict_equals (VNum 42) (VNum 42) = true.
Proof.
  split; [reflexivity|].
  destruct (deepClone_primitive_identity host 0 host_objects (VNum 42) eq_refl) as [E Hs].
  split; [exact E|].
  apply Hs; [reflexivity|]. rewrite E. reflexivity.
Defined.

(** ** No write to the source (claim C8) *)

(** C8. Whatever [v] and however the call ends, every object that was in the
    store before [deepClone(v)] is in it afterwards, unchanged: elements,
    entries, members, own properties and prototype alike.  All the call adds
    to the store are new objects. *)
Theorem deepClone_never_mutates R fuel v h l o :
  h !! l = Some o ->
  fst (deepClone R fuel v h) !! l = Some o
  /\ length h <= length (fst (deepClone R fuel v h)).
Proof.
  intros Hl. destruct (deepClone R fuel v h) as [h' c] eqn:E. simpl.
  pose proof (deepClone_monotone R fuel v h h' c E) as He.
  split; [apply He, Hl|apply extends_length, He].
Qed.

Lemma deepClone_never_mutates_witness :
  nested_array_heap !! 11 = Some (array_object [VNum 1; VRef 10; VStr "s"])
  /\ fst (deepClone host 2 (VRef 11) nested_array_heap) !! 11
     = Some (array_object [VNum 1; VRef 10; VStr "s"])
  /\ length nested_array_heap <= length (fst (deepClone host 2 (VRef 11) nested_array_heap)).
Proof.
  split; [reflexivity|].
  apply (deepClone_never_mutates host 2 (VRef 11) nested_array_heap 11). reflexivity.
Defined.

(** ** The result on a reference is a new reference *)

Lemma clone_array_result R clone src h h' v' :
  clone_array R clone src h = (h', Return v') -> v' = VRef (length h).
Proof.
  unfold clone_array. rewrite bind_alloc, bind_read. intros E.
  apply bind_inv_return in E as (h1 & [] & _ & E). inversion E. reflexivity.
Qed.

Lemma clone_map_result R src h h' v' :
  clone_map R src h = (h', Return v') -> v' = VRef (length h).
Proof.
  unfold clone_map. rewrite bind_alloc, bind_read. intros E.
  apply bind_inv_return in E as (h1 & [] & _ & E). inversion E. reflexivity.
Qed.

Lemma clone_set_result R src h h' v' :
  clone_set R src h = (h', Return v') -> v' = VRef (length h).
Proof.
  unfold clone_set. rewrite bind_alloc, bind_read. intros E.
  apply bind_inv_return in E as (h1 & [] & _ & E). inversion E. reflexivity.
Qed.

Lemma clone_function_result R fuel src h h' v' :
  clone_function R fuel src h = (h', Return v') -> v' = VRef (length h).
Proof.
  rewrite clone_function_start. cbv zeta. intros E.
  apply bind_inv_return in E as (h2 & [] & _ & E). inversion E. reflexivity.
Qed.

Lemma clone_record_result clone fuel src h h' v' :
  clone_record clone fuel src h = (h', Return v') -> v' = VRef (length h).
Proof.
  unfold clone_record. rewrite bind_alloc, !bind_read. intros E.
  apply bind_inv_return in E as (h1 & [] & _ & E). inversion E. reflexivity.
Qed.

(** Whatever object a reference leads to, its clone is a reference to an
    object that was not in the store. *)
Lemma deepClone_ref_result R fuel l h h' v' :
  deepClone R fuel (VRef l) h = (h', Return v') -> v' = VRef (length h).
Proof.
  rewrite deepClone_ref. destruct (slots_at h l); [|discriminate].
  repeat match goal with
         | |- (if ?b then _ else _) = _ -> _ => destruct b eqn:?
         end;
    try (destruct fuel; [discriminate|]);
    eauto using clone_array_result, clone_map_result, clone_set_result,
                clone_function_result, clone_record_result.
  all: intros _; exfalso; simpl in *;
    destruct (is_callable h l); simpl in *;
    repeat match goal with
           | H : _ || true = false |- _ => rewrite orb_true_r in H
           end; discriminate.
Qed.

(** ** Arrays (claim C5) *)

(** C5. For every array [a], a call [deepClone(a)] that returns gives a new
    array (a reference to an object that was not in the store) of the same
    length whose i-th element is what the recursive call returned on the
    i-th element of [a], in the same order; an element that is a reference
    is cloned to a reference to a new object.  The call does return when
    [a] is clonable at the depth of the fuel. *)
Theorem deepClone_array R h a o elems :
  h !! a = Some o -> slots o = ArrayExotic elems ->
  (forall fuel h' v', deepClone R fuel (VRef a) h = (h', Return v') ->
     exists elems',
       v' = VRef (length h)
       /\ h !! length h = None
       /\ h' !! length h = Some {| proto := Some (ArrayPrototype R);
                                   slots := ArrayExotic elems';
                                   props := [] |}
       /\ length elems' = length elems
       /\ (forall i e, elems !! i = Some e ->
             exists e', elems' !! i = Some e'
                        /\ cloned_within (deepClone R (pred fuel)) h h' (length h) e e')
       /\ (forall i l e', elems !! i = Some (VRef l) -> elems' !! i = Some e' ->
             exists l', e' = VRef l' /\ length h <= l'))
  /\ (forall n, wf_heap h = true -> clonable R n h (VRef a) = true ->
        exists h' v', deepClone R n (VRef a) h = (h', Return v')).
Proof.
  intros Ha Hs. split.
  - intros fuel h' v' E. rewrite deepClone_ref in E.
    assert (Hsl : slots_at h a = Some (ArrayExotic elems))
      by (unfold slots_at; rewrite Ha, Hs; reflexivity).
    assert (Harr : is_array h (VRef a) = true)
      by (rewrite (is_array_slots_at _ _ _ Hsl); reflexivity).
    rewrite Hsl, Harr in E. destruct fuel as [|fuel]; [discriminate|].
    assert (Hl : a < length h) by (eapply lookup_lt_Some, Ha).
    assert (Hel : array_elems h a = elems)
      by (unfold array_elems; rewrite Ha, Hs; reflexivity).
    destruct (clone_array_spec R (deepClone R fuel) a elems h h' v'
                (deepClone_monotone R fuel) Hl Hel E) as (elems' & -> & Hn & Hall).
    exists elems'. split; [reflexivity|].
    split; [apply lookup_ge_None; lia|]. split; [exact Hn|].
    split; [symmetry; eapply Forall2_length, Hall|]. split.
    + intros i e Hi. eapply Forall2_lookup_l in Hall as (e' & He' & Hc); [|exact Hi].
      exists e'. split; [exact He'|exact Hc].
    + intros i l e' Hi He'.
      eapply Forall2_lookup_l in Hall as (e'' & He'' & (h1 & h2 & He1 & _ & Ec & _));
        [|exact Hi].
      rewrite He' in He''. inversion He''; subst e''.
      apply deepClone_ref_result in Ec. exists (length h1).
      split; [exact Ec|apply extends_length, He1].
  - intros n Hwf Hc. apply (deepClone_returns R h Hwf n (VRef a) h (extends_refl h) Hc).
Qed.

(** The scenario of the specification: [deepClone([1, [2, 3], "s"])]. *)
Lemma deepClone_array_witness :
  nested_array_heap !! 11 = Some (array_object [VNum 1; VRef 10; VStr "s"])
  /\ exists h',
       deepClone host 2 (VRef 11) nested_array_heap = (h', Return (VRef 12))
       /\ h' !! 12 = Some (array_object [VNum 1; VRef 13; VStr "s"])
       /\ h' !! 13 = Some (array_object [VNum 2; VNum 3])
       /\ h' !! 10 = Some (array_object [VNum 2; VNum 3]).
Proof.
  split; [reflexivity|].
  destruct (deepClone_array host nested_array_heap 11 _ _ eq_refl eq_refl) as [_ Hret].
  destruct (Hret 2 eq_refl eq_refl) as (h' & v' & E).
  exists h'. vm_compute in E. inversion E; subst. repeat split.
Defined.

(** Whatever [hasOwnProperty] is, the loops of the object branch leave
    [newObject] an object of the same prototype and slots. *)
Lemma clone_own_properties_shape clone fuel src newObject onew :
  (forall v, monotone (clone v)) ->
  forall keys h ps h',
    h !! newObject = Some (with_props onew ps) ->
    clone_own_properties clone fuel src newObject keys h = (h', Return tt) ->
    exists ps', h' !! newObject = Some (with_props onew ps').
Proof.
  intros Hmono. induction keys as [|key keys IH]; intros h ps h' Hn E; simpl in E.
  - inversion E; subst. eauto.
  - apply bind_inv_return in E as (h1 & own & E0 & E).
    unfold call_hasOwnProperty in E0.
    destruct (call _ _ _ _ _); inversion E0; subst; clear E0.
    apply bind_inv_return in E as (h2 & [] & E0 & E).
    destruct (to_boolean a).
    + rewrite bind_read in E0. apply bind_inv_return in E0 as (h3 & v' & E1 & E0).
      inversion E0; subst; clear E0.
      eapply IH; [|exact E]. eapply set_prop_lookup. eapply Hmono; eassumption.
    + inversion E0; subst. eapply IH; eassumption.
Qed.

Lemma clone_visible_properties_shape clone src newObject onew :
  (forall v, monotone (clone v)) ->
  forall keys h ps h',
    h !! newObject = Some (with_props onew ps) ->
    clone_visible_properties clone src newObject keys h = (h', Return tt) ->
    exists ps', h' !! newObject = Some (with_props onew ps').
Proof.
  intros Hmono. induction keys as [|key keys IH]; intros h ps h' Hn E; simpl in E.
  - inversion E; subst. eauto.
  - rewrite bind_read in E. apply bind_inv_return in E as (h1 & v' & E0 & E).
    rewrite bind_write in E.
    eapply IH; [|exact E]. eapply set_prop_lookup. eapply Hmono; eassumption.
Qed.

(** The object branch returns a bare record. *)
Lemma clone_record_bare clone fuel src h h' v' :
  (forall v, monotone (clone v)) ->
  clone_record clone fuel src h = (h', Return v') ->
  exists ps', h' !! length h = Some {| proto := None; slots := Ordinary; props := ps' |}.
Proof.
  intros Hmono E. unfold clone_record in E.
  rewrite bind_alloc, !bind_read in E.
  apply bind_inv_return in E as (h1 & [] & E0 & E). inversion E; subst; clear E.
  set (onew := {| proto := None; slots := Ordinary; props := [] |}) in *.
  assert (Hn : (h ++ [onew]) !! length h = Some (with_props onew []))
    by (rewrite lookup_app_r by lia; rewrite Nat.sub_diag; reflexivity).
  match type of E0 with
  | (if ?b then _ else _) _ = _ => destruct b
  end.
  - eapply clone_own_properties_shape in E0 as [ps' Hp]; eauto.
    exists ps'. exact Hp.
  - eapply clone_visible_properties_shape in E0 as [ps' Hp]; eauto.
    exists ps'. exact Hp.
Qed.

(** ** Plain records (claim C4) *)

Lemma classify_record R h r o :
  h !! r = Some o -> classify R h (VRef r) = PlainRecord ->
  is_array_slots (slots o) = false
  /\ forall fuel,
       deepClone R fuel (VRef r) h
       = match fuel with
         | 0 => (h, OutOfFuel)
         | S fuel' => clone_record (deepClone R fuel') (S fuel) r h
         end.
Proof.
  intros Hr Hc. unfold classify in Hc. cbn [strict_equals orb] in Hc.
  assert (Hs : slots_at h r = Some (slots o)) by (unfold slots_at; rewrite Hr; reflexivity).
  assert (Ht : type_tag_eqb (typeof h (VRef r)) TString = false
               /\ type_tag_eqb (typeof h (VRef r)) TNumber = false)
    by (simpl; destruct (is_callable h r); split; reflexivity).
  destruct Ht as [Ht1 Ht2]. rewrite Ht1, Ht2 in Hc.
  rewrite (is_array_slots_at _ _ _ Hs) in Hc.
  destruct (is_array_slots (slots o)) eqn:Ha; [discriminate|].
  split; [reflexivity|]. intros fuel. rewrite deepClone_ref, Hs.
  rewrite (is_array_slots_at _ _ _ Hs), Ha.
  destruct (instance_of_available h (VRef r) (MapPrototype R)); [discriminate|].
  destruct (instance_of_available h (VRef r) (SetPrototype R)); [discriminate|].
  destruct (instance_of h (VRef r) (FunctionPrototype R)
            || type_tag_eqb (typeof h (VRef r)) TFunction); [discriminate|].
  destruct (instance_of h (VRef r) (ObjectPrototype R)
            || type_tag_eqb (typeof h (VRef r)) TObject); [reflexivity|discriminate].
Qed.

(** An own property is what [[Get]] finds. *)
Lemma get_own_property h r o k p :
  h !! r = Some o -> lookup_prop k (props o) = Some p -> get h r k = value p.
Proof.
  intros Hr Hk. unfold get, chain.
  assert (Hlen : 0 < length h) by (apply lookup_lt_Some in Hr; lia).
  destruct (length h) as [|n]; [lia|]. simpl. rewrite Hr. simpl.
  unfold get_own. rewrite Hr, Hk. reflexivity.
Qed.

(** C4. For every plain keyed record [r], a call [deepClone(r)] that returns
    gives a new object without prototype (a bare record).  When
    [r.hasOwnProperty] is usable as an own-property test (it is a function
    that tells the own keys of [r], as the built-in one does), the keys of
    the clone are exactly the own enumerable keys of [r] (nothing inherited
    is copied) and each holds what the recursive call returned on the own
    property of [r]; when [r.hasOwnProperty] is not a function, the keys of
    the clone are all the keys a for-in loop on [r] visits, each holding
    what the recursive call returned on [r[key]].  The call does return
    when [r] is clonable at the depth of the fuel. *)
Theorem deepClone_plain_record R h r o :
  wf_heap h = true -> h !! r = Some o -> classify R h (VRef r) = PlainRecord ->
  (forall fuel h' v', deepClone R fuel (VRef r) h = (h', Return v') ->
     exists ps',
       v' = VRef (length h)
       /\ h !! length h = None
       /\ h' !! length h = Some {| proto := None; slots := Ordinary; props := ps' |}
       /\ (acts_as_own_test (S fuel) h r ->
             (forall k, lookup_prop k ps' <> None <-> In k (own_enumerable_keys o))
             /\ (forall k p', lookup_prop k ps' = Some p' ->
                   exists p, lookup_prop k (props o) = Some p
                             /\ enumerable p' = true
                             /\ cloned_within (deepClone R (pred fuel)) h h' (length h)
                                              (value p) (value p')))
       /\ (own_test_of h r = NotAFunction ->
             (forall k, lookup_prop k ps' <> None <-> In k (for_in_keys h r))
             /\ (forall k p', lookup_prop k ps' = Some p' ->
                   enumerable p' = true
                   /\ cloned_within (deepClone R (pred fuel)) h h' (length h)
                                    (get h r k) (value p'))))
  /\ (forall n, clonable R n h (VRef r) = true ->
        exists h' v', deepClone R n (VRef r) h = (h', Return v')).
Proof.
  intros Hwf Hr Hc. destruct (classify_record R h r o Hr Hc) as [Ha Hbranch]. split.
  - intros fuel h' v' E. rewrite Hbranch in E.
    destruct fuel as [|fuel]; [discriminate|]. simpl pred.
    pose proof (clone_record_result _ _ _ _ _ _ E) as ->.
    destruct (clone_record_bare _ _ _ _ _ _ (deepClone_monotone R fuel) E) as [ps' Hn].
    exists ps'. split; [reflexivity|]. split; [apply lookup_ge_None; lia|].
    split; [exact Hn|]. split.
    + intros Hacts.
      destruct (clone_record_spec (deepClone R fuel) (S (S fuel)) h r o _ h h' _
                  (deepClone_monotone R fuel) Hwf (extends_refl h) Hr
                  (or_introl (conj Hacts eq_refl)) E)
        as (ps'' & _ & Hn' & _ & Hdom & Hval).
      rewrite Hn in Hn'. inversion Hn'; subst ps''. split; [exact Hdom|].
      intros k p' Hp. destruct (Hval k p' Hp) as [Hen Hcl].
      assert (Hk : In k (own_enumerable_keys o)) by (apply Hdom; congruence).
      unfold own_enumerable_keys in Hk.
      apply in_map_iff in Hk as ([k0 p0] & Hk0 & Hin). simpl in Hk0. subst k0.
      apply List.filter_In in Hin as [Hin _].
      assert (Hsome : lookup_prop k (props o) <> None).
      { apply lookup_prop_In. apply in_map_iff. exists (k, p0). auto. }
      destruct (lookup_prop k (props o)) as [p|] eqn:Hlk; [|congruence].
      exists p. split; [reflexivity|]. split; [exact Hen|].
      rewrite (get_own_property h r o k p Hr Hlk) in Hcl. exact Hcl.
    + intros Ht.
      destruct (clone_record_spec (deepClone R fuel) (S (S fuel)) h r o _ h h' _
                  (deepClone_monotone R fuel) Hwf (extends_refl h) Hr
                  (or_intror (conj Ht eq_refl)) E)
        as (ps'' & _ & Hn' & _ & Hdom & Hval).
      rewrite Hn in Hn'. inversion Hn'; subst ps''. split; [exact Hdom|exact Hval].
  - intros n Hcl. apply (deepClone_returns R h Hwf n (VRef r) h (extends_refl h) Hcl).
Qed.

(** The scenario of the specification: [deepClone({a: 1, b: {c: 2}})]. *)
Lemma deepClone_plain_record_witness :
  wf_heap nested_record_heap = true
  /\ classify host nested_record_heap (VRef 11) = PlainRecord
  /\ exists h',
       deepClone host 2 (VRef 11) nested_record_heap = (h', Return (VRef 12))
       /\ h' !! 12 = Some {| proto := None; slots := Ordinary;
                             props := [("a"%string, visible (VNum 1));
                                       ("b"%string, visible (VRef 13))] |}
       /\ h' !! 13 = Some {| proto := None; slots := Ordinary;
                             props := [("c"%string, visible (VNum 2))] |}.
Proof.
  split; [reflexivity|]. split; [reflexivity|].
  destruct (deepClone_plain_record host nested_record_heap 11 _ eq_refl eq_refl eq_refl)
    as [_ Hret].
  destruct (Hret 2 eq_refl) as (h' & v' & E).
  exists h'. vm_compute in E. inversion E; subst. repeat split.
Defined.

(** Without a usable [hasOwnProperty] the inherited key is copied too. *)
Example deepClone_bare_record :
  own_test_of bare_record_heap 11 = NotAFunction
  /\ exists h',
       deepClone host 1 (VRef 11) bare_record_heap = (h', Return (VRef 12))
       /\ h' !! 12 = Some {| proto := None; slots := Ordinary;
                             props := [("own"%string, visible (VNum 1));
                                       ("inherited"%string, visible (VNum 7))] |}.
Proof. split; [reflexivity|]. eexists. split; vm_compute; reflexivity. Qed.

(** ** Totality (claim C7) *)







(** ** isClassDefinition (claim C9) *)

Lemma strict_equals_ref c l : strict_equals c (VRef l) = true <-> c = VRef l.
Proof.
  destruct c; simpl; try (split; [discriminate|discriminate]).
  rewrite Nat.eqb_eq. split; [intros ->; reflexivity|intros [= ->]; reflexivity].
Qed.

Lemma get_val_returns R h v k :
  allocated_val h v = true -> to_boolean v = true -> exists x, get_val R h v k = Return x.
Proof.
  intros Ha Ht. destruct v as [| | b | n | s | id | l]; simpl in *; try discriminate; eauto.
  - destruct (indexed_own _ _ _ _); eauto.
  - apply Nat.ltb_lt in Ha. destruct (lookup_lt_is_Some_2 h l Ha) as [o Ho].
    unfold slots_at. rewrite Ho. destruct (slots o); eauto.
    destruct (indexed_own _ _ _ _); eauto.
Qed.

Lemma typeof_function_ref h v : typeof h v = TFunction -> exists l, v = VRef l.
Proof. destruct v; try discriminate. eauto. Qed.

(** C9. On a host that is not the legacy engine, and on values that refer
    to objects of the store, [isClassDefinition(value)] returns a boolean,
    and it is [true] exactly when [value] is invokable ([typeof] is
    "function"), [value.prototype] is present (truthy) and
    [value.prototype.constructor] is [value] itself. *)
Theorem isClassDefinition_spec R appVersion h value :
  isIE11 appVersion = false ->
  allocated_val h value = true ->
  (forall p, get_val R h value "prototype" = Return p -> allocated_val h p = true) ->
  exists b,
    isClassDefinition R appVersion h value = Return b
    /\ (b = true <->
        typeof h value = TFunction
        /\ exists p, get_val R h value "prototype" = Return p
                     /\ to_boolean p = true
                     /\ get_val R h p "constructor" = Return value).
Proof.
  intros Hie Hav Hap. unfold isClassDefinition. rewrite Hie. simpl andb.
  destruct (to_boolean value) eqn:Htv.
  - destruct (get_val_returns R h value "prototype" Hav Htv) as [p Hp].
    rewrite Hp. simpl bind_completion.
    destruct (to_boolean p) eqn:Htp.
    + destruct (get_val_returns R h p "constructor" (Hap p Hp) Htp) as [c Hc].
      rewrite Hc. simpl bind_completion. eexists. split; [reflexivity|].
      destruct (type_tag_eqb (typeof h value) TFunction) eqn:Hty; simpl.
      * assert (Hf : typeof h value = TFunction)
          by (destruct (typeof h value); try discriminate; reflexivity).
        destruct (typeof_function_ref h value Hf) as [l ->].
        rewrite strict_equals_ref. split.
        -- intros ->. split; [exact Hf|]. exists p. auto.
        -- intros (_ & p' & Hp' & _ & Hc').
           assert (p' = p) by congruence. subst p'. congruence.
      * split; [discriminate|]. intros (Hf & _). rewrite Hf in Hty. discriminate.
    + eexists. split; [reflexivity|]. rewrite andb_false_r.
      split; [discriminate|]. intros (_ & p' & Hp' & Htp' & _).
      assert (p' = p) by congruence. subst p'. congruence.
  - simpl bind_completion. rewrite Htv. simpl bind_completion.
    eexists. split; [reflexivity|]. rewrite andb_false_r.
    split; [discriminate|]. intros (Hf & _).
    destruct (typeof_function_ref h value Hf) as [l ->]. discriminate.
Qed.

Lemma isClassDefinition_spec_witness :
  isIE11 "5.0 (X11)" = false
  /\ isClassDefinition host "5.0 (X11)" function_heap (VRef 10) = Return true
  /\ isClassDefinition host "5.0 (X11)" function_heap (VRef 11) = Return false
  /\ isClassDefinition host "5.0 (X11)" function_heap (VStr "f") = Return false.
Proof.
  split; [reflexivity|].
  destruct (isClassDefinition_spec host "5.0 (X11)" function_heap (VRef 10) eq_refl eq_refl)
    as (b & E & _).
  { intros p Hp. vm_compute in Hp. inversion Hp. reflexivity. }
  vm_compute in E. inversion E; subst b.
  repeat split.
Defined.

(** ** padLeft (claim C10) *)

Lemma length_append s1 s2 :
  String.length (String.append s1 s2) = String.length s1 + String.length s2.
Proof. induction s1 as [|c s1 IH]; simpl; [reflexivity|rewrite IH; reflexivity]. Qed.

Lemma length_substring s : forall n m,
  n + m <= String.length s -> String.length (String.substring n m s) = m.
Proof.
  induction s as [|c s IH]; intros n m Hnm; simpl in *.
  - destruct n, m; simpl; lia.
  - destruct n as [|n].
    + destruct m as [|m]; simpl; [reflexivity|]. rewrite IH by lia. reflexivity.
    + apply IH. lia.
Qed.

Lemma pad_loop_done fuel str targetLength padWith :
  (targetLength <= Z.of_nat (String.length str))%Z ->
  pad_loop fuel str targetLength padWith = Some str.
Proof.
  intros Hlen. destruct fuel; simpl;
    replace (Z.of_nat (String.length str) <? targetLength)%Z with false
      by (symmetry; apply Z.ltb_ge; lia); reflexivity.
Qed.

Lemma pad_loop_ends padWith targetLength :
  padWith <> EmptyString ->
  forall fuel str,
    (targetLength - Z.of_nat (String.length str) <= Z.of_nat fuel)%Z ->
    exists padded, pad_loop fuel str targetLength padWith = Some padded.
Proof.
  intros Hpad. induction fuel as [|fuel IH]; intros str Hfuel.
  - rewrite pad_loop_done by lia. eauto.
  - simpl. destruct (Z.of_nat (String.length str) <? targetLength)%Z; [|eauto].
    apply IH. rewrite length_append.
    destruct padWith as [|c p]; [congruence|]. simpl String.length. lia.
Qed.

(** C10. With [targetLength >= 1], when the string the padding loop ends
    with is longer than [targetLength], [padLeft] returns its characters
    from position [length - targetLength] up to, and without, the last one:
    [targetLength - 1] characters.  That is the case at once for an input
    longer than [targetLength] (the loop does not run), and after the loop
    when a [padWith] of several characters overshoots.  With a [padWith]
    that is not empty the loop ends within [targetLength] turns. *)
Theorem padLeft_truncates str targetLength padWith :
  (1 <= targetLength)%Z ->
  (forall fuel padded,
     pad_loop fuel str targetLength padWith = Some padded ->
     (targetLength < Z.of_nat (String.length padded))%Z ->
     let start := String.length padded - Z.to_nat targetLength in
     let count := Z.to_nat targetLength - 1 in
     padLeft fuel str targetLength padWith = Some (String.substring start count padded)
     /\ String.length (String.substring start count padded) = count)
  /\ ((targetLength < Z.of_nat (String.length str))%Z ->
      forall fuel, pad_loop fuel str targetLength padWith = Some str)
  /\ (padWith <> EmptyString ->
      exists padded, pad_loop (Z.to_nat targetLength) str targetLength padWith = Some padded).
Proof.
  intros Ht. split; [|split].
  - intros fuel padded Hloop Hlong start count. unfold padLeft. rewrite Hloop.
    replace (targetLength <? Z.of_nat (String.length padded))%Z with true
      by (symmetry; apply Z.ltb_lt; lia).
    unfold js_substring, clamp_index.
    replace (Z.to_nat (Z.min (Z.max (Z.of_nat (String.length padded) - targetLength) 0)
                             (Z.of_nat (String.length padded))))
      with start by (unfold start; lia).
    replace (Z.to_nat (Z.min (Z.max (Z.of_nat (String.length padded) - 1) 0)
                             (Z.of_nat (String.length padded))))
      with (String.length padded - 1) by lia.
    replace (Nat.min start (String.length padded - 1)) with start by (unfold start; lia).
    replace (Nat.max start (String.length padded - 1) - start) with count
      by (unfold start, count; lia).
    split; [reflexivity|]. apply length_substring. unfold start, count. lia.
  - intros Hlong fuel. apply pad_loop_done. lia.
  - intros Hpad. apply pad_loop_ends; [exact Hpad|]. lia.
Qed.

Lemma padLeft_truncates_witness :
  (1 <= 6)%Z
  /\ padLeft 0 "1234567" 6 "0" = Some "23456"%string
  /\ padLeft 4 "a" 4 "xy" = Some "yxy"%string.
Proof.
  split; [lia|].
  destruct (padLeft_truncates "1234567" 6 "0" ltac:(lia)) as (Hcut & _ & _).
  destruct (padLeft_truncates "a" 4 "xy" ltac:(lia)) as (Hcut' & _ & _).
  split.
  - apply (Hcut 0 "1234567"%string); [reflexivity|reflexivity].
  - apply (Hcut' 4 "xyxya"%string); [reflexivity|reflexivity].
Defined.

(** ** Maps, Sets and functions are copied one level deep (claims C1, C2, C3) *)

(** C1, the code at the failing input.  The clone of the Map (at 12) has the
    entries of the source in the same order, but under "k1" it holds the
    very array the source holds: [clone.get("k1").push(9)] shows in
    [source.get("k1")]. *)
Theorem deepClone_map_by_reference :
  exists h',
    deepClone host 0 (VRef 11) map_heap = (h', Return (VRef 12))
    /\ slots_at h' 12 = Some (MapData [(VStr "k1", VRef 10); (VStr "k2", VNum 2)])
    /\ map_get h' 12 (VStr "k1") = Some (VRef 10)
    /\ map_get h' 11 (VStr "k1") = Some (VRef 10)
    /\ array_elems h' 10 = [VNum 1]
    /\ array_elems (array_push 10 (VNum 9) h') 10 = [VNum 1; VNum 9].
Proof. eexists. split; [vm_compute; reflexivity|]. repeat split. Qed.

(** C2, the code at a failing input.  The clone of the Set (at 12) has for
    member the very array that is the member of the source:
    pushing onto the member of the clone changes the member of the
    source. *)
Theorem deepClone_set_shares_storage :
  exists h',
    deepClone host 0 (VRef 11) set_heap = (h', Return (VRef 12))
    /\ set_members h' 12 = [VRef 10]
    /\ set_members h' 11 = [VRef 10]
    /\ array_elems h' 10 = [VNum 1]
    /\ array_elems (array_push 10 (VNum 9) h') 10 = [VNum 1; VNum 9].
Proof. eexists. split; [vm_compute; reflexivity|]. repeat split. Qed.

(** C3, the code at the failing input, with the scenario of the
    specification.  The clone of [f] (at 13) forwards its calls
    ([clone(5)] is [6]), shares the prototype object of [f] and has
    [tag = "x"]; assigning [clone.tag] leaves [f.tag] alone.  But
    [clone.data] is the very array [f.data]: it was copied by reference,
    not cloned, and a push through the clone shows in [f.data]. *)
Theorem deepClone_function_by_reference :
  exists h',
    deepClone host 0 (VRef 10) function_heap = (h', Return (VRef 13))
    /\ slots_at h' 13 = Some (Callable (Forwarder 10))
    /\ call 2 h' (VRef 13) VUndefined [VNum 5] = Return (VNum 6)
    /\ get h' 13 "prototype" = get h' 10 "prototype"
    /\ get h' 13 "tag" = VStr "x"
    /\ get (set_prop 13 "tag" (VStr "y") h') 10 "tag" = VStr "x"
    /\ get h' 13 "data" = VRef 12
    /\ get h' 10 "data" = VRef 12
    /\ array_elems (array_push 12 (VNum 9) h') 12 = [VNum 1; VNum 9].
Proof. eexists. split; [vm_compute; reflexivity|]. repeat split. Qed.

(** ** What the Map and Set branches build *)

Lemma put_entry_fresh k v acc :
  fresh_key k acc = true -> put_entry k v acc = acc ++ [(k, v)].
Proof.
  induction acc as [|[k' v'] acc IH]; simpl; [reflexivity|].
  intros Hf. apply andb_true_iff in Hf as [Hk Hf]. apply negb_true_iff in Hk.
  rewrite Hk, IH by exact Hf. reflexivity.
Qed.

Lemma put_member_fresh v acc :
  fresh_key v (map (fun v => (v, v)) acc) = true -> put_member v acc = acc ++ [v].
Proof.
  induction acc as [|v' acc IH]; simpl; [reflexivity|].
  intros Hf. apply andb_true_iff in Hf as [Hk Hf]. apply negb_true_iff in Hk.
  rewrite Hk, IH by exact Hf. reflexivity.
Qed.

Lemma copy_entries_spec newMap o : forall es acc h h',
  genuine_from acc es ->
  h !! newMap = Some (with_slots o (MapData acc)) ->
  copy_entries newMap es h = (h', Return tt) ->
  h' !! newMap = Some (with_slots o (MapData (acc ++ es))).
Proof.
  induction es as [|[k v] es IH]; intros acc h h' Hg Hn E; simpl in E.
  - inversion E; subst. rewrite app_nil_r. exact Hn.
  - destruct Hg as (Hk & Hf & Hg). rewrite bind_write in E.
    replace (acc ++ (k, v) :: es) with ((acc ++ [(k, v)]) ++ es)
      by (rewrite <- app_assoc; reflexivity).
    eapply IH; [exact Hg| |exact E].
    unfold map_set. rewrite Hn. simpl. rewrite Hk, (put_entry_fresh k v acc Hf).
    rewrite list_lookup_insert_eq by (eapply lookup_lt_Some, Hn). reflexivity.
Qed.

Lemma copy_members_spec newSet o : forall ms acc h h',
  genuine_from (map (fun v => (v, v)) acc) (map (fun v => (v, v)) ms) ->
  h !! newSet = Some (with_slots o (SetData acc)) ->
  copy_members newSet ms h = (h', Return tt) ->
  h' !! newSet = Some (with_slots o (SetData (acc ++ ms))).
Proof.
  induction ms as [|v ms IH]; intros acc h h' Hg Hn E; simpl in E.
  - inversion E; subst. rewrite app_nil_r. exact Hn.
  - destruct Hg as (Hk & Hf & Hg). rewrite bind_write in E.
    replace (acc ++ v :: ms) with ((acc ++ [v]) ++ ms)
      by (rewrite <- app_assoc; reflexivity).
    eapply IH; [| |exact E].
    + rewrite map_app. exact Hg.
    + unfold set_add. rewrite Hn. simpl. rewrite Hk, (put_member_fresh v acc Hf).
      rewrite list_lookup_insert_eq by (eapply lookup_lt_Some, Hn). reflexivity.
Qed.

Lemma classify_mapping R h m :
  classify R h (VRef m) = Mapping ->
  is_array h (VRef m) = false
  /\ instance_of_available h (VRef m) (MapPrototype R) = true.
Proof.
  unfold classify. cbn [strict_equals orb].
  replace (type_tag_eqb (typeof h (VRef m)) TString) with false
    by (simpl; destruct (is_callable h m); reflexivity).
  replace (type_tag_eqb (typeof h (VRef m)) TNumber) with false
    by (simpl; destruct (is_callable h m); reflexivity).
  destruct (is_array h (VRef m)); [discriminate|].
  destruct (instance_of_available h (VRef m) (MapPrototype R)); [auto|].
  repeat match goal with
         | |- (if ?b then _ else _) = _ -> _ => destruct b
         end; discriminate.
Qed.

Lemma classify_set R h s :
  classify R h (VRef s) = UniquenessSet ->
  is_array h (VRef s) = false
  /\ instance_of_available h (VRef s) (MapPrototype R) = false
  /\ instance_of_available h (VRef s) (SetPrototype R) = true.
Proof.
  unfold classify. cbn [strict_equals orb].
  replace (type_tag_eqb (typeof h (VRef s)) TString) with false
    by (simpl; destruct (is_callable h s); reflexivity).
  replace (type_tag_eqb (typeof h (VRef s)) TNumber) with false
    by (simpl; destruct (is_callable h s); reflexivity).
  destruct (is_array h (VRef s)); [discriminate|].
  destruct (instance_of_available h (VRef s) (MapPrototype R)); [discriminate|].
  destruct (instance_of_available h (VRef s) (SetPrototype R)); [auto|].
  repeat match goal with
         | |- (if ?b then _ else _) = _ -> _ => destruct b
         end; discriminate.
Qed.

(** The clone of a Map is a new Map that holds the very keys and values of
    the source, in the order of the source: the entries are copied by
    reference, whatever the fuel. *)
Theorem deepClone_map_shallow R fuel h m o entries :
  h !! m = Some o -> slots o = MapData entries -> genuine_entries entries ->
  classify R h (VRef m) = Mapping ->
  exists h',
    deepClone R fuel (VRef m) h = (h', Return (VRef (length h)))
    /\ h' !! length h = Some {| proto := MapPrototype R;
                                slots := MapData entries;
                                props := [] |}
    /\ extends h h'.
Proof.
  intros Hm Hs Hg Hc. destruct (classify_mapping R h m Hc) as [Ha Hi].
  assert (Hsl : slots_at h m = Some (MapData entries))
    by (unfold slots_at; rewrite Hm, Hs; reflexivity).
  assert (Hl : m < length h) by (eapply lookup_lt_Some, Hm).
  rewrite deepClone_ref, Hsl, Ha, Hi.
  unfold clone_map. rewrite bind_alloc, bind_read.
  set (onew := {| proto := MapPrototype R; slots := MapData []; props := [] |}).
  rewrite (slots_at_frame h (h ++ [onew]) m (extends_app h _) Hl), Hsl.
  destruct (copy_entries_returns (length h) entries (h ++ [onew])) as (h' & E).
  rewrite (bind_return _ _ _ _ _ E). exists h'. split; [reflexivity|]. split.
  - apply (copy_entries_spec (length h) onew entries [] (h ++ [onew]) h' Hg); [|exact E].
    rewrite lookup_app_r by lia. rewrite Nat.sub_diag. reflexivity.
  - eapply (preserves_copy_entries h (length h) entries (le_n _)); [|exact E].
    apply extends_app.
Qed.

Lemma deepClone_map_shallow_witness :
  map_heap !! 11 = Some {| proto := Some 4;
                           slots := MapData [(VStr "k1", VRef 10); (VStr "k2", VNum 2)];
                           props := [] |}
  /\ genuine_entries [(VStr "k1", VRef 10); (VStr "k2", VNum 2)]
  /\ classify host map_heap (VRef 11) = Mapping
  /\ exists h',
       deepClone host 0 (VRef 11) map_heap = (h', Return (VRef 12))
       /\ h' !! 12 = Some {| proto := Some 4;
                             slots := MapData [(VStr "k1", VRef 10); (VStr "k2", VNum 2)];
                             props := [] |}
       /\ extends map_heap h'.
Proof.
  assert (Hg : genuine_entries [(VStr "k1", VRef 10); (VStr "k2", VNum 2)])
    by (repeat split).
  split; [reflexivity|]. split; [exact Hg|]. split; [reflexivity|].
  exact (deepClone_map_shallow host 0 map_heap 11 _ _ eq_refl eq_refl Hg eq_refl).
Defined.

(** The clone of a Set is a new Set that holds the very members of the
    source, in the order of the source. *)
Theorem deepClone_set_shallow R fuel h s o members :
  h !! s = Some o -> slots o = SetData members -> genuine_members members ->
  classify R h (VRef s) = UniquenessSet ->
  exists h',
    deepClone R fuel (VRef s) h = (h', Return (VRef (length h)))
    /\ h' !! length h = Some {| proto := SetPrototype R;
                                slots := SetData members;
                                props := [] |}
    /\ extends h h'.
Proof.
  intros Hm Hs Hg Hc. destruct (classify_set R h s Hc) as (Ha & Hi & Hj).
  assert (Hsl : slots_at h s = Some (SetData members))
    by (unfold slots_at; rewrite Hm, Hs; reflexivity).
  assert (Hl : s < length h) by (eapply lookup_lt_Some, Hm).
  rewrite deepClone_ref, Hsl, Ha, Hi, Hj.
  unfold clone_set. rewrite bind_alloc, bind_read.
  set (onew := {| proto := SetPrototype R; slots := SetData []; props := [] |}).
  rewrite (slots_at_frame h (h ++ [onew]) s (extends_app h _) Hl), Hsl.
  destruct (copy_members_returns (length h) members (h ++ [onew])) as (h' & E).
  rewrite (bind_return _ _ _ _ _ E). exists h'. split; [reflexivity|]. split.
  - apply (copy_members_spec (length h) onew members [] (h ++ [onew]) h' Hg); [|exact E].
    rewrite lookup_app_r by lia. rewrite Nat.sub_diag. reflexivity.
  - eapply (preserves_copy_members h (length h) members (le_n _)); [|exact E].
    apply extends_app.
Qed.

Lemma deepClone_set_shallow_witness :
  set_heap !! 11 = Some {| proto := Some 5; slots := SetData [VRef 10]; props := [] |}
  /\ genuine_members [VRef 10]
  /\ classify host set_heap (VRef 11) = UniquenessSet
  /\ exists h',
       deepClone host 0 (VRef 11) set_heap = (h', Return (VRef 12))
       /\ h' !! 12 = Some {| proto := Some 5; slots := SetData [VRef 10]; props := [] |}
       /\ extends set_heap h'.
Proof.
  assert (Hg : genuine_members [VRef 10]) by (repeat split).
  split; [reflexivity|]. split; [exact Hg|]. split; [reflexivity|].
  exact (deepClone_set_shallow host 0 set_heap 11 _ _ eq_refl eq_refl Hg eq_refl).
Defined.

(** ** What the function branch builds *)

Lemma monotone_ret (v : val) : monotone (ret v).
Proof. intros h h' c E. inversion E; subst. apply extends_refl. Qed.

Lemma classify_callable R h f :
  classify R h (VRef f) = CallableWithState ->
  is_array h (VRef f) = false
  /\ instance_of_available h (VRef f) (MapPrototype R) = false
  /\ instance_of_available h (VRef f) (SetPrototype R) = false
  /\ instance_of h (VRef f) (FunctionPrototype R)
     || type_tag_eqb (typeof h (VRef f)) TFunction = true.
Proof.
  unfold classify. cbn [strict_equals orb].
  replace (type_tag_eqb (typeof h (VRef f)) TString) with false
    by (simpl; destruct (is_callable h f); reflexivity).
  replace (type_tag_eqb (typeof h (VRef f)) TNumber) with false
    by (simpl; destruct (is_callable h f); reflexivity).
  destruct (is_array h (VRef f)); [discriminate|].
  destruct (instance_of_available h (VRef f) (MapPrototype R)); [discriminate|].
  destruct (instance_of_available h (VRef f) (SetPrototype R)); [discriminate|].
  destruct (instance_of h (VRef f) (FunctionPrototype R)
            || type_tag_eqb (typeof h (VRef f)) TFunction); [auto|].
  repeat match goal with
         | |- (if ?b then _ else _) = _ -> _ => destruct b
         end; discriminate.
Qed.

(** What the function branch builds when every assignment of its loop is
    accepted: the new function, filled as the object branch would fill it
    with the identity in the place of the recursive call. *)
Lemma clone_function_accepted R fuel h f o :
  wf_heap h = true -> h !! f = Some o ->
  classify R h (VRef f) = CallableWithState ->
  own_test_of h f = BuiltinTest ->
  (forall k, In k (own_enumerable_keys o) -> accepted_by_new_function R h k = true) ->
  exists h' ps',
    deepClone R fuel (VRef f) h = (h', Return (VRef (length h)))
    /\ extends h h'
    /\ h' !! length h = Some (with_props (forwarder_object R f (S (length h))) ps')
    /\ (forall k, lookup_prop k ps' <> None <->
          k = "length"%string \/ k = "name"%string \/ k = "prototype"%string
          \/ In k (own_enumerable_keys o))
    /\ (forall k, ~ In k (own_enumerable_keys o) ->
          lookup_prop k ps'
          = lookup_prop k (assign "prototype" (get h f "prototype")
                             (props (forwarder_object R f (S (length h))))))
    /\ (forall k p', In k (own_enumerable_keys o) ->
          lookup_prop k ps' = Some p' -> value p' = get h f k).
Proof.
  intros Hwf Hf Hc Ht Hacc.
  destruct (classify_callable R h f Hc) as (Ha & Hi & Hj & Hk).
  assert (Hsl : slots_at h f = Some (slots o))
    by (unfold slots_at; rewrite Hf; reflexivity).
  assert (Hl : f < length h) by (eapply lookup_lt_Some, Hf).
  assert (Has : is_array_slots (slots o) = false)
    by (rewrite <- (is_array_slots_at _ _ _ Hsl); exact Ha).
  rewrite deepClone_ref, Hsl, Ha, Hi, Hj, Hk, clone_function_start. cbv zeta.
  set (fnobj := forwarder_object R f (S (length h))).
  set (h1 := h ++ [fnobj; prototype_object R (length h)]).
  assert (He1 : extends h h1) by apply extends_app.
  rewrite (get_frame h h1 f Hwf He1 Hl).
  set (h2 := set_prop (length h) "prototype" (get h f "prototype") h1).
  assert (He2 : extends h h2) by (apply extends_set_prop; [lia|exact He1]).
  assert (Hn1 : h1 !! length h = Some (with_props fnobj (props fnobj))).
  { unfold h1. rewrite lookup_app_r by lia. rewrite Nat.sub_diag. reflexivity. }
  pose proof (set_prop_lookup (length h) "prototype" (get h f "prototype") h1 fnobj _ Hn1)
    as Hn2. fold h2 in Hn2.
  assert (Hnew : new_function_at R h2 (length h)) by apply new_function_at_start.
  assert (Hkeys : Forall (fun k => has_own h f k = true ->
                                   accepted_by_new_function R h k = true)
                         (for_in_keys h f)).
  { apply Forall_forall. intros k Hin Hown. apply Hacc.
    rewrite <- (filter_own_for_in h f o Hf). apply filter_In. split; [|exact Hown].
    apply list_elem_of_In, Hin. }
  rewrite (for_in_keys_frame h h2 f Hwf He2 Hl).
  destruct (copy_function_properties_returns R h (length h) Hwf (le_n _) f (slots o)
              Hl Ht Hsl Has fuel (for_in_keys h f) Hkeys h2 He2 Hnew) as (h' & E).
  rewrite (bind_return _ _ _ _ _ E).
  pose proof E as E'.
  rewrite (copy_function_properties_as_clone R h (length h) Hwf (le_n _) f (slots o)
             Hl Ht Hsl Has fuel (for_in_keys h f) Hkeys h2 He2 Hnew) in E'.
  rewrite (clone_own_properties_as_visible h ret Hwf monotone_ret f (length h) Hl
             (le_n _) (S fuel) (builtin_acts h f (slots o) fuel Ht Hsl Has) _ h2 He2)
    in E'.
  rewrite (filter_own_for_in h f o Hf) in E'.
  destruct (clone_visible_properties_spec h ret Hwf monotone_ret f (length h) fnobj Hl
              (le_n _) _ h2 _ h' He2 Hn2 E')
    as (ps' & Hn' & _ & Hdom & Hout & _ & Hval).
  exists h', ps'. split; [reflexivity|]. split.
  { eapply (preserves_copy_function_properties h R (S fuel) f (length h) _ (le_n _));
      [exact He2|exact E]. }
  split; [exact Hn'|]. split; [|split; [exact Hout|]].
  - intros k. rewrite Hdom. simpl.
    destruct (String.eqb_spec k "length"); [split; auto; intros _; left; discriminate|].
    destruct (String.eqb_spec k "name"); [split; auto; intros _; left; discriminate|].
    destruct (String.eqb_spec k "prototype"); [split; auto; intros _; left; discriminate|].
    split; [intros [?|?]; [congruence|auto]|].
    intros [?|[?|[?|?]]]; try congruence. right. assumption.
  - intros k p' Hin Hp. destruct (Hval k p' Hin Hp) as (ha & hb & _ & _ & Er & _).
    inversion Er. reflexivity.
Qed.



(** ** Arrays and records of plain data are cloned all the way down *)

Lemma plain_data_ref R n h l :
  plain_data R n h (VRef l) =
  match slots_at h l with
  | None => false
  | Some s =>
    if is_array h (VRef l) then
      match n with
      | 0 => false
      | S n' => forallb (plain_data R n' h) (array_elems h l)
      end
    else if instance_of_available h (VRef l) (MapPrototype R) then false
    else if instance_of_available h (VRef l) (SetPrototype R) then false
    else if instance_of h (VRef l) (FunctionPrototype R)
            || type_tag_eqb (typeof h (VRef l)) TFunction then false
    else
      match n with
      | 0 => false
      | S n' =>
        match own_test_of h l with
        | BuiltinTest =>
          forallb (fun k => negb (has_own h l k) || plain_data R n' h (get h l k))
                  (for_in_keys h l)
        | NotAFunction =>
          forallb (fun k => plain_data R n' h (get h l k)) (for_in_keys h l)
        | _ => false
        end
      end
  end.
Proof. destruct n; reflexivity. Qed.

Lemma forallb_impl {A} (f g : A -> bool) (l : list A) :
  (forall x, In x l -> f x = true -> g x = true) ->
  forallb f l = true -> forallb g l = true.
Proof.
  intros Hfg. rewrite !forallb_forall. intros Hf x Hx. apply Hfg; [exact Hx|].
  apply Hf, Hx.
Qed.

Lemma plain_data_clonable R : forall n h v,
  plain_data R n h v = true -> clonable R n h v = true.
Proof.
  induction n as [|n IH]; intros h v Hp; destruct v as [| | | | | |l]; try reflexivity;
    rewrite plain_data_ref in Hp; rewrite clonable_ref;
    destruct (slots_at h l); try discriminate;
    repeat match type of Hp with
           | (if ?b then _ else _) = _ => destruct b
           end; try discriminate.
  - eapply forallb_impl; [|exact Hp]. intros x _. apply IH.
  - destruct (own_test_of h l); try discriminate;
      (eapply forallb_impl; [|exact Hp]); intros k _ Hk.
    + apply orb_true_iff in Hk as [Hk|Hk]; [rewrite Hk; reflexivity|].
      rewrite (IH _ _ Hk). apply orb_true_r.
    + apply IH, Hk.
Qed.

Lemma detached_weaken b b' : b <= b' ->
  forall n h v, detached b' n h v = true -> detached b n h v = true.
Proof.
  intros Hb. induction n as [|n IH]; intros h v Hd; destruct v as [| | | | | |l];
    try reflexivity; simpl in *;
    apply andb_true_iff in Hd as [Hl Hd]; try discriminate.
  apply andb_true_iff. split; [apply Nat.leb_le; apply Nat.leb_le in Hl; lia|].
  destruct (h !! l); [|discriminate].
  eapply forallb_impl; [|exact Hd]. intros x _. apply IH.
Qed.

Lemma detached_transfer b h h' :
  (forall l o, b <= l -> h !! l = Some o -> h' !! l = Some o) ->
  forall n v, detached b n h v = true -> detached b n h' v = true.
Proof.
  intros Hh. induction n as [|n IH]; intros v Hd; destruct v as [| | | | | |l];
    try reflexivity; simpl in *;
    apply andb_true_iff in Hd as [Hl Hd]; try discriminate.
  apply andb_true_iff. split; [exact Hl|].
  destruct (h !! l) as [o|] eqn:Ho; [|discriminate].
  rewrite (Hh l o (proj1 (Nat.leb_le _ _) Hl) Ho).
  eapply forallb_impl; [|exact Hd]. intros x _. apply IH.
Qed.

Lemma lookup_prop_NoDup k p ps :
  NoDup (map fst ps) -> In (k, p) ps -> lookup_prop k ps = Some p.
Proof.
  induction ps as [|[k' p'] ps IH]; intros Hnd Hin; [contradiction|].
  simpl in *. apply NoDup_cons in Hnd as [Hk' Hnd].
  destruct Hin as [Heq|Hin].
  - inversion Heq; subst. rewrite String.eqb_refl. reflexivity.
  - destruct (String.eqb_spec k k') as [->|Hne]; [|apply IH; assumption].
    exfalso. apply Hk'. apply list_elem_of_In. apply in_map_iff. exists (k', p). auto.
Qed.

(** What a run of [deepClone] on plain data returns is detached: the
    objects it leads to were all allocated by the run. *)
Lemma deepClone_detached_from R hb :
  wf_heap hb = true ->
  forall n v h h' v', extends hb h -> plain_data R n hb v = true ->
    deepClone R n v h = (h', Return v') -> detached (length h) n h' v' = true.
Proof.
  intros Hwf. induction n as [|n IH]; intros v h h' v' He Hp E;
    (destruct v as [| | b | x | s | id | l];
     [ rewrite deepClone_primitive in E by discriminate; inversion E; reflexivity .. | ]).
  - rewrite plain_data_ref in Hp. destruct (slots_at hb l); [|discriminate].
    repeat match type of Hp with
           | (if ?b then _ else _) = _ => destruct b
           end; discriminate.
  - rewrite plain_data_ref in Hp. destruct (slots_at hb l) as [s|] eqn:Hs; [|discriminate].
    pose proof (slots_at_allocated _ _ _ Hs) as Hl.
    rewrite deepClone_ref in E.
    rewrite (slots_at_frame hb h l He Hl), Hs in E.
    rewrite (is_array_frame hb h l He Hl) in E.
    rewrite !(instance_of_available_frame hb h l Hwf He Hl) in E.
    rewrite !(instance_of_frame hb h l Hwf He Hl) in E.
    rewrite (typeof_frame hb h l He Hl) in E.
    destruct (is_array hb (VRef l)) eqn:Harr.
    + (* array *)
      destruct (clone_array_spec R (deepClone R n) l (array_elems hb l) h h' v'
                  (deepClone_monotone R n)
                  ltac:(pose proof (extends_length _ _ He); lia)
                  (array_elems_frame hb h l He Hl) E) as (elems' & -> & Hn & Hall).
      simpl. rewrite Nat.leb_refl, Hn. simpl. unfold stored_values. simpl.
      rewrite app_nil_r. apply forallb_forall. intros e' Hin.
      apply list_elem_of_In, list_elem_of_lookup in Hin as [i Hi].
      eapply Forall2_lookup_r in Hall as (e & Hei & (h1 & h2 & He1 & Hsk & Ec & Hx));
        [|exact Hi].
      assert (Hpe : plain_data R n hb e = true).
      { rewrite forallb_forall in Hp. apply Hp.
        apply list_elem_of_In. eapply list_elem_of_lookup_2, Hei. }
      pose proof (IH e h1 h2 e' ltac:(eapply extends_trans; eassumption) Hpe Ec) as Hd.
      apply (detached_weaken (length h) (length h1)); [lia|].
      eapply detached_transfer; [|exact Hd].
      intros l0 o0 Hl0 Ho0. apply Hx; [lia|exact Ho0].
    + (* record *)
      destruct (instance_of_available hb (VRef l) (MapPrototype R)); [discriminate|].
      destruct (instance_of_available hb (VRef l) (SetPrototype R)); [discriminate|].
      destruct (instance_of hb (VRef l) (FunctionPrototype R)
                || type_tag_eqb (typeof hb (VRef l)) TFunction) eqn:Hfun; [discriminate|].
      replace (instance_of hb (VRef l) (ObjectPrototype R)
               || type_tag_eqb (typeof hb (VRef l)) TObject) with true in E; cycle 1.
      { symmetry. simpl in *. destruct (is_callable hb l); simpl in *.
        - rewrite orb_true_r in Hfun. discriminate.
        - apply orb_true_r. }
      destruct (lookup_lt_is_Some_2 hb l Hl) as [o Ho].
      assert (Ha : is_array_slots (slots o) = false).
      { assert (Hso : slots_at hb l = Some (slots o))
          by (unfold slots_at; rewrite Ho; reflexivity).
        rewrite <- (is_array_slots_at _ _ _ Hso). exact Harr. }
      assert (Hso : slots_at hb l = Some (slots o))
        by (unfold slots_at; rewrite Ho; reflexivity).
      assert (Ht : (acts_as_own_test (S (S n)) hb l
                    /\ match own_test_of hb l with
                       | BuiltinTest => own_enumerable_keys o
                       | _ => for_in_keys hb l
                       end = own_enumerable_keys o)
                   \/ (own_test_of hb l = NotAFunction
                       /\ match own_test_of hb l with
                          | BuiltinTest => own_enumerable_keys o
                          | _ => for_in_keys hb l
                          end = for_in_keys hb l)).
      { destruct (own_test_of hb l) eqn:Hto; try discriminate.
        - left. split; [|reflexivity]. eapply builtin_acts; eassumption.
        - right. split; reflexivity. }
      destruct (clone_record_spec (deepClone R n) (S (S n)) hb l o _ h h' v'
                  (deepClone_monotone R n) Hwf He Ho Ht E)
        as (ps' & -> & Hn & Hnd & Hdom & Hval).
      simpl. rewrite Nat.leb_refl, Hn. simpl. unfold stored_values. simpl.
      apply forallb_forall. intros e' Hin.
      apply in_map_iff in Hin as ([k p'] & <- & Hin). simpl.
      pose proof (lookup_prop_NoDup k p' ps' Hnd Hin) as Hlk.
      destruct (Hval k p' Hlk) as (_ & h1 & h2 & He1 & Hsk & Ec & Hx).
      assert (Hk : In k (match own_test_of hb l with
                         | BuiltinTest => own_enumerable_keys o
                         | _ => for_in_keys hb l
                         end)) by (apply Hdom; congruence).
      assert (Hpe : plain_data R n hb (get hb l k) = true).
      { destruct (own_test_of hb l) eqn:Hto; try discriminate.
        - rewrite <- (filter_own_for_in hb l o Ho) in Hk.
          apply List.filter_In in Hk as [Hk Hown].
          rewrite forallb_forall in Hp. apply Hp in Hk. rewrite Hown in Hk. exact Hk.
        - rewrite forallb_forall in Hp. apply Hp, Hk. }
      pose proof (IH _ h1 h2 _ He1 Hpe Ec) as Hd.
      apply (detached_weaken (length h) (length h1)); [lia|].
      eapply detached_transfer; [|exact Hd].
      intros l0 o0 Hl0 Ho0. apply Hx; [lia|exact Ho0].
Qed.

(** Independence on plain data.  For a value made of primitives, arrays and
    plain records only, [deepClone] returns, every object the clone leads
    to (at any depth) is one the call allocated, and every object that was
    in the store is unchanged: nothing is shared between the clone and the
    source. *)
Theorem deepClone_plain_data_independent R n h v :
  wf_heap h = true -> plain_data R n h v = true ->
  exists h' v',
    deepClone R n v h = (h', Return v')
    /\ detached (length h) n h' v' = true
    /\ extends h h'.
Proof.
  intros Hwf Hp.
  destruct (deepClone_returns R h Hwf n v h (extends_refl h)
              (plain_data_clonable R n h v Hp)) as (h' & v' & E).
  exists h', v'. split; [exact E|]. split.
  - apply (deepClone_detached_from R h Hwf n v h h' v' (extends_refl h) Hp E).
  - eapply deepClone_monotone, E.
Qed.

Lemma deepClone_plain_data_independent_witness :
  wf_heap nested_record_heap = true
  /\ plain_data host 2 nested_record_heap (VRef 11) = true
  /\ exists h' v',
       deepClone host 2 (VRef 11) nested_record_heap = (h', Return v')
       /\ detached (length nested_record_heap) 2 h' v' = true
       /\ extends nested_record_heap h'.
Proof.
  split; [reflexivity|]. split; [reflexivity|].
  apply (deepClone_plain_data_independent host 2 nested_record_heap (VRef 11));
    reflexivity.
Defined.

(** ** The two ways to a TypeError *)

(** The function branch calls [hasOwnProperty] without the test the object
    branch makes first: on the function the call throws, on the record the
    key is copied. *)
Example deepClone_tampered_function_throws :
  snd (deepClone host 1 (VRef 10) tampered_heap) = Throw
  /\ exists h', deepClone host 1 (VRef 11) tampered_heap = (h', Return (VRef 12))
                /\ get h' 12 "hasOwnProperty" = VNum 1.
Proof. split; [reflexivity|]. eexists. split; vm_compute; reflexivity. Qed.

(** [Map.prototype.forEach] throws on a receiver that is no Map. *)
Example deepClone_fake_map_throws :
  classify host fake_map_heap (VRef 10) = Mapping
  /\ snd (deepClone host 1 (VRef 10) fake_map_heap) = Throw.
Proof. split; reflexivity. Qed.

(** ** A test written by the user *)

(** Such a test is usable, and the clone has the own enumerable keys. *)
Example custom_test_is_usable :
  acts_as_own_test 2 custom_test_heap 11
  /\ exists h',
       deepClone host 1 (VRef 11) custom_test_heap = (h', Return (VRef 12))
       /\ map fst (match h' !! 12 with Some o => props o | None => [] end)
          = ["a"%string; "hasOwnProperty"%string].
Proof.
  split.
  - split; [reflexivity|]. intros key. unfold call_hasOwnProperty.
    change (get custom_test_heap 11 "hasOwnProperty") with (VRef 10).
    cbn [call]. change (custom_test_heap !! 10)
      with (Some {| proto := Some 2; slots := Callable (Closure custom_test);
                    props := [] |}).
    cbn [slots custom_test to_boolean]. unfold has_own, get_own.
    change (custom_test_heap !! 11)
      with (Some (record_object [("a"%string, visible (VNum 1));
                                 ("hasOwnProperty"%string, visible (VRef 10))])).
    cbn [props record_object lookup_prop].
    destruct (String.eqb key "a"); [reflexivity|].
    destruct (String.eqb key "hasOwnProperty"); reflexivity.
  - eexists. split; vm_compute; reflexivity.
Qed.

(** * Numbers and strings *)

Section Doubles.
Local Open Scope string_scope.
Local Open Scope Z_scope.

(** ** Integers in doubles: rounding is exact *)

Lemma digits2_shiftl (k : positive) : forall p,
  Z.pos (digits2_pos (Pos.iter xO p k)) = Z.pos (digits2_pos p) + Z.pos k.
Proof.
  induction k using Pos.peano_ind; intros p.
  - simpl. lia.
  - rewrite Pos.iter_succ. simpl digits2_pos. rewrite Pos2Z.inj_succ, IHk. lia.
Qed.

Lemma iter_pos_iter {A} (f : A -> A) p : forall x,
  @SpecFloat.iter_pos A f p x = Pos.iter f x p.
Proof.
  induction p; intros x; simpl.
  - rewrite !IHp. rewrite <- !Pos.iter_swap. reflexivity.
  - rewrite !IHp. reflexivity.
  - reflexivity.
Qed.

Lemma shr_zeros (k : positive) : forall q,
  Pos.iter shr_1 {| shr_m := Z.pos (Pos.iter xO q k); shr_r := false; shr_s := false |} k
  = {| shr_m := Z.pos q; shr_r := false; shr_s := false |}.
Proof.
  induction k using Pos.peano_ind; intros q.
  - reflexivity.
  - rewrite (Pos.iter_succ_r k _ shr_1). rewrite (Pos.iter_succ k _ xO).
    change (shr_1 {| shr_m := Z.pos (Pos.iter xO q k)~0; shr_r := false; shr_s := false |})
      with {| shr_m := Z.pos (Pos.iter xO q k); shr_r := false; shr_s := false |}.
    apply IHk.
Qed.

Lemma binary_round_aux_canonical s m e :
  Z.pos (digits2_pos m) = 53 -> -1074 <= e <= 971 ->
  binary_round_aux prec emax s (Z.pos m) e loc_Exact = S754_finite s m e.
Proof.
  intros Hd He. unfold binary_round_aux, shr_fexp. cbn [Zdigits2]. rewrite Hd.
  replace (fexp prec emax (53 + e) - e) with 0
    by (unfold fexp, SpecFloat.emin, prec, emax; lia).
  cbn [shr shr_record_of_loc shr_m loc_of_shr_record round_nearest_even Zdigits2].
  rewrite Hd.
  replace (fexp prec emax (53 + e) - e) with 0
    by (unfold fexp, SpecFloat.emin, prec, emax; lia).
  cbn [shr shr_m]. replace (e <=? emax - prec) with true; [reflexivity|].
  symmetry. apply Z.leb_le. unfold emax, prec. lia.
Qed.

Lemma shiftl_0 q : Pos.shiftl q 0 = q.
Proof. reflexivity. Qed.

Lemma shiftl_pos q k : Pos.shiftl q (N.pos k) = Pos.iter xO q k.
Proof. reflexivity. Qed.

(** [q 2^k 2^e] is an integer of at most 53 bits: rounding is exact. *)
Lemma binary_round_integer s q (k : N) e :
  Z.pos (digits2_pos q) <= 53 ->
  e + Z.of_N k = 0 ->
  binary_round prec emax s (Pos.shiftl q k) e = SF_of_pos s q.
Proof.
  intros Hd He. unfold binary_round, SF_of_pos.
  assert (Hdig : Z.pos (digits2_pos (Pos.shiftl q k)) = Z.pos (digits2_pos q) + Z.of_N k).
  { destruct k as [|k]; unfold Pos.shiftl; cbn [Z.of_N]; [lia|]. apply digits2_shiftl. }
  rewrite Hdig.
  set (d := Z.pos (digits2_pos q)) in *.
  assert (Hfexp : fexp prec emax (d + Z.of_N k + e) = d - 53).
  { unfold fexp, SpecFloat.emin, prec, emax. lia. }
  rewrite Hfexp. unfold shl_align.
  destruct (d - 53 - e) as [|n|n] eqn:Hn.
  - rewrite binary_round_aux_canonical by lia.
    destruct k as [|k].
    + replace (53 - d) with 0 by lia. rewrite shiftl_0. cbv beta iota. f_equal. lia.
    + replace (53 - d) with (Z.pos k) by lia. rewrite shiftl_pos. cbv beta iota. f_equal. lia.
  - destruct k as [|k]; [lia|].
    assert (Hk : exists j, Pos.shiftl q (N.pos k) = Pos.iter xO (Pos.shiftl q j) n
                           /\ Z.of_N j = 53 - d).
    { destruct (53 - d) as [|j|j] eqn:Hj; [| |lia].
      - exists 0%N. split; [|reflexivity]. rewrite shiftl_0, shiftl_pos. f_equal. lia.
      - exists (N.pos j). split; [|reflexivity]. rewrite !shiftl_pos.
        rewrite <- Pos.iter_add. f_equal. lia. }
    destruct Hk as (j & Hk & Hj).
    transitivity (binary_round_aux prec emax s (Z.pos (Pos.shiftl q j)) (d - 53) loc_Exact).
    + assert (Hdj : Z.pos (digits2_pos (Pos.shiftl q j)) = 53).
      { destruct j as [|j]; rewrite ?shiftl_0, ?shiftl_pos; [|rewrite digits2_shiftl]; fold d; cbn [Z.of_N] in Hj; lia. }
      assert (H1 : shr_fexp prec emax (Z.pos (Pos.shiftl q (N.pos k))) e loc_Exact
                   = ({| shr_m := Z.pos (Pos.shiftl q j); shr_r := false; shr_s := false |},
                      d - 53)).
      { unfold shr_fexp. cbn [Zdigits2]. rewrite Hdig, Hfexp, Hn.
        cbn [shr shr_record_of_loc]. rewrite iter_pos_iter, Hk, shr_zeros.
        f_equal. lia. }
      assert (H2 : shr_fexp prec emax (Z.pos (Pos.shiftl q j)) (d - 53) loc_Exact
                   = ({| shr_m := Z.pos (Pos.shiftl q j); shr_r := false; shr_s := false |},
                      d - 53)).
      { unfold shr_fexp. cbn [Zdigits2]. rewrite Hdj.
        replace (fexp prec emax (53 + (d - 53)) - (d - 53)) with 0
          by (unfold fexp, SpecFloat.emin, prec, emax; lia).
        reflexivity. }
      unfold binary_round_aux. rewrite H1, H2. reflexivity.
    + rewrite binary_round_aux_canonical.
      * rewrite <- Hj. destruct j; rewrite ?shiftl_0, ?shiftl_pos; cbn [Z.of_N] in *; cbv beta iota; f_equal; lia.
      * destruct j as [|j]; rewrite ?shiftl_0, ?shiftl_pos; [|rewrite digits2_shiftl]; fold d; cbn [Z.of_N] in Hj; lia.
      * lia.
  - replace (53 - d) with (Z.of_N k + Z.pos n) by lia.
    destruct k as [|k].
    + rewrite ?shiftl_0, ?shiftl_pos. cbn [Z.of_N Z.add]. cbv beta iota.
      rewrite binary_round_aux_canonical; [f_equal; lia| |lia].
      rewrite digits2_shiftl. fold d. lia.
    + rewrite ?shiftl_0, ?shiftl_pos. cbn [Z.of_N Z.add]. cbv beta iota.
      rewrite binary_round_aux_canonical.
      * rewrite <- Pos.iter_add. f_equal; [rewrite Pos.add_comm; reflexivity|lia].
      * rewrite !digits2_shiftl. fold d. lia.
      * lia.
Qed.

Lemma iter_xO_pow2 (d : positive) : forall q,
  Z.pos (Pos.iter xO q d) = Z.pos q * 2 ^ Z.pos d.
Proof.
  induction d using Pos.peano_ind; intros q.
  - simpl. lia.
  - rewrite Pos.iter_succ, Pos2Z.inj_succ, Z.pow_succ_r by lia.
    rewrite Pos2Z.inj_xO, IHd. lia.
Qed.

Lemma shiftl_pos_pow2 q (k : N) : Z.pos (Pos.shiftl q k) = Z.pos q * 2 ^ Z.of_N k.
Proof.
  destruct k as [|k]; [rewrite shiftl_0|rewrite shiftl_pos; apply iter_xO_pow2].
  change (Z.of_N 0) with 0. rewrite Z.pow_0_r. lia.
Qed.

Lemma digits2_size q : digits2_pos q = Pos.size q.
Proof.
  induction q as [q IH|q IH|]; cbn [digits2_pos Pos.size]; [rewrite IH|rewrite IH|];
    reflexivity.
Qed.

Lemma digits2_bound q : Z.pos q < 2 ^ 53 -> Z.pos (digits2_pos q) <= 53.
Proof.
  intros Hq. destruct (Z.le_gt_cases (Z.pos (digits2_pos q)) 53) as [H|H]; [exact H|].
  exfalso. pose proof (digits2_size q) as Hs.
  pose proof (Pos.size_le q) as Hle. rewrite <- Hs in Hle.
  assert (2 ^ 54 <= 2 ^ Z.pos (digits2_pos q)) by (apply Z.pow_le_mono_r; lia).
  assert (Z.pos (2 ^ digits2_pos q) <= Z.pos q~0) by exact Hle.
  rewrite Pos2Z.inj_pow in H1. lia.
Qed.

Lemma truncate_SF_of_pos s q :
  Z.pos (digits2_pos q) <= 53 ->
  match SF_of_pos s q with
  | S754_finite s' m e => s' = s /\ Z.shiftl (Z.pos m) e = Z.pos q /\ e <= 0
                          /\ forall ez, ez <= e ->
                               Z.pos (fst (shl_align m e ez)) = Z.pos q * 2 ^ (- ez)
  | _ => False
  end.
Proof.
  intros Hd. unfold SF_of_pos. destruct (53 - Z.pos (digits2_pos q)) as [|d|d] eqn:E.
  - split; [reflexivity|]. split; [reflexivity|]. split; [lia|].
    intros ez Hez. unfold shl_align. destruct (ez - 0) as [|n|n] eqn:En; try lia.
    + replace ez with 0 by lia. cbn [fst Z.opp]. lia.
    + cbn [fst]. rewrite iter_xO_pow2. f_equal. f_equal. lia.
  - split; [reflexivity|]. split; [|split; [lia|]].
    + rewrite iter_xO_pow2. rewrite <- Z.shiftr_opp_r, Z.opp_involutive.
      rewrite Z.shiftr_div_pow2 by lia. apply Z.div_mul. lia.
    + intros ez Hez. unfold shl_align. destruct (ez - - Z.pos d) as [|n|n] eqn:En; try lia.
      * cbn [fst]. rewrite iter_xO_pow2. f_equal. f_equal. lia.
      * cbn [fst]. rewrite !iter_xO_pow2. rewrite <- Z.mul_assoc, <- Z.pow_add_r by lia.
        f_equal. f_equal. lia.
  - lia.
Qed.

Lemma Prim2SF_number_of_Z z :
  - 2 ^ 53 < z < 2 ^ 53 -> Prim2SF (number_of_Z z) = SF_of_Z z.
Proof.
  intros Hz. unfold number_of_Z.
  assert (Hpos : forall q, Z.pos q < 2 ^ 53 ->
                 Prim2SF (of_uint63 (of_Z (Z.pos q))) = SF_of_pos false q).
  { intros q Hq. rewrite of_uint63_spec, of_Z_spec.
    rewrite Z.mod_small by (change wB with (2 ^ 63); lia).
    change (binary_normalize prec emax (Z.pos q) 0 false)
      with (binary_round prec emax false (Pos.shiftl q 0) 0).
    apply binary_round_integer; [apply digits2_bound; exact Hq|reflexivity]. }
  destruct z as [|q|q].
  - reflexivity.
  - simpl. apply Hpos. lia.
  - replace (Z.neg q <? 0) with true by reflexivity. rewrite FloatAxioms.opp_spec.
    change (- Z.neg q) with (Z.pos q). rewrite Hpos by lia. simpl.
    unfold SF_of_pos. destruct (53 - Z.pos (digits2_pos q)); reflexivity.
Qed.

Lemma truncate_number_of_Z z :
  - 2 ^ 53 < z < 2 ^ 53 -> truncate (number_of_Z z) = z.
Proof.
  intros Hz. unfold truncate. rewrite Prim2SF_number_of_Z by exact Hz.
  destruct z as [|q|q]; [reflexivity| |];
    simpl SF_of_Z;
    [pose proof (truncate_SF_of_pos false q) as H|pose proof (truncate_SF_of_pos true q) as H];
    (destruct (SF_of_pos _ q) as [| | |s' m e];
     [destruct H|destruct H|destruct H|]; try (apply digits2_bound; lia));
    destruct H as (-> & H & _); try (apply digits2_bound; lia);
    rewrite H; reflexivity.
Qed.

Lemma binary_normalize_integer z (k : N) e :
  - 2 ^ 53 < z < 2 ^ 53 -> e + Z.of_N k = 0 ->
  binary_normalize prec emax (z * 2 ^ Z.of_N k) e false = SF_of_Z z.
Proof.
  intros Hz He. destruct z as [|q|q].
  - reflexivity.
  - rewrite <- shiftl_pos_pow2. cbn [binary_normalize SF_of_Z].
    apply binary_round_integer; [apply digits2_bound; lia|exact He].
  - change (Z.neg q) with (- Z.pos q). rewrite Z.mul_opp_l, <- shiftl_pos_pow2.
    cbn [Z.opp binary_normalize SF_of_Z].
    apply binary_round_integer; [apply digits2_bound; lia|exact He].
Qed.

Lemma SFsub_of_pos sa qa sb qb :
  Z.pos qa < 2 ^ 53 -> Z.pos qb < 2 ^ 53 ->
  - 2 ^ 53 < SF_sign_value sa qa - SF_sign_value sb qb < 2 ^ 53 ->
  SFsub prec emax (SF_of_pos sa qa) (SF_of_pos sb qb)
  = SF_of_Z (SF_sign_value sa qa - SF_sign_value sb qb).
Proof.
  intros Ha Hb Hab.
  pose proof (truncate_SF_of_pos sa qa (digits2_bound qa Ha)) as HA.
  pose proof (truncate_SF_of_pos sb qb (digits2_bound qb Hb)) as HB.
  destruct (SF_of_pos sa qa) as [| | |sa' ma ea]; try contradiction.
  destruct (SF_of_pos sb qb) as [| | |sb' mb eb]; try contradiction.
  destruct HA as (-> & _ & Hea & HA), HB as (-> & _ & Heb & HB).
  cbn [SFsub]. rewrite HA, HB by lia.
  set (ez := Z.min ea eb).
  replace (cond_Zopp sa (Z.pos qa * 2 ^ (- ez)) - cond_Zopp sb (Z.pos qb * 2 ^ (- ez)))
    with ((SF_sign_value sa qa - SF_sign_value sb qb) * 2 ^ Z.of_N (Z.to_N (- ez))).
  - apply binary_normalize_integer; [exact Hab|lia].
  - rewrite Z2N.id by lia. destruct sa, sb; unfold cond_Zopp, SF_sign_value; lia.
Qed.

Lemma SFsub_of_Z a b :
  - 2 ^ 53 < a < 2 ^ 53 -> - 2 ^ 53 < b < 2 ^ 53 -> - 2 ^ 53 < a - b < 2 ^ 53 ->
  SFsub prec emax (SF_of_Z a) (SF_of_Z b) = SF_of_Z (a - b).
Proof.
  intros Ha Hb Hab.
  assert (Hfin : forall s q, exists m e, SF_of_pos s q = S754_finite s m e).
  { intros s q. unfold SF_of_pos. destruct (53 - Z.pos (digits2_pos q)); eauto. }
  destruct a as [|qa|qa], b as [|qb|qb]; cbn [SF_of_Z]; try reflexivity.
  - destruct (Hfin false qb) as (m & e & E). rewrite E. cbn [SFsub negb].
    destruct (Hfin true qb) as (m' & e' & E').
    change (0 - Z.pos qb) with (Z.neg qb). cbn [SF_of_Z]. rewrite E'.
    unfold SF_of_pos in E, E'. destruct (53 - Z.pos (digits2_pos qb)); congruence.
  - destruct (Hfin true qb) as (m & e & E). rewrite E. cbn [SFsub negb].
    destruct (Hfin false qb) as (m' & e' & E').
    change (0 - Z.neg qb) with (Z.pos qb). cbn [SF_of_Z]. rewrite E'.
    unfold SF_of_pos in E, E'. destruct (53 - Z.pos (digits2_pos qb)); congruence.
  - destruct (Hfin false qa) as (m & e & E). rewrite E. cbn [SFsub]. rewrite <- E.
    rewrite Z.sub_0_r. reflexivity.
  - apply (SFsub_of_pos false qa false qb); [lia|lia|exact Hab].
  - apply (SFsub_of_pos false qa true qb); [lia|lia|exact Hab].
  - destruct (Hfin true qa) as (m & e & E). rewrite E. cbn [SFsub]. rewrite <- E.
    rewrite Z.sub_0_r. reflexivity.
  - apply (SFsub_of_pos true qa false qb); [lia|lia|exact Hab].
  - apply (SFsub_of_pos true qa true qb); [lia|lia|exact Hab].
Qed.

Lemma sub_number_of_Z a b :
  - 2 ^ 53 < a < 2 ^ 53 -> - 2 ^ 53 < b < 2 ^ 53 -> - 2 ^ 53 < a - b < 2 ^ 53 ->
  (number_of_Z a - number_of_Z b)%float = number_of_Z (a - b).
Proof.
  intros Ha Hb Hab. apply Prim2SF_inj.
  rewrite FloatAxioms.sub_spec, !Prim2SF_number_of_Z by assumption.
  apply SFsub_of_Z; assumption.
Qed.

(** ** The order of doubles *)

Lemma SFcompare_antisym x y :
  SFcompare y x = option_map CompOpp (SFcompare x y).
Proof.
  destruct x as [sx|sx| |sx mx ex], y as [sy|sy| |sy my ey];
    try (destruct sx); try (destruct sy); try reflexivity;
    cbn [SFcompare option_map]; f_equal;
    change (Pos.compare_cont Eq) with Pos.compare;
    rewrite (Z.compare_antisym ex ey), (Pos.compare_antisym mx my);
    destruct (ex ?= ey); destruct (mx ?= my)%positive; reflexivity.
Qed.

Lemma SFcompare_refl x : SF_is_nan x = false -> SFcompare x x = Some Eq.
Proof.
  destruct x as [s|s| |s m e]; try discriminate; intros _; destruct s; try reflexivity;
    cbn [SFcompare]; rewrite Z.compare_refl;
    change (Pos.compare_cont Eq m m) with (Pos.compare m m); rewrite Pos.compare_refl;
    reflexivity.
Qed.

Lemma SFcompare_none x y :
  SFcompare x y = None <-> SF_is_nan x = true \/ SF_is_nan y = true.
Proof.
  destruct x as [sx|sx| |sx mx ex], y as [sy|sy| |sy my ey]; cbn [SFcompare SF_is_nan];
    try (split; [intros H; try discriminate; auto|intros [H|H]; try discriminate; reflexivity]).
Qed.

Lemma SFcompare_lt_le_trans x y z :
  SFcompare x y = Some Lt ->
  (SFcompare y z = Some Lt \/ SFcompare y z = Some Eq) ->
  SFcompare x z = Some Lt.
Proof.
  destruct x as [sx|sx| |sx mx ex], y as [sy|sy| |sy my ey], z as [sz|sz| |sz mz ez];
    try (destruct sx); try (destruct sy); try (destruct sz);
    cbn [SFcompare]; intros H1 [H2|H2]; try discriminate; try reflexivity;
    revert H1 H2;
    change (Pos.compare_cont Eq) with Pos.compare;
    repeat match goal with
           | |- context [Z.compare ?a ?b] => destruct (Z.compare_spec a b)
           | |- context [Pos.compare ?a ?b] => destruct (Pos.compare_spec a b)
           end; cbn [CompOpp]; intros; try discriminate; try reflexivity; subst; lia.
Qed.

Lemma float_is_nan_spec x : is_nan x = SF_is_nan (Prim2SF x).
Proof.
  unfold is_nan. rewrite FloatAxioms.eqb_spec. unfold SFeqb.
  destruct (SF_is_nan (Prim2SF x)) eqn:E.
  - replace (SFcompare (Prim2SF x) (Prim2SF x)) with (@None comparison); [reflexivity|].
    symmetry. apply SFcompare_none. auto.
  - rewrite SFcompare_refl by exact E. reflexivity.
Qed.

Lemma float_leb_not_gt x y : (x <=? y)%float = true -> (y <? x)%float = false.
Proof.
  rewrite FloatAxioms.ltb_spec, FloatAxioms.leb_spec. unfold SFltb, SFleb. rewrite (SFcompare_antisym (Prim2SF x)).
  destruct (SFcompare _ _) as [[]|]; simpl; congruence.
Qed.

Lemma float_not_ltb_ge x y :
  is_nan x = false -> is_nan y = false -> (x <? y)%float = false -> (y <=? x)%float = true.
Proof.
  rewrite !float_is_nan_spec, FloatAxioms.ltb_spec, FloatAxioms.leb_spec. unfold SFltb, SFleb. intros Hx Hy.
  rewrite (SFcompare_antisym (Prim2SF x)).
  destruct (SFcompare (Prim2SF x) (Prim2SF y)) as [[]|] eqn:E; simpl; try congruence.
  apply SFcompare_none in E. destruct E; congruence.
Qed.

Lemma float_leb_refl x : is_nan x = false -> (x <=? x)%float = true.
Proof.
  rewrite float_is_nan_spec, FloatAxioms.leb_spec. unfold SFleb. intros Hx.
  rewrite SFcompare_refl by exact Hx. reflexivity.
Qed.

Lemma float_ltb_irrefl x : (x <? x)%float = false.
Proof.
  rewrite FloatAxioms.ltb_spec. unfold SFltb.
  destruct (SF_is_nan (Prim2SF x)) eqn:E.
  - replace (SFcompare (Prim2SF x) (Prim2SF x)) with (@None comparison); [reflexivity|].
    symmetry. apply SFcompare_none. auto.
  - rewrite SFcompare_refl by exact E. reflexivity.
Qed.

Lemma float_ltb_not_nan x y : (x <? y)%float = true -> is_nan x = false /\ is_nan y = false.
Proof.
  rewrite !float_is_nan_spec, FloatAxioms.ltb_spec. unfold SFltb. intros H.
  destruct (SF_is_nan (Prim2SF x)) eqn:Ex, (SF_is_nan (Prim2SF y)) eqn:Ey; auto;
    replace (SFcompare (Prim2SF x) (Prim2SF y)) with (@None comparison) in H;
    try discriminate; symmetry; apply SFcompare_none; auto.
Qed.

Lemma float_leb_not_nan x y : (x <=? y)%float = true -> is_nan x = false /\ is_nan y = false.
Proof.
  rewrite !float_is_nan_spec, FloatAxioms.leb_spec. unfold SFleb. intros H.
  destruct (SF_is_nan (Prim2SF x)) eqn:Ex, (SF_is_nan (Prim2SF y)) eqn:Ey; auto;
    replace (SFcompare (Prim2SF x) (Prim2SF y)) with (@None comparison) in H;
    try discriminate; symmetry; apply SFcompare_none; auto.
Qed.

Lemma float_nan_ltb_l x y : is_nan x = true -> (x <? y)%float = false.
Proof.
  intros Hx. destruct (x <? y)%float eqn:E; [|reflexivity].
  apply float_ltb_not_nan in E. destruct E; congruence.
Qed.

Lemma float_nan_ltb_r x y : is_nan y = true -> (x <? y)%float = false.
Proof.
  intros Hx. destruct (x <? y)%float eqn:E; [|reflexivity].
  apply float_ltb_not_nan in E. destruct E; congruence.
Qed.

Lemma float_ltb_leb_trans x y z :
  (x <? y)%float = true -> (y <=? z)%float = true -> (x <? z)%float = true.
Proof.
  rewrite !FloatAxioms.ltb_spec, FloatAxioms.leb_spec. unfold SFltb, SFleb. intros H1 H2.
  rewrite (SFcompare_lt_le_trans (Prim2SF x) (Prim2SF y) (Prim2SF z)); [reflexivity| |].
  - destruct (SFcompare (Prim2SF x) (Prim2SF y)) as [[]|]; congruence.
  - destruct (SFcompare (Prim2SF y) (Prim2SF z)) as [[]|]; try discriminate; auto.
Qed.

(** ** limitInto and the range tests *)

(** With bounds in order, a value that is not [NaN] is brought within
    them: the closed range test holds of the result. *)
Theorem limitInto_between v min max :
  is_nan v = false -> (min <=? max)%float = true ->
  isValueBetweenEquals (limitInto v min max) min max = true.
Proof.
  intros Hv Hmm. destruct (float_leb_not_nan _ _ Hmm) as [Hmin Hmax].
  unfold limitInto, isValueBetweenEquals.
  destruct (v <? min)%float eqn:E1.
  - rewrite (float_leb_not_gt _ _ Hmm). rewrite float_leb_refl by exact Hmin. exact Hmm.
  - destruct (max <? v)%float eqn:E2.
    + rewrite Hmm. apply float_leb_refl. exact Hmax.
    + rewrite (float_not_ltb_ge _ _ Hv Hmin E1), (float_not_ltb_ge _ _ Hmax Hv E2). reflexivity.
Qed.

Lemma limitInto_between_witness :
  limitInto 7 0 5 = 5%float /\ isValueBetweenEquals (limitInto 7 0 5) 0 5 = true.
Proof. split; [reflexivity|]. apply (limitInto_between 7 0 5); reflexivity. Defined.

(** With bounds in order, the values [limitInto] returns as they are, [NaN]
    apart, are those within the bounds. *)
Theorem limitInto_fixed v min max :
  is_nan v = false -> (min <=? max)%float = true ->
  (limitInto v min max = v <-> isValueBetweenEquals v min max = true).
Proof.
  intros Hv Hmm. destruct (float_leb_not_nan _ _ Hmm) as [Hmin Hmax].
  unfold limitInto, isValueBetweenEquals. split.
  - destruct (v <? min)%float eqn:E1.
    + rewrite (float_leb_not_gt _ _ Hmm). intros <-. rewrite float_ltb_irrefl in E1. discriminate.
    + destruct (max <? v)%float eqn:E2.
      * intros <-. rewrite float_ltb_irrefl in E2. discriminate.
      * intros _. rewrite (float_not_ltb_ge _ _ Hv Hmin E1), (float_not_ltb_ge _ _ Hmax Hv E2).
        reflexivity.
  - intros H. apply andb_true_iff in H. destruct H as [H1 H2].
    rewrite (float_leb_not_gt _ _ H1), (float_leb_not_gt _ _ H2). reflexivity.
Qed.

Lemma limitInto_fixed_witness :
  isValueBetweenEquals 3 0 5 = true /\ limitInto 3 0 5 = 3%float.
Proof. split; [reflexivity|]. apply (limitInto_fixed 3 0 5); reflexivity. Defined.

(** [NaN] is not limited: it comes back, whatever the bounds. *)
Theorem limitInto_nan v min max : is_nan v = true -> limitInto v min max = v.
Proof.
  intros Hv. unfold limitInto. rewrite (float_nan_ltb_l v min Hv), (float_nan_ltb_r max v Hv).
  reflexivity.
Qed.

Lemma limitInto_nan_witness : limitInto nan 0 5 = nan.
Proof. apply (limitInto_nan nan 0 5). reflexivity. Defined.

(** With the bounds out of order ([max < min]) every value that is not
    [NaN] gives [max]: the upper bound is applied last. *)
Theorem limitInto_inverted v min max :
  is_nan v = false -> (max <? min)%float = true -> limitInto v min max = max.
Proof.
  intros Hv Hmm. destruct (float_ltb_not_nan _ _ Hmm) as [Hmax Hmin].
  unfold limitInto. destruct (v <? min)%float eqn:E1.
  - rewrite Hmm. reflexivity.
  - rewrite (float_ltb_leb_trans max min v Hmm (float_not_ltb_ge _ _ Hv Hmin E1)). reflexivity.
Qed.

Lemma limitInto_inverted_witness :
  limitInto 3 5 0 = 0%float /\ limitInto 7 5 0 = 0%float.
Proof.
  split; [apply (limitInto_inverted 3 5 0)|apply (limitInto_inverted 7 5 0)]; reflexivity.
Defined.

(** The open range test is the closed one without the two bounds. *)
Theorem isValueBetween_endpoints v min max :
  isValueBetweenNotEquals v min max
  = isValueBetweenEquals v min max && negb (v =? min)%float && negb (v =? max)%float.
Proof.
  unfold isValueBetweenNotEquals, isValueBetweenEquals.
  rewrite !FloatAxioms.ltb_spec, !FloatAxioms.leb_spec, !FloatAxioms.eqb_spec. unfold SFltb, SFleb, SFeqb.
  rewrite (SFcompare_antisym (Prim2SF min) (Prim2SF v)).
  destruct (SFcompare (Prim2SF min) (Prim2SF v)) as [[]|],
           (SFcompare (Prim2SF v) (Prim2SF max)) as [[]|]; reflexivity.
Qed.

(** ** The 32-bit conversions *)

Lemma ToUint32_range x : 0 <= ToUint32 x < 2 ^ 32.
Proof. unfold ToUint32. apply Z.mod_pos_bound. lia. Qed.

Lemma ToInt32_range x : - 2 ^ 31 <= ToInt32 x < 2 ^ 31.
Proof.
  unfold ToInt32. pose proof (ToUint32_range x).
  destruct (ToUint32 x <? 2 ^ 31) eqn:E; [apply Z.ltb_lt in E|apply Z.ltb_ge in E]; lia.
Qed.

Lemma ToInt32_mod x : ToInt32 x mod 2 ^ 32 = ToUint32 x.
Proof.
  unfold ToInt32. pose proof (ToUint32_range x).
  destruct (ToUint32 x <? 2 ^ 31).
  - apply Z.mod_small. lia.
  - replace (ToUint32 x - 2 ^ 32) with (ToUint32 x + (-1) * 2 ^ 32) by lia.
    rewrite Z.mod_add by lia. apply Z.mod_small. lia.
Qed.

Lemma ToUint32_number_of_Z z :
  - 2 ^ 53 < z < 2 ^ 53 -> ToUint32 (number_of_Z z) = z mod 2 ^ 32.
Proof. intros Hz. unfold ToUint32. rewrite truncate_number_of_Z by exact Hz. reflexivity. Qed.

Lemma ToInt32_number_of_Z z :
  - 2 ^ 53 < z < 2 ^ 53 -> ToInt32 (number_of_Z z) = wrap_int32 z.
Proof. intros Hz. unfold ToInt32. rewrite ToUint32_number_of_Z by exact Hz. reflexivity. Qed.

Lemma wrap_int32_small z : - 2 ^ 31 <= z < 2 ^ 31 -> wrap_int32 z = z.
Proof.
  intros Hz. unfold wrap_int32. destruct (Z.neg_nonneg_cases z) as [Hn|Hn].
  - assert (Hm : z mod 2 ^ 32 = z + 2 ^ 32).
    { replace z with (z + 2 ^ 32 + (-1) * 2 ^ 32) at 1 by lia.
      rewrite Z.mod_add by lia. apply Z.mod_small. lia. }
    rewrite Hm. destruct (z + 2 ^ 32 <? 2 ^ 31) eqn:E; [apply Z.ltb_lt in E|]; lia.
  - rewrite Z.mod_small by lia.
    destruct (z <? 2 ^ 31) eqn:E; [|apply Z.ltb_ge in E]; lia.
Qed.

Lemma one_is_number : 1%float = number_of_Z 1.
Proof. reflexivity. Qed.

Lemma SFcompare_eq_finite s m e y :
  SFcompare (S754_finite s m e) y = Some Eq -> y = S754_finite s m e.
Proof.
  destruct y as [sy|sy| |sy my ey]; cbn [SFcompare]; try discriminate.
  - destruct s, sy; discriminate.
  - destruct s, sy; discriminate.
  - destruct s, sy; try discriminate;
      change (Pos.compare_cont Eq) with Pos.compare;
      destruct (Z.compare_spec e ey); try discriminate;
      destruct (Pos.compare_spec m my); try discriminate; subst; reflexivity.
Qed.

Lemma SF_of_pos_finite s q : exists m e, SF_of_pos s q = S754_finite s m e.
Proof. unfold SF_of_pos. destruct (53 - Z.pos (digits2_pos q)); eauto. Qed.

Lemma eqb_number_of_Z z x :
  - 2 ^ 53 < z < 2 ^ 53 -> z <> 0 ->
  (number_of_Z z =? x)%float = true -> x = number_of_Z z.
Proof.
  intros Hz Hnz. rewrite FloatAxioms.eqb_spec, Prim2SF_number_of_Z by exact Hz.
  unfold SFeqb. intros H. apply Prim2SF_inj. rewrite Prim2SF_number_of_Z by exact Hz.
  destruct z as [|q|q]; [congruence| |]; cbn [SF_of_Z] in *.
  - destruct (SF_of_pos_finite false q) as (m & e & E). rewrite E in *.
    apply SFcompare_eq_finite.
    destruct (SFcompare _ _) as [[]|]; congruence.
  - destruct (SF_of_pos_finite true q) as (m & e & E). rewrite E in *.
    apply SFcompare_eq_finite.
    destruct (SFcompare _ _) as [[]|]; congruence.
Qed.

Lemma SFcompare_of_Z_zero z : SFcompare (S754_zero false) (SF_of_Z z) = Some (0 ?= z).
Proof.
  destruct z as [|q|q]; cbn [SF_of_Z].
  - reflexivity.
  - destruct (SF_of_pos_finite false q) as (m & e & E). rewrite E. reflexivity.
  - destruct (SF_of_pos_finite true q) as (m & e & E). rewrite E. reflexivity.
Qed.

Lemma ltb_zero_number z :
  - 2 ^ 53 < z < 2 ^ 53 -> (0 <? number_of_Z z)%float = (0 <? z).
Proof.
  intros Hz. rewrite FloatAxioms.ltb_spec, Prim2SF_number_of_Z by exact Hz.
  change (Prim2SF 0) with (S754_zero false). unfold SFltb.
  rewrite SFcompare_of_Z_zero. unfold Z.ltb. destruct (0 ?= z); reflexivity.
Qed.

Lemma ltb_number_zero z :
  - 2 ^ 53 < z < 2 ^ 53 -> (number_of_Z z <? 0)%float = (z <? 0).
Proof.
  intros Hz. rewrite FloatAxioms.ltb_spec, Prim2SF_number_of_Z by exact Hz.
  change (Prim2SF 0) with (S754_zero false). unfold SFltb.
  rewrite (SFcompare_antisym (S754_zero false)), SFcompare_of_Z_zero.
  unfold Z.ltb. rewrite (Z.compare_antisym 0 z). destruct (0 ?= z); reflexivity.
Qed.

Lemma eqb_number_zero z :
  - 2 ^ 53 < z < 2 ^ 53 -> (number_of_Z z =? 0)%float = (z =? 0).
Proof.
  intros Hz. rewrite FloatAxioms.eqb_spec, Prim2SF_number_of_Z by exact Hz.
  change (Prim2SF 0) with (S754_zero false). unfold SFeqb.
  rewrite (SFcompare_antisym (S754_zero false)), SFcompare_of_Z_zero.
  destruct z; reflexivity.
Qed.

(** ** isPowerOfTwo *)

Lemma land_double_odd a b : Z.land (2 * a) (2 * b + 1) = 2 * Z.land a b.
Proof.
  apply Z.bits_inj'. intros n Hn. rewrite Z.land_spec.
  destruct (Z.eq_dec n 0) as [->|Hne].
  - rewrite !Z.testbit_even_0. reflexivity.
  - replace n with (Z.succ (n - 1)) by lia.
    rewrite !Z.testbit_even_succ, Z.testbit_odd_succ, Z.land_spec by lia. reflexivity.
Qed.

Lemma land_odd_double a b : Z.land (2 * a + 1) (2 * b) = 2 * Z.land a b.
Proof. rewrite Z.land_comm, land_double_odd, Z.land_comm. reflexivity. Qed.

Lemma land_pred_zero p :
  Z.land (Z.pos p) (Z.pos p - 1) = 0 -> exists k, 0 <= k /\ Z.pos p = 2 ^ k.
Proof.
  induction p as [p IH|p IH|]; intros H.
  - exfalso. replace (Z.pos p~1) with (2 * Z.pos p + 1) in H by lia.
    replace (2 * Z.pos p + 1 - 1) with (2 * Z.pos p) in H by lia.
    rewrite land_odd_double, Z.land_diag in H. lia.
  - replace (Z.pos p~0) with (2 * Z.pos p) in H by lia.
    replace (2 * Z.pos p - 1) with (2 * (Z.pos p - 1) + 1) in H by lia.
    rewrite land_double_odd in H.
    destruct IH as (k & Hk & E); [lia|].
    exists (Z.succ k). split; [lia|]. rewrite Z.pow_succ_r by lia. lia.
  - exists 0. split; [lia|reflexivity].
Qed.

Lemma land_pow2_pred k : 0 <= k -> Z.land (2 ^ k) (2 ^ k - 1) = 0.
Proof.
  intros Hk. replace (2 ^ k - 1) with (Z.ones k) by (rewrite Z.ones_equiv; lia).
  rewrite Z.land_ones by exact Hk. apply Z.mod_same. lia.
Qed.

Lemma is_nan_number_of_Z z : - 2 ^ 53 < z < 2 ^ 53 -> is_nan (number_of_Z z) = false.
Proof.
  intros Hz. rewrite float_is_nan_spec, Prim2SF_number_of_Z by exact Hz.
  destruct z as [|q|q]; cbn [SF_of_Z]; [reflexivity| |].
  - destruct (SF_of_pos_finite false q) as (m & e & ->). reflexivity.
  - destruct (SF_of_pos_finite true q) as (m & e & ->). reflexivity.
Qed.

Lemma is_finite_number_of_Z z : - 2 ^ 53 < z < 2 ^ 53 -> is_finite (number_of_Z z) = true.
Proof.
  intros Hz. unfold is_finite. rewrite is_nan_number_of_Z by exact Hz.
  unfold is_infinity. rewrite FloatAxioms.eqb_spec, abs_spec, Prim2SF_number_of_Z by exact Hz.
  change (Prim2SF infinity) with (S754_infinity false).
  destruct z as [|q|q]; cbn [SF_of_Z]; [reflexivity| |].
  - destruct (SF_of_pos_finite false q) as (m & e & ->). reflexivity.
  - destruct (SF_of_pos_finite true q) as (m & e & ->). reflexivity.
Qed.

Lemma eqb_number_refl z : - 2 ^ 53 < z < 2 ^ 53 -> (number_of_Z z =? number_of_Z z)%float = true.
Proof.
  intros Hz. pose proof (is_nan_number_of_Z z Hz) as H. unfold is_nan in H.
  destruct (number_of_Z z =? number_of_Z z)%float; [reflexivity|discriminate].
Qed.

Lemma ToInt32_zero : ToInt32 0 = 0.
Proof. reflexivity. Qed.

Lemma pow2_lt_mono k : 0 <= k <= 30 -> 0 < 2 ^ k < 2 ^ 31.
Proof. intros Hk. split; [apply Z.pow_pos_nonneg; lia|apply Z.pow_lt_mono_r; lia]. Qed.

Lemma isPowerOfTwo_only x :
  isPowerOfTwo x = true -> exists k, 0 <= k <= 30 /\ x = number_of_Z (2 ^ k).
Proof.
  unfold isPowerOfTwo, bitwise_or, bitwise_and. rewrite ToInt32_zero, Z.lor_0_r.
  pose proof (ToInt32_range x) as Hr. set (n := ToInt32 x) in *.
  assert (Hn : - 2 ^ 53 < n < 2 ^ 53) by lia.
  destruct (number_of_Z n =? x)%float eqn:Heq; [|discriminate].
  simpl negb. cbn [orb].
  destruct (is_nan (number_of_Z n) || negb (is_finite (number_of_Z n))); [discriminate|].
  rewrite ltb_zero_number by exact Hn. intros H. apply andb_true_iff in H.
  destruct H as [Hpos H]. apply Z.ltb_lt in Hpos.
  apply eqb_number_of_Z in Heq; [|exact Hn|lia].
  rewrite one_is_number, sub_number_of_Z in H by lia.
  rewrite !ToInt32_number_of_Z, !wrap_int32_small in H by lia.
  assert (Hl : 0 <= Z.land n (n - 1) < 2 ^ 31).
  { split; [apply Z.land_nonneg; lia|].
    destruct (Z.eq_dec (Z.land n (n - 1)) 0) as [->|Hne]; [lia|].
    assert (0 <= Z.land n (n - 1)) by (apply Z.land_nonneg; lia).
    apply Z.log2_lt_pow2; [lia|].
    pose proof (Z.log2_land n (n - 1) ltac:(lia) ltac:(lia)).
    assert (Z.log2 n < 31) by (apply Z.log2_lt_pow2; lia). lia. }
  rewrite eqb_number_zero in H by lia. apply Z.eqb_eq in H.
  destruct n as [|p|p]; try lia.
  destruct (land_pred_zero p H) as (k & Hk & E).
  exists k. split; [|rewrite <- E; exact Heq].
  split; [exact Hk|]. destruct (Z.le_gt_cases k 30) as [Hle|Hgt]; [exact Hle|].
  exfalso. assert (2 ^ 31 <= 2 ^ k) by (apply Z.pow_le_mono_r; lia). lia.
Qed.

Lemma isPowerOfTwo_pow2 k : 0 <= k <= 30 -> isPowerOfTwo (number_of_Z (2 ^ k)) = true.
Proof.
  intros Hk. pose proof (pow2_lt_mono k Hk) as Hp.
  unfold isPowerOfTwo, bitwise_or, bitwise_and. rewrite ToInt32_zero, Z.lor_0_r.
  rewrite ToInt32_number_of_Z, wrap_int32_small by lia.
  rewrite eqb_number_refl, is_nan_number_of_Z, is_finite_number_of_Z by lia.
  cbn [negb orb]. rewrite ltb_zero_number by lia.
  rewrite one_is_number, sub_number_of_Z by lia.
  rewrite !ToInt32_number_of_Z, !wrap_int32_small by lia.
  rewrite land_pow2_pred by lia.
  replace (0 <? 2 ^ k) with true by (symmetry; apply Z.ltb_lt; lia).
  reflexivity.
Qed.

(** [isPowerOfTwo] holds of the 31 powers of two up to [2^30], and of no
    other number. *)
Theorem isPowerOfTwo_iff x :
  isPowerOfTwo x = true <-> exists k, 0 <= k <= 30 /\ x = number_of_Z (2 ^ k).
Proof.
  split; [apply isPowerOfTwo_only|]. intros (k & Hk & ->). apply isPowerOfTwo_pow2, Hk.
Qed.

(** ** power2Roundup *)

Lemma SFadd_of_pos sa qa sb qb :
  Z.pos qa < 2 ^ 53 -> Z.pos qb < 2 ^ 53 ->
  - 2 ^ 53 < SF_sign_value sa qa + SF_sign_value sb qb < 2 ^ 53 ->
  SFadd prec emax (SF_of_pos sa qa) (SF_of_pos sb qb)
  = SF_of_Z (SF_sign_value sa qa + SF_sign_value sb qb).
Proof.
  intros Ha Hb Hab.
  pose proof (truncate_SF_of_pos sa qa (digits2_bound qa Ha)) as HA.
  pose proof (truncate_SF_of_pos sb qb (digits2_bound qb Hb)) as HB.
  destruct (SF_of_pos sa qa) as [| | |sa' ma ea]; try contradiction.
  destruct (SF_of_pos sb qb) as [| | |sb' mb eb]; try contradiction.
  destruct HA as (-> & _ & Hea & HA), HB as (-> & _ & Heb & HB).
  cbn [SFadd]. rewrite HA, HB by lia.
  set (ez := Z.min ea eb).
  replace (cond_Zopp sa (Z.pos qa * 2 ^ (- ez)) + cond_Zopp sb (Z.pos qb * 2 ^ (- ez)))
    with ((SF_sign_value sa qa + SF_sign_value sb qb) * 2 ^ Z.of_N (Z.to_N (- ez))).
  - apply binary_normalize_integer; [exact Hab|lia].
  - rewrite Z2N.id by lia. destruct sa, sb; unfold cond_Zopp, SF_sign_value; lia.
Qed.

Lemma SFadd_of_Z a b :
  - 2 ^ 53 < a < 2 ^ 53 -> - 2 ^ 53 < b < 2 ^ 53 -> - 2 ^ 53 < a + b < 2 ^ 53 ->
  SFadd prec emax (SF_of_Z a) (SF_of_Z b) = SF_of_Z (a + b).
Proof.
  intros Ha Hb Hab.
  destruct a as [|qa|qa], b as [|qb|qb]; cbn [SF_of_Z]; try reflexivity;
    try (match goal with
         | |- SFadd _ _ (S754_zero _) (SF_of_pos ?s ?q) = _ =>
           destruct (SF_of_pos_finite s q) as (m & e & E); rewrite E; cbn [SFadd];
           rewrite <- E; reflexivity
         | |- SFadd _ _ (SF_of_pos ?s ?q) (S754_zero _) = _ =>
           destruct (SF_of_pos_finite s q) as (m & e & E); rewrite E; cbn [SFadd];
           rewrite <- E; reflexivity
         end).
  - apply (SFadd_of_pos false qa false qb); [lia|lia|exact Hab].
  - apply (SFadd_of_pos false qa true qb); [lia|lia|exact Hab].
  - apply (SFadd_of_pos true qa false qb); [lia|lia|exact Hab].
  - apply (SFadd_of_pos true qa true qb); [lia|lia|exact Hab].
Qed.

Lemma add_number_of_Z a b :
  - 2 ^ 53 < a < 2 ^ 53 -> - 2 ^ 53 < b < 2 ^ 53 -> - 2 ^ 53 < a + b < 2 ^ 53 ->
  (number_of_Z a + number_of_Z b)%float = number_of_Z (a + b).
Proof.
  intros Ha Hb Hab. apply Prim2SF_inj.
  rewrite FloatAxioms.add_spec, !Prim2SF_number_of_Z by assumption.
  apply SFadd_of_Z; assumption.
Qed.

Lemma spread_start m : spread m 1 m.
Proof.
  intros i Hi. split.
  - intros H. exists 0. split; [lia|]. rewrite Z.add_0_r. exact H.
  - intros (t & Ht & H). replace (i + t) with i in H by lia. exact H.
Qed.

Lemma spread_smear m w a : 0 <= w -> spread m w a -> spread m (2 * w) (smear w a).
Proof.
  intros Hw Ha i Hi. unfold smear. rewrite Z.lor_spec, Z.shiftr_spec by lia.
  rewrite orb_true_iff, (Ha i Hi), (Ha (i + w)) by lia. split.
  - intros [(t & Ht & H)|(t & Ht & H)].
    + exists t. split; [lia|exact H].
    + exists (w + t). split; [lia|]. rewrite Z.add_assoc. exact H.
  - intros (t & Ht & H). destruct (Z.lt_ge_cases t w) as [Hlt|Hge].
    + left. exists t. split; [lia|exact H].
    + right. exists (t - w). split; [lia|]. replace (i + w + (t - w)) with (i + t) by lia.
      exact H.
Qed.

Lemma smear32_ones u : 0 < u < 2 ^ 32 -> smear32 u = Z.ones (Z.log2 u + 1).
Proof.
  intros Hu.
  assert (Hs : spread u 32 (smear32 u)).
  { unfold smear32.
    apply (spread_smear u 16); [lia|]. apply (spread_smear u 8); [lia|].
    apply (spread_smear u 4); [lia|]. apply (spread_smear u 2); [lia|].
    apply (spread_smear u 1); [lia|]. apply spread_start. }
  assert (Hl : 0 <= Z.log2 u < 32).
  { split; [apply Z.log2_nonneg|apply Z.log2_lt_pow2; lia]. }
  apply Z.bits_inj'. intros i Hi. rewrite Z.testbit_ones_nonneg by lia.
  apply eq_true_iff_eq. rewrite (Hs i Hi), Z.ltb_lt. split.
  - intros (t & Ht & H). destruct (Z.lt_ge_cases i (Z.log2 u + 1)) as [Hlt|Hge]; [exact Hlt|].
    rewrite Z.bits_above_log2 in H by lia. discriminate.
  - intros Hlt. exists (Z.log2 u - i). split; [lia|].
    replace (i + (Z.log2 u - i)) with (Z.log2 u) by lia. apply Z.bit_log2. lia.
Qed.

Lemma land_nonneg_bound x y : 0 <= x < 2 ^ 31 -> 0 <= Z.land x y < 2 ^ 31.
Proof.
  intros Hx.
  assert (Hxo : Z.land x (Z.ones 31) = x).
  { apply Z.land_ones_low; [lia|]. destruct (Z.eq_dec x 0) as [->|Hne]; [reflexivity|].
    apply Z.log2_lt_pow2; lia. }
  rewrite <- Hxo, <- Z.land_assoc, (Z.land_comm (Z.ones 31)), Z.land_ones by lia.
  pose proof (Z.mod_pos_bound y (2 ^ 31) ltac:(lia)) as Hy.
  set (y' := y mod 2 ^ 31) in *.
  assert (0 <= Z.land x y') by (apply Z.land_nonneg; lia).
  split; [lia|]. destruct (Z.eq_dec (Z.land x y') 0) as [->|Hne]; [lia|].
  apply Z.log2_lt_pow2; [lia|].
  pose proof (Z.log2_land x y' ltac:(lia) ltac:(lia)).
  assert (Z.log2 x < 31).
  { destruct (Z.eq_dec x 0) as [->|Hx0]; [simpl; lia|apply Z.log2_lt_pow2; lia]. }
  lia.
Qed.

Lemma lor_int32 a b :
  - 2 ^ 31 <= a < 2 ^ 31 -> - 2 ^ 31 <= b < 2 ^ 31 -> - 2 ^ 31 <= Z.lor a b < 2 ^ 31.
Proof.
  intros Ha Hb.
  assert (E : Z.lor a b = Z.lnot (Z.land (Z.lnot a) (Z.lnot b)))
    by (rewrite Z.lnot_land, !Z.lnot_involutive; reflexivity).
  destruct (Z.neg_nonneg_cases a) as [Han|Han].
  - rewrite E. pose proof (land_nonneg_bound (Z.lnot a) (Z.lnot b)) as H.
    unfold Z.lnot in *. lia.
  - destruct (Z.neg_nonneg_cases b) as [Hbn|Hbn].
    + rewrite E, Z.land_comm. pose proof (land_nonneg_bound (Z.lnot b) (Z.lnot a)) as H.
      unfold Z.lnot in *. lia.
    + assert (0 <= Z.lor a b) by (apply Z.lor_nonneg; lia).
      split; [lia|]. destruct (Z.eq_dec (Z.lor a b) 0) as [->|Hne]; [lia|].
      apply Z.log2_lt_pow2; [lia|]. rewrite Z.log2_lor by lia.
      assert (Z.log2 a < 31).
      { destruct (Z.eq_dec a 0) as [->|Hx0]; [simpl; lia|apply Z.log2_lt_pow2; lia]. }
      assert (Z.log2 b < 31).
      { destruct (Z.eq_dec b 0) as [->|Hx0]; [simpl; lia|apply Z.log2_lt_pow2; lia]. }
      lia.
Qed.

Lemma lor_mod a b : Z.lor a b mod 2 ^ 32 = Z.lor (a mod 2 ^ 32) (b mod 2 ^ 32).
Proof. rewrite <- !Z.land_ones by lia. apply Z.land_lor_distr_l. Qed.

Lemma wrap_int32_mod z : - 2 ^ 31 <= z < 2 ^ 31 -> wrap_int32 (z mod 2 ^ 32) = z.
Proof.
  intros Hz. rewrite <- (wrap_int32_small z Hz) at 2. unfold wrap_int32.
  rewrite Z.mod_mod by lia. reflexivity.
Qed.

(** One line of [power2Roundup], [p |= p >>> w], on the unsigned view. *)
Lemma smear_step p w :
  0 < w ->
  exists z, bitwise_or p (unsigned_right_shift p w) = number_of_Z z
            /\ - 2 ^ 31 <= z < 2 ^ 31
            /\ ToUint32 (number_of_Z z) = smear w (ToUint32 p).
Proof.
  intros Hw. unfold bitwise_or, unsigned_right_shift, smear.
  pose proof (ToUint32_range p) as Hu. pose proof (ToInt32_range p) as Hi.
  assert (Hs : 0 <= Z.shiftr (ToUint32 p) w < 2 ^ 31).
  { rewrite Z.shiftr_div_pow2 by lia. split; [apply Z.div_pos; lia|].
    apply Z.div_lt_upper_bound; [lia|].
    assert (2 ^ 1 <= 2 ^ w) by (apply Z.pow_le_mono_r; lia). nia. }
  rewrite (ToInt32_number_of_Z (Z.shiftr _ _)), wrap_int32_small by lia.
  pose proof (lor_int32 (ToInt32 p) (Z.shiftr (ToUint32 p) w) Hi ltac:(lia)) as Hl.
  eexists. split; [reflexivity|]. split; [exact Hl|].
  rewrite ToUint32_number_of_Z by lia.
  rewrite lor_mod, ToInt32_mod. f_equal. apply Z.mod_small. lia.
Qed.

(** [power2Roundup] in closed form, on every number. *)
Lemma power2Roundup_closed x :
  (x <? 0)%float = false ->
  power2Roundup x = number_of_Z (wrap_int32 (smear32 (ToUint32 (x - 1))) + 1).
Proof.
  intros Hx. unfold power2Roundup. rewrite Hx.
  destruct (smear_step (x - 1)%float 1 ltac:(lia)) as (z1 & -> & H1 & U1).
  destruct (smear_step (number_of_Z z1) 2 ltac:(lia)) as (z2 & -> & H2 & U2).
  destruct (smear_step (number_of_Z z2) 4 ltac:(lia)) as (z3 & -> & H3 & U3).
  destruct (smear_step (number_of_Z z3) 8 ltac:(lia)) as (z4 & -> & H4 & U4).
  destruct (smear_step (number_of_Z z4) 16 ltac:(lia)) as (z5 & -> & H5 & U5).
  rewrite one_is_number at 1. rewrite add_number_of_Z by lia.
  f_equal. f_equal. unfold smear32. rewrite <- U1, <- U2, <- U3, <- U4, <- U5.
  rewrite ToUint32_number_of_Z by lia. symmetry. apply wrap_int32_mod. exact H5.
Qed.

Lemma wrap_smear32 u :
  0 <= u < 2 ^ 32 ->
  wrap_int32 (smear32 u) + 1
  = if u =? 0 then 1 else if u <? 2 ^ 31 then 2 ^ (Z.log2 u + 1) else 0.
Proof.
  intros Hu. destruct (Z.eqb_spec u 0) as [->|Hne]; [reflexivity|].
  rewrite smear32_ones by lia. rewrite Z.ones_equiv.
  assert (Hl : 0 <= Z.log2 u < 32).
  { split; [apply Z.log2_nonneg|apply Z.log2_lt_pow2; lia]. }
  destruct (Z.ltb_spec u (2 ^ 31)) as [Hlt|Hge].
  - assert (Z.log2 u < 31) by (apply Z.log2_lt_pow2; lia).
    assert (0 < 2 ^ (Z.log2 u + 1) <= 2 ^ 31)
      by (split; [apply Z.pow_pos_nonneg; lia|apply Z.pow_le_mono_r; lia]).
    rewrite wrap_int32_small by lia. lia.
  - assert (Z.log2 u = 31).
    { assert (31 <= Z.log2 u) by (apply Z.log2_le_pow2; lia). lia. }
    rewrite H. reflexivity.
Qed.

(** The exponent of the least power of two that is not below [n >= 1]. *)
Lemma power2Roundup_value n :
  1 <= n <= 2 ^ 31 ->
  power2Roundup (number_of_Z n)
  = number_of_Z (2 ^ (if n =? 1 then 0 else Z.log2 (n - 1) + 1)).
Proof.
  intros Hn. rewrite power2Roundup_closed by (rewrite ltb_number_zero by lia; apply Z.ltb_ge; lia).
  rewrite one_is_number, sub_number_of_Z, ToUint32_number_of_Z by lia.
  rewrite Z.mod_small by lia. rewrite wrap_smear32 by lia.
  destruct (Z.eqb_spec n 1) as [->|Hne]; [reflexivity|].
  replace (n - 1 =? 0) with false by (symmetry; apply Z.eqb_neq; lia).
  replace (n - 1 <? 2 ^ 31) with true by (symmetry; apply Z.ltb_lt; lia).
  reflexivity.
Qed.

(** On the integers from 1 to [2^31] the result is the least power of two
    that is not below the argument. *)
Theorem power2Roundup_correct n :
  1 <= n <= 2 ^ 31 ->
  exists k, 0 <= k <= 31
            /\ power2Roundup (number_of_Z n) = number_of_Z (2 ^ k)
            /\ n <= 2 ^ k < 2 * n.
Proof.
  intros Hn. rewrite (power2Roundup_value n Hn).
  destruct (Z.eqb_spec n 1) as [->|Hne].
  - exists 0. split; [lia|]. split; [reflexivity|]. rewrite Z.pow_0_r. lia.
  - assert (Hl : 0 <= Z.log2 (n - 1) < 31).
    { split; [apply Z.log2_nonneg|apply Z.log2_lt_pow2; lia]. }
    exists (Z.log2 (n - 1) + 1). split; [lia|]. split; [reflexivity|].
    pose proof (Z.log2_spec (n - 1) ltac:(lia)) as Hs.
    replace (Z.succ (Z.log2 (n - 1))) with (Z.log2 (n - 1) + 1) in Hs by lia.
    rewrite Z.pow_add_r in * by lia. change (2 ^ 1) with 2 in *. lia.
Qed.

Lemma power2Roundup_correct_witness :
  power2Roundup 5 = 8%float
  /\ exists k, 0 <= k <= 31
               /\ power2Roundup (number_of_Z 5) = number_of_Z (2 ^ k)
               /\ 5 <= 2 ^ k < 2 * 5.
Proof. split; [reflexivity|]. apply (power2Roundup_correct 5). lia. Defined.

(** Zero, the negative integers and the integers above [2^31] up to [2^32]
    give 0. *)
Theorem power2Roundup_zero n :
  - 2 ^ 53 < n -> n <= 0 \/ 2 ^ 31 < n <= 2 ^ 32 ->
  power2Roundup (number_of_Z n) = 0%float.
Proof.
  intros Hb Hn. destruct (Z.ltb_spec n 0) as [Hneg|Hnn].
  - unfold power2Roundup. rewrite ltb_number_zero by lia.
    replace (n <? 0) with true by (symmetry; apply Z.ltb_lt; lia). reflexivity.
  - rewrite power2Roundup_closed by (rewrite ltb_number_zero by lia; apply Z.ltb_ge; lia).
    rewrite one_is_number, sub_number_of_Z, ToUint32_number_of_Z by lia.
    pose proof (Z.mod_pos_bound (n - 1) (2 ^ 32) ltac:(lia)) as Hm.
    rewrite wrap_smear32 by exact Hm.
    assert (Hu : 2 ^ 31 <= (n - 1) mod 2 ^ 32).
    { destruct Hn as [Hn|Hn].
      - replace n with 0 by lia. change ((0 - 1) mod 2 ^ 32) with (2 ^ 32 - 1). lia.
      - rewrite Z.mod_small by lia. lia. }
    replace ((n - 1) mod 2 ^ 32 =? 0) with false by (symmetry; apply Z.eqb_neq; lia).
    replace ((n - 1) mod 2 ^ 32 <? 2 ^ 31) with false by (symmetry; apply Z.ltb_ge; lia).
    reflexivity.
Qed.

Lemma power2Roundup_zero_witness :
  power2Roundup (number_of_Z (2 ^ 31 + 1)) = 0%float
  /\ power2Roundup (number_of_Z 0) = 0%float.
Proof. split; [apply (power2Roundup_zero (2 ^ 31 + 1))|apply (power2Roundup_zero 0)]; lia. Defined.

(** Whatever the number, the result is 0 or one of the powers of two up to
    [2^31]. *)
Theorem power2Roundup_image x :
  power2Roundup x = 0%float
  \/ exists k, 0 <= k <= 31 /\ power2Roundup x = number_of_Z (2 ^ k).
Proof.
  destruct (x <? 0)%float eqn:Hx.
  - left. unfold power2Roundup. rewrite Hx. reflexivity.
  - rewrite power2Roundup_closed by exact Hx.
    pose proof (ToUint32_range (x - 1)%float) as Hu.
    rewrite wrap_smear32 by exact Hu.
    destruct (Z.eqb_spec (ToUint32 (x - 1)) 0) as [E|Hne].
    + right. exists 0. split; [lia|reflexivity].
    + destruct (Z.ltb_spec (ToUint32 (x - 1)) (2 ^ 31)) as [Hlt|Hge].
      * right. exists (Z.log2 (ToUint32 (x - 1)) + 1). split; [|reflexivity].
        assert (Z.log2 (ToUint32 (x - 1)) < 31) by (apply Z.log2_lt_pow2; lia).
        pose proof (Z.log2_nonneg (ToUint32 (x - 1))). lia.
      * left. reflexivity.
Qed.

(** The two functions do not agree on [2^31]: [power2Roundup] returns it for
    the integers above [2^30], and [isPowerOfTwo] does not take it for a
    power of two. *)
Theorem isPowerOfTwo_power2Roundup n :
  1 <= n <= 2 ^ 31 ->
  isPowerOfTwo (power2Roundup (number_of_Z n)) = (n <=? 2 ^ 30).
Proof.
  intros Hn. rewrite (power2Roundup_value n Hn).
  destruct (Z.eqb_spec n 1) as [->|Hne]; [reflexivity|].
  assert (Hl : 0 <= Z.log2 (n - 1) < 31).
  { split; [apply Z.log2_nonneg|apply Z.log2_lt_pow2; lia]. }
  destruct (Z.leb_spec n (2 ^ 30)) as [Hle|Hgt].
  - apply isPowerOfTwo_pow2.
    assert (Z.log2 (n - 1) < 30) by (apply Z.log2_lt_pow2; lia). lia.
  - assert (E : Z.log2 (n - 1) = 30).
    { assert (30 <= Z.log2 (n - 1)) by (apply Z.log2_le_pow2; lia). lia. }
    rewrite E. reflexivity.
Qed.

Lemma isPowerOfTwo_power2Roundup_witness :
  isPowerOfTwo (power2Roundup (number_of_Z 1000)) = true
  /\ isPowerOfTwo (power2Roundup (number_of_Z (2 ^ 30 + 1))) = false.
Proof.
  split.
  - apply (isPowerOfTwo_power2Roundup 1000). lia.
  - apply (isPowerOfTwo_power2Roundup (2 ^ 30 + 1)). lia.
Defined.

(** ** colorToCssRgba *)

Lemma ToInt32_bitwise_or_zero x : ToInt32 (bitwise_or x 0) = ToInt32 x.
Proof.
  unfold bitwise_or. rewrite ToInt32_zero, Z.lor_0_r.
  pose proof (ToInt32_range x). rewrite ToInt32_number_of_Z, wrap_int32_small by lia.
  reflexivity.
Qed.

Lemma truncate_bitwise_or_zero x : truncate (bitwise_or x 0) = ToInt32 x.
Proof.
  unfold bitwise_or. rewrite ToInt32_zero, Z.lor_0_r.
  pose proof (ToInt32_range x). apply truncate_number_of_Z. lia.
Qed.

Lemma ToInt32_255 : ToInt32 255 = 255.
Proof. reflexivity. Qed.

(** [(x >> k) & 0xff] is a byte of the unsigned view of [x]. *)
Lemma byte_of x k :
  0 <= k <= 24 ->
  truncate (bitwise_and (signed_right_shift x k) 255) = (ToUint32 x / 2 ^ k) mod 256.
Proof.
  intros Hk. unfold bitwise_and, signed_right_shift.
  pose proof (ToInt32_range x) as Hi. rewrite <- (ToInt32_mod x).
  set (i := ToInt32 x) in *.
  assert (Hp : 0 < 2 ^ k) by (apply Z.pow_pos_nonneg; lia).
  assert (Hs : - 2 ^ 31 <= Z.shiftr i k < 2 ^ 31).
  { rewrite Z.shiftr_div_pow2 by lia. split.
    - apply Z.div_le_lower_bound; [lia|]. nia.
    - apply Z.div_lt_upper_bound; [lia|]. nia. }
  rewrite ToInt32_number_of_Z, wrap_int32_small, ToInt32_255 by lia.
  change 255 with (Z.ones 8). rewrite Z.land_ones by lia. change (2 ^ 8) with 256.
  pose proof (Z.mod_pos_bound (Z.shiftr i k) 256 ltac:(lia)).
  rewrite truncate_number_of_Z by lia.
  rewrite Z.shiftr_div_pow2 by lia.
  assert (E : i = i mod 2 ^ 32 + (i / 2 ^ 32) * 2 ^ (32 - k) * 2 ^ k).
  { rewrite <- Z.mul_assoc, <- Z.pow_add_r by lia. replace (32 - k + k) with 32 by lia.
    pose proof (Z.div_mod i (2 ^ 32) ltac:(lia)). lia. }
  rewrite E at 1. rewrite Z.div_add by lia.
  replace (2 ^ (32 - k)) with (2 ^ (24 - k) * 256)
    by (change 256 with (2 ^ 8); rewrite <- Z.pow_add_r by lia; f_equal; lia).
  rewrite Z.mul_assoc, Z.mod_add by lia. reflexivity.
Qed.

Lemma append_assoc (s1 s2 s3 : string) : (s1 ++ s2) ++ s3 = s1 ++ (s2 ++ s3).
Proof. induction s1 as [|c s1 IH]; simpl; [reflexivity|rewrite IH; reflexivity]. Qed.

(** The four numbers of the text are the bytes of the 32-bit pattern of the
    color, from the second highest down, and then the highest. *)
Theorem colorToCssRgba_bytes color :
  let c := ToUint32 color in
  colorToCssRgba color
  = "rgba(" ++ integer_toString 10 ((c / 2 ^ 16) mod 256) ++ ","
            ++ integer_toString 10 ((c / 2 ^ 8) mod 256) ++ ","
            ++ integer_toString 10 (c mod 256) ++ ","
            ++ integer_toString 10 (c / 2 ^ 24) ++ ")".
Proof.
  intros c. unfold colorToCssRgba, number_toString. cbn [map String.concat].
  replace (bitwise_and (bitwise_or color 0) 255)
    with (bitwise_and (signed_right_shift (bitwise_or color 0) 0) 255).
  - rewrite !byte_of by lia.
    assert (Hu : ToUint32 (bitwise_or color 0) = c).
    { rewrite <- ToInt32_mod, ToInt32_bitwise_or_zero. apply ToInt32_mod. }
    rewrite Hu. pose proof (ToUint32_range color) as Hc. fold c in Hc.
    rewrite Z.pow_0_r, Z.div_1_r.
    replace ((c / 2 ^ 24) mod 256) with (c / 2 ^ 24).
    + rewrite !append_assoc. reflexivity.
    + symmetry. apply Z.mod_small. split; [apply Z.div_pos; lia|].
      apply Z.div_lt_upper_bound; lia.
  - unfold bitwise_and, signed_right_shift. rewrite Z.shiftr_0_r.
    pose proof (ToInt32_range (bitwise_or color 0)).
    rewrite (ToInt32_number_of_Z (ToInt32 _)), wrap_int32_small by lia. reflexivity.
Qed.

(** ** padLeft: the padding *)

Lemma repeat_char_snoc c n s :
  repeat_char c n ++ String c s = String c (repeat_char c n ++ s).
Proof. induction n as [|n IH]; simpl; [reflexivity|rewrite IH; reflexivity]. Qed.

Lemma length_repeat_char c n : String.length (repeat_char c n) = n.
Proof. induction n as [|n IH]; simpl; [reflexivity|rewrite IH; reflexivity]. Qed.

Lemma pad_loop_single c targetLength : forall fuel str,
  targetLength - Z.of_nat (String.length str) <= Z.of_nat fuel ->
  pad_loop fuel str targetLength (String c "")
  = Some (repeat_char c (Z.to_nat (targetLength - Z.of_nat (String.length str))) ++ str).
Proof.
  induction fuel as [|fuel IH]; intros str Hfuel.
  - rewrite pad_loop_done by lia.
    replace (Z.to_nat (targetLength - Z.of_nat (String.length str))) with 0%nat by lia.
    reflexivity.
  - cbn [pad_loop]. destruct (Z.ltb_spec (Z.of_nat (String.length str)) targetLength) as [Hlt|Hge].
    + rewrite IH by (cbn [append String.length]; lia).
      cbn [append String.length].
      replace (Z.to_nat (targetLength - Z.of_nat (String.length str)))
        with (S (Z.to_nat (targetLength - Z.of_nat (S (String.length str))))) by lia.
      cbn [repeat_char append]. rewrite repeat_char_snoc. reflexivity.
    + replace (Z.to_nat (targetLength - Z.of_nat (String.length str))) with 0%nat by lia.
      reflexivity.
Qed.

(** With a [padWith] of one character and a string that is not longer than
    [targetLength], the result is the string with as many copies of the
    character before it as it takes to reach [targetLength]. *)
Theorem padLeft_pads fuel str targetLength c :
  Z.of_nat (String.length str) <= targetLength ->
  targetLength - Z.of_nat (String.length str) <= Z.of_nat fuel ->
  let padded := repeat_char c (Z.to_nat targetLength - String.length str) ++ str in
  padLeft fuel str targetLength (String c "") = Some padded
  /\ Z.of_nat (String.length padded) = targetLength.
Proof.
  intros Hlen Hfuel padded.
  assert (Hl : Z.of_nat (String.length padded) = targetLength).
  { unfold padded. rewrite length_append, length_repeat_char. lia. }
  split; [|exact Hl]. unfold padLeft. rewrite pad_loop_single by exact Hfuel.
  replace (Z.to_nat (targetLength - Z.of_nat (String.length str)))
    with (Z.to_nat targetLength - String.length str)%nat by lia.
  fold padded. rewrite Hl, Z.ltb_irrefl. reflexivity.
Qed.

Lemma padLeft_pads_witness :
  padLeft 2 "7" 3 "0" = Some "007" /\ Z.of_nat (String.length "007") = 3.
Proof. apply (padLeft_pads 2 "7" 3 "0"%char); simpl; lia. Defined.

(** With an empty [padWith] and a string shorter than [targetLength] the
    loop never ends. *)
Theorem padLeft_empty_pad str targetLength :
  Z.of_nat (String.length str) < targetLength ->
  forall fuel, padLeft fuel str targetLength "" = None.
Proof.
  intros Hlt fuel. unfold padLeft.
  replace (pad_loop fuel str targetLength "") with (@None string); [reflexivity|].
  symmetry. induction fuel as [|fuel IH]; cbn [pad_loop append];
    replace (Z.of_nat (String.length str) <? targetLength) with true
      by (symmetry; apply Z.ltb_lt; exact Hlt); [reflexivity|exact IH].
Qed.

Lemma padLeft_empty_pad_witness : padLeft 9 "7" 3 "" = None.
Proof. apply (padLeft_empty_pad "7" 3). simpl. lia. Defined.

(** ** colorToCssSharp *)

Lemma digits_length_acc radix : forall fuel n acc,
  (String.length acc <= String.length (digits fuel radix n acc))%nat.
Proof.
  induction fuel as [|fuel IH]; intros n acc; cbn [digits]; [lia|].
  destruct (n <? radix); [cbn [String.length]; lia|].
  etransitivity; [|apply IH]. cbn [String.length]. lia.
Qed.

Lemma digits_length_le radix : 2 <= radix -> forall fuel k n acc,
  (1 <= k)%nat -> 0 <= n < radix ^ Z.of_nat k ->
  (String.length (digits fuel radix n acc) <= k + String.length acc)%nat.
Proof.
  intros Hr. induction fuel as [|fuel IH]; intros k n acc Hk Hn; cbn [digits]; [lia|].
  destruct (Z.ltb_spec n radix) as [Hlt|Hge]; [cbn [String.length]; lia|].
  destruct k as [|[|k]]; [lia| |].
  - change (Z.of_nat 1) with 1 in Hn. rewrite Z.pow_1_r in Hn. lia.
  - etransitivity; [apply (IH (S k))|cbn [String.length]; lia]; [lia|].
    split; [apply Z.div_pos; lia|]. apply Z.div_lt_upper_bound; [lia|].
    replace (Z.of_nat (S (S k))) with (Z.succ (Z.of_nat (S k))) in Hn by lia.
    rewrite Z.pow_succ_r in Hn by lia. lia.
Qed.

Lemma digits_length_ge radix : 2 <= radix -> forall fuel k n acc,
  (k < fuel)%nat -> radix ^ Z.of_nat k <= n ->
  (k + 1 + String.length acc <= String.length (digits fuel radix n acc))%nat.
Proof.
  intros Hr. induction fuel as [|fuel IH]; intros k n acc Hk Hn; [lia|]. cbn [digits].
  destruct k as [|k].
  - destruct (n <? radix); [cbn [String.length]; lia|].
    etransitivity; [|apply digits_length_acc]. cbn [String.length]. lia.
  - assert (Hp : 0 < radix ^ Z.of_nat k) by (apply Z.pow_pos_nonneg; lia).
    replace (Z.of_nat (S k)) with (Z.succ (Z.of_nat k)) in Hn by lia.
    rewrite Z.pow_succ_r in Hn by lia.
    destruct (Z.ltb_spec n radix) as [Hlt|Hge]; [nia|].
    etransitivity; [|apply (IH k)]; [cbn [String.length]; lia|lia|].
    apply Z.div_le_lower_bound; lia.
Qed.

(** A color of 24 bits gives ["#"] and its six hexadecimal digits. *)
Theorem colorToCssSharp_rgb fuel color :
  0 <= ToInt32 color < 2 ^ 24 -> (6 <= fuel)%nat ->
  let hex := integer_toString 16 (ToInt32 color) in
  colorToCssSharp fuel color
  = Some ("#" ++ repeat_char "0" (6 - String.length hex) ++ hex)
  /\ String.length (repeat_char "0" (6 - String.length hex) ++ hex) = 6%nat.
Proof.
  intros Hc Hfuel hex. unfold colorToCssSharp, number_toString.
  rewrite truncate_bitwise_or_zero. fold hex.
  assert (Hlen : (String.length hex <= 6)%nat).
  { unfold hex, integer_toString.
    replace (ToInt32 color <? 0) with false by (symmetry; apply Z.ltb_ge; lia).
    etransitivity; [apply (digits_length_le 16 ltac:(lia) 32 6)|]; [lia| |cbn; lia].
    change (16 ^ Z.of_nat 6) with (2 ^ 24). lia. }
  assert (Hl : String.length (repeat_char "0" (6 - String.length hex) ++ hex) = 6%nat).
  { rewrite length_append, length_repeat_char. lia. }
  split; [|exact Hl]. unfold padLeft. rewrite pad_loop_single by lia.
  replace (Z.to_nat (6 - Z.of_nat (String.length hex))) with (6 - String.length hex)%nat
    by lia.
  rewrite Hl. reflexivity.
Qed.

Lemma colorToCssSharp_rgb_witness :
  colorToCssSharp 6 0xff8000 = Some "#ff8000"
  /\ colorToCssSharp 6 0xff = Some "#0000ff".
Proof.
  split.
  - apply (colorToCssSharp_rgb 6 0xff8000); [vm_compute; split; congruence|lia].
  - apply (colorToCssSharp_rgb 6 0xff); [vm_compute; split; congruence|lia].
Defined.

(** A color of more than 24 bits gives ["#"] and five characters only: the
    six lowest hexadecimal digits without the last. *)
Theorem colorToCssSharp_short fuel color :
  2 ^ 24 <= ToInt32 color ->
  let hex := integer_toString 16 (ToInt32 color) in
  colorToCssSharp fuel color
  = Some ("#" ++ String.substring (String.length hex - 6) 5 hex)
  /\ String.length (String.substring (String.length hex - 6) 5 hex) = 5%nat.
Proof.
  intros Hc hex. unfold colorToCssSharp, number_toString.
  rewrite truncate_bitwise_or_zero. fold hex.
  assert (Hlen : (7 <= String.length hex)%nat).
  { unfold hex, integer_toString.
    replace (ToInt32 color <? 0) with false by (symmetry; apply Z.ltb_ge; lia).
    apply (digits_length_ge 16 ltac:(lia) 32 6 (ToInt32 color) ""); [lia|].
    change (16 ^ Z.of_nat 6) with (2 ^ 24). exact Hc. }
  split; [|apply length_substring; lia].
  unfold padLeft. rewrite pad_loop_done by lia.
  replace (6 <? Z.of_nat (String.length hex)) with true by (symmetry; apply Z.ltb_lt; lia).
  unfold js_substring, clamp_index.
  replace (Z.to_nat (Z.min (Z.max (Z.of_nat (String.length hex) - 6) 0)
                           (Z.of_nat (String.length hex))))
    with (String.length hex - 6)%nat by lia.
  replace (Z.to_nat (Z.min (Z.max (Z.of_nat (String.length hex) - 1) 0)
                           (Z.of_nat (String.length hex))))
    with (String.length hex - 1)%nat by lia.
  replace (Nat.min (String.length hex - 6) (String.length hex - 1))
    with (String.length hex - 6)%nat by lia.
  replace (Nat.max (String.length hex - 6) (String.length hex - 1) - (String.length hex - 6))%nat
    with 5%nat by lia.
  reflexivity.
Qed.

Lemma colorToCssSharp_short_witness :
  colorToCssSharp 0 0x1234567 = Some "#23456".
Proof. apply (colorToCssSharp_short 0 0x1234567). vm_compute. congruence. Defined.

End Doubles.
(** * formatString *)

Section FormatProofs.
Variable toString : val -> completion string.

Lemma bind_completion_return {A} (c : completion A) : bind_completion c (@Return A) = c.
Proof. destruct c; reflexivity. Qed.

Lemma bind_completion_assoc {A B C} (c : completion A) (f : A -> completion B)
    (g : B -> completion C) :
  bind_completion (bind_completion c f) g
  = bind_completion c (fun a => bind_completion (f a) g).
Proof. destruct c; reflexivity. Qed.

Lemma bind_completion_ext {A B} (c : completion A) (f g : A -> completion B) :
  (forall a, f a = g a) -> bind_completion c f = bind_completion c g.
Proof. intros H. destruct c; simpl; [apply H|reflexivity|reflexivity|reflexivity]. Qed.

Lemma match_placeholder_length s len :
  match_placeholder s = Some len -> 1 <= len <= String.length s.
Proof.
  destruct s as [|c s]; [discriminate|]. cbn [match_placeholder].
  destruct (Ascii.eqb_spec c "{"%char); [subst c|].
  - destruct (String.get (count_digits s) s) as [d|] eqn:Hg; [|discriminate].
    destruct (Ascii.eqb_spec d "}"%char); [subst d|].
    + destruct (0 <? count_digits s); [|discriminate]. intros [= <-].
      assert (count_digits s < String.length s).
      { clear -Hg. revert Hg. generalize (count_digits s). induction s as [|c s IH]; intros n.
        - destruct n; discriminate.
        - destruct n as [|n]; cbn [String.get String.length]; [lia|].
          intros H. apply IH in H. lia. }
      cbn [String.length]. lia.
    + destruct d as [[] [] [] [] [] [] [] []]; try discriminate. congruence.
  - destruct c as [[] [] [] [] [] [] [] []]; try discriminate. congruence.
Qed.

Lemma string_append_assoc (s1 s2 s3 : string) :
  ((s1 ++ s2) ++ s3 = s1 ++ (s2 ++ s3))%string.
Proof. induction s1 as [|c s1 IH]; simpl; [reflexivity|rewrite IH; reflexivity]. Qed.

Lemma substring_drop s : forall n,
  (String.substring 0 n s ++ string_drop n s)%string = s.
Proof.
  induction s as [|c s IH]; intros [|n]; cbn [String.substring string_drop String.append];
    try reflexivity.
  rewrite IH. reflexivity.
Qed.

Lemma substring_prefix x y :
  String.substring 0 (String.length x) (x ++ y)%string = x.
Proof.
  induction x as [|c x IH]; cbn [String.length String.append String.substring].
  - destruct y; reflexivity.
  - rewrite IH. reflexivity.
Qed.

(** A replacer that returns every match as it is leaves the text as it
    is. *)
Lemma replace_placeholders_unchanged replacer :
  (forall matched, replacer matched = Return matched) ->
  forall s skip, replace_placeholders replacer skip s = Return (string_drop skip s).
Proof.
  intros Hid. induction s as [|c s IH]; intros skip.
  - destruct skip; reflexivity.
  - destruct skip as [|skip]; cbn [replace_placeholders string_drop]; [|apply IH].
    destruct (match_placeholder (String c s)) as [len|] eqn:Hm.
    + destruct (match_placeholder_length _ _ Hm) as [Hlen _].
      rewrite Hid, IH. cbn [bind_completion]. f_equal.
      destruct len as [|len]; [lia|]. cbn [String.substring String.append].
      replace (S len - 1) with len by lia. rewrite substring_drop. reflexivity.
    + rewrite IH. reflexivity.
Qed.

Lemma parse_digits_nonneg s : forall acc, (0 <= acc -> 0 <= parse_digits acc s)%Z.
Proof.
  induction s as [|c s IH]; intros acc Hacc; cbn [parse_digits]; [exact Hacc|].
  destruct (is_digit c) eqn:Hc; [|exact Hacc]. apply IH.
  unfold is_digit in Hc. apply andb_true_iff in Hc. destruct Hc as [Hc _].
  apply Nat.leb_le in Hc. lia.
Qed.

Lemma parseInt_nonneg s v : parseInt s = Some v -> (0 <= v)%Z.
Proof.
  destruct s as [|c s]; [discriminate|]. unfold parseInt.
  destruct (is_digit c); [|discriminate]. intros H.
  assert (E : v = parse_digits 0 (String c s)) by congruence.
  rewrite E. apply parse_digits_nonneg. lia.
Qed.

Lemma __stringFormatter_no_arguments matched :
  __stringFormatter toString [] matched = Return matched.
Proof.
  unfold __stringFormatter.
  destruct (parseInt _) as [v|] eqn:Hv; [|reflexivity].
  apply parseInt_nonneg in Hv. cbn [negb andb length].
  replace (v <? Z.of_nat 0)%Z with false by (symmetry; apply Z.ltb_ge; lia).
  rewrite andb_false_r. reflexivity.
Qed.

(** Without arguments every format comes back as it is: no placeholder has
    a value. *)
Theorem formatString_no_arguments format :
  formatString toString format [] = Return format.
Proof.
  unfold formatString.
  rewrite (replace_placeholders_unchanged _ __stringFormatter_no_arguments).
  reflexivity.
Qed.

Lemma count_digits_length s : count_digits s <= String.length s.
Proof.
  induction s as [|c s IH]; cbn [count_digits String.length]; [lia|].
  destruct (is_digit c); lia.
Qed.

Lemma count_digits_app s rest :
  match rest with String d _ => is_digit d = false | EmptyString => True end ->
  count_digits (s ++ rest)%string = count_digits s.
Proof.
  intros Hrest. induction s as [|c s IH]; cbn [String.append count_digits].
  - destruct rest as [|d rest]; [reflexivity|]. cbn [count_digits]. rewrite Hrest.
    reflexivity.
  - rewrite IH. reflexivity.
Qed.

Lemma count_all_digits ds : all_digits ds = true -> count_digits ds = String.length ds.
Proof.
  induction ds as [|c ds IH]; cbn [all_digits count_digits String.length]; [reflexivity|].
  intros H. apply andb_true_iff in H. destruct H as [Hc H]. rewrite Hc, IH by exact H.
  reflexivity.
Qed.

Lemma get_append_end s rest : String.get (String.length s) (s ++ rest)%string = String.get 0 rest.
Proof. symmetry. apply (append_correct2 s rest 0). Qed.

Lemma match_placeholder_app c s rest :
  neutral_head rest ->
  match_placeholder (String c s ++ rest)%string = match_placeholder (String c s).
Proof.
  intros Hrest. cbn [String.append].
  assert (Hc : count_digits (s ++ rest)%string = count_digits s).
  { apply count_digits_app. destruct rest; [exact I|apply Hrest]. }
  assert (Hg : match String.get (count_digits s) (s ++ rest)%string with
               | Some "}"%char => true | _ => false end
               = match String.get (count_digits s) s with
                 | Some "}"%char => true | _ => false end).
  { pose proof (count_digits_length s) as Hl.
    destruct (Nat.eq_dec (count_digits s) (String.length s)) as [E|E].
    - rewrite E, get_append_end.
      replace (String.get (String.length s) s) with (@None ascii).
      + destruct rest as [|d rest]; [reflexivity|]. cbn [String.get].
        destruct Hrest as [_ Hd].
        destruct d as [[] [] [] [] [] [] [] []]; try reflexivity. congruence.
      + symmetry. clear. induction s as [|c s IH]; [reflexivity|exact IH].
    - rewrite <- (append_correct1 s rest) by lia. reflexivity. }
  unfold match_placeholder.
  destruct c as [[] [] [] [] [] [] [] []]; try reflexivity.
  rewrite Hc.
  destruct (String.get (count_digits s) (s ++ rest)%string) as [[[] [] [] [] [] [] [] []]|];
    destruct (String.get (count_digits s) s) as [[[] [] [] [] [] [] [] []]|];
    try reflexivity; discriminate.
Qed.

Lemma substring_app_short s rest : forall n,
  n <= String.length s ->
  String.substring 0 n (s ++ rest)%string = String.substring 0 n s.
Proof.
  induction s as [|c s IH]; intros n Hn; cbn [String.length] in Hn.
  - replace n with 0 by lia. destruct rest; reflexivity.
  - destruct n as [|n]; cbn [String.append String.substring]; [reflexivity|].
    rewrite IH by lia. reflexivity.
Qed.

(** A text that ends where a placeholder could not go on is replaced on its
    own. *)
Lemma replace_placeholders_app replacer rest :
  neutral_head rest ->
  forall a skip, skip <= String.length a ->
    replace_placeholders replacer skip (a ++ rest)%string
    = bind_completion (replace_placeholders replacer skip a) (fun ra =>
      bind_completion (replace_placeholders replacer 0 rest) (fun rr =>
      Return (ra ++ rr)%string)).
Proof.
  intros Hrest. induction a as [|c a IH]; intros skip Hskip; cbn [String.length] in Hskip.
  - replace skip with 0 by lia. cbn [String.append replace_placeholders bind_completion].
    symmetry. apply bind_completion_return.
  - destruct skip as [|skip].
    + change (replace_placeholders replacer 0 (String c a ++ rest)%string)
        with (match match_placeholder (String c a ++ rest)%string with
              | Some len =>
                bind_completion
                  (replacer (String.substring 0 len (String c a ++ rest)%string))
                  (fun replacement =>
                   bind_completion (replace_placeholders replacer (len - 1) (a ++ rest)%string)
                     (fun r => Return (replacement ++ r)%string))
              | None =>
                bind_completion (replace_placeholders replacer 0 (a ++ rest)%string)
                  (fun r => Return (String c r))
              end).
      rewrite (match_placeholder_app c a rest Hrest). cbn [replace_placeholders].
      destruct (match_placeholder (String c a)) as [len|] eqn:Hm.
      * destruct (match_placeholder_length _ _ Hm) as [Hl1 Hl2]. cbn [String.length] in Hl2.
        rewrite (substring_app_short (String c a) rest len) by (cbn [String.length]; lia).
        rewrite IH by lia.
        destruct (replacer _) as [r| | |]; cbn [bind_completion]; try reflexivity.
        destruct (replace_placeholders replacer (len - 1) a) as [ra| | |];
          cbn [bind_completion]; try reflexivity.
        destruct (replace_placeholders replacer 0 rest) as [rr| | |];
          cbn [bind_completion]; try reflexivity.
        rewrite string_append_assoc. reflexivity.
      * rewrite IH by lia.
        destruct (replace_placeholders replacer 0 a) as [ra| | |];
          cbn [bind_completion]; try reflexivity.
        destruct (replace_placeholders replacer 0 rest) as [rr| | |];
          cbn [bind_completion]; reflexivity.
    + cbn [String.append replace_placeholders]. apply IH. lia.
Qed.

Lemma replace_placeholders_skip replacer x rest :
  replace_placeholders replacer (String.length x) (x ++ rest)%string
  = replace_placeholders replacer 0 rest.
Proof.
  induction x as [|c x IH]; [reflexivity|].
  cbn [String.length String.append replace_placeholders]. exact IH.
Qed.

Lemma all_digits_head ds :
  all_digits ds = true -> ds <> EmptyString -> exists c ds', ds = String c ds' /\ is_digit c = true.
Proof.
  destruct ds as [|c ds]; [congruence|]. cbn [all_digits]. intros H _.
  apply andb_true_iff in H. destruct H as [Hc _]. eauto.
Qed.

Lemma match_placeholder_head ds after :
  all_digits ds = true -> ds <> EmptyString ->
  match_placeholder (String "{" (ds ++ String "}" after))
  = Some (String.length ds + 2).
Proof.
  intros Hd Hne. cbn [match_placeholder].
  rewrite count_digits_app by reflexivity.
  rewrite (count_all_digits ds Hd), get_append_end. cbn [String.get].
  destruct (all_digits_head ds Hd Hne) as (c & ds' & -> & _). reflexivity.
Qed.

Lemma __stringFormatter_placeholder replaceWithArray ds :
  all_digits ds = true -> ds <> EmptyString ->
  __stringFormatter toString replaceWithArray (String "{" (ds ++ "}"))
  = match nth_error replaceWithArray (Z.to_nat (parse_digits 0 ds)) with
    | Some VUndefined => Return "undefined"%string
    | Some VNull => Return "null"%string
    | Some element => toString element
    | None => Return (String "{" (ds ++ "}"))
    end.
Proof.
  intros Hd Hne. unfold __stringFormatter.
  assert (Hi : js_substring (String "{" (ds ++ "}"))%string 1
                 (Z.of_nat (String.length (String "{" (ds ++ "}"))%string) - 1) = ds).
  { unfold js_substring, clamp_index. cbn [String.length].
    assert (Hl : String.length (ds ++ "}")%string = S (String.length ds)).
    { clear. induction ds as [|c ds IH]; [reflexivity|]. cbn [String.append String.length].
      rewrite IH. reflexivity. }
    rewrite Hl.
    replace (Z.to_nat (Z.min (Z.max 1 0) (Z.of_nat (S (S (String.length ds)))))) with 1 by lia.
    replace (Z.to_nat (Z.min (Z.max (Z.of_nat (S (S (String.length ds))) - 1) 0)
                             (Z.of_nat (S (S (String.length ds))))))
      with (S (String.length ds)) by lia.
    replace (Nat.min 1 (S (String.length ds))) with 1 by lia.
    replace (Nat.max 1 (S (String.length ds)) - 1) with (String.length ds) by lia.
    cbn [String.substring]. apply substring_prefix. }
  rewrite Hi.
  destruct (all_digits_head ds Hd Hne) as (c & ds' & E & Hc).
  assert (Hp : parseInt ds = Some (parse_digits 0 ds)).
  { rewrite E. unfold parseInt. rewrite Hc. reflexivity. }
  rewrite Hp. pose proof (parseInt_nonneg _ _ Hp) as Hnn.
  cbn [negb andb].
  replace (0 <=? parse_digits 0 ds)%Z with true by (symmetry; apply Z.leb_le; exact Hnn).
  cbn [andb].
  destruct (Z.ltb_spec (parse_digits 0 ds) (Z.of_nat (length replaceWithArray))) as [Hlt|Hge].
  - destruct (nth_error replaceWithArray (Z.to_nat (parse_digits 0 ds))) as [element|] eqn:Hn.
    + rewrite (nth_error_nth _ _ VUndefined Hn). destruct element; reflexivity.
    + apply nth_error_None in Hn. lia.
  - replace (nth_error replaceWithArray (Z.to_nat (parse_digits 0 ds))) with (@None val);
      [reflexivity|].
    symmetry. apply nth_error_None. lia.
Qed.

(** A placeholder is replaced where it stands, by the text of the argument
    it numbers ([undefined] and [null] by their names) or by itself when
    there is no such argument; what comes before it and what comes after it
    are formatted on their own, and the text put in is not looked at
    again. *)
Theorem formatString_placeholder before ds after replaceWithArray :
  all_digits ds = true -> ds <> EmptyString ->
  formatString toString (before ++ String "{" (ds ++ String "}" after)) replaceWithArray
  = bind_completion (formatString toString before replaceWithArray) (fun before' =>
    bind_completion
      match nth_error replaceWithArray (Z.to_nat (parse_digits 0 ds)) with
      | Some VUndefined => Return "undefined"%string
      | Some VNull => Return "null"%string
      | Some element => toString element
      | None => Return (String "{" (ds ++ "}"))
      end (fun text =>
    bind_completion (formatString toString after replaceWithArray) (fun after' =>
    Return (before' ++ text ++ after')%string))).
Proof.
  intros Hd Hne. unfold formatString.
  rewrite replace_placeholders_app; [|split; [reflexivity|discriminate]|lia].
  cbn [replace_placeholders]. rewrite (match_placeholder_head ds after Hd Hne).
  assert (Hs : String.substring 0 (String.length ds + 2) (String "{" (ds ++ String "}" after))
               = String "{" (ds ++ "}")).
  { replace (String.length ds + 2) with (String.length (String "{" (ds ++ "}")%string)).
    - replace (String "{" (ds ++ String "}" after))
        with (String "{" (ds ++ "}") ++ after)%string.
      + apply substring_prefix.
      + cbn [String.append]. rewrite string_append_assoc. reflexivity.
    - cbn [String.length]. clear. induction ds as [|c ds IH]; [reflexivity|].
      cbn [String.append String.length]. rewrite IH. reflexivity. }
  rewrite Hs, (__stringFormatter_placeholder replaceWithArray ds Hd Hne).
  replace (String.length ds + 2 - 1) with (String.length (ds ++ "}")%string).
  - replace (ds ++ String "}" after)%string with ((ds ++ "}") ++ after)%string
      by (rewrite string_append_assoc; reflexivity).
    rewrite replace_placeholders_skip.
    apply bind_completion_ext. intros before'. rewrite bind_completion_assoc.
    apply bind_completion_ext. intros text. rewrite bind_completion_assoc.
    apply bind_completion_ext. intros after'. reflexivity.
  - clear. induction ds as [|c ds IH]; [reflexivity|].
    cbn [String.append String.length]. rewrite IH. lia.
Qed.

Lemma replace_placeholders_returns replacer :
  (forall matched, exists r, replacer matched = Return r) ->
  forall s skip, exists r, replace_placeholders replacer skip s = Return r.
Proof.
  intros Hr. induction s as [|c s IH]; intros skip; [eexists; reflexivity|].
  destruct skip as [|skip]; cbn [replace_placeholders]; [|apply IH].
  destruct (match_placeholder (String c s)) as [len|].
  - destruct (Hr (String.substring 0 len (String c s))) as [r ->].
    destruct (IH (len - 1)) as [rest ->]. eexists. reflexivity.
  - destruct (IH 0) as [rest ->]. eexists. reflexivity.
Qed.

(** [undefined] and [null] among the arguments do no harm: when the
    conversion returns on every other argument, [formatString] returns. *)
Theorem formatString_returns format replaceWithArray :
  (forall element, In element replaceWithArray -> isUndefinedOrNull element = false ->
     exists text, toString element = Return text) ->
  exists result, formatString toString format replaceWithArray = Return result.
Proof.
  intros Hto. apply replace_placeholders_returns. intros matched.
  unfold __stringFormatter. destruct (parseInt _) as [v|] eqn:Hv; [|eexists; reflexivity].
  cbn [negb andb].
  destruct ((0 <=? v)%Z && (v <? Z.of_nat (length replaceWithArray))%Z) eqn:Hr;
    [|eexists; reflexivity].
  apply andb_true_iff in Hr. destruct Hr as [H0 H1].
  apply Z.leb_le in H0. apply Z.ltb_lt in H1.
  set (element := nth (Z.to_nat v) replaceWithArray VUndefined).
  destruct (strict_equals element VUndefined) eqn:Hu; [eexists; reflexivity|].
  destruct (strict_equals element VNull) eqn:Hn; [eexists; reflexivity|].
  apply Hto.
  - apply nth_In. lia.
  - unfold isUndefinedOrNull. rewrite Hu, Hn. reflexivity.
Qed.

End FormatProofs.

Lemma formatString_placeholder_witness :
  formatString text_of "{0}'s age is {1}." [VStr "John Doe"; VStr "20"]
  = Return "John Doe's age is 20."%string
  /\ formatString text_of "a{7}{0}" [VNull] = Return "a{7}null"%string.
Proof.
  split.
  - exact (formatString_placeholder text_of "" "0" "'s age is {1}."
             [VStr "John Doe"; VStr "20"] eq_refl ltac:(discriminate)).
  - exact (formatString_placeholder text_of "a" "7" "{0}" [VNull] eq_refl ltac:(discriminate)).
Defined.

Lemma formatString_returns_witness :
  exists result,
    formatString text_of "{0} and {1} and {2}" [VStr "a"; VUndefined; VNull] = Return result.
Proof.
  apply (formatString_returns text_of "{0} and {1} and {2}" [VStr "a"; VUndefined; VNull]).
  intros element [<-|[<-|[<-|[]]]] Hd; try discriminate. eexists. reflexivity.
Defined.

(** The example of the source, and the corners: a repeated index, an index
    without argument, braces that are no placeholder, text put in that looks
    like a placeholder, an index beyond every length. *)
Example formatString_examples :
  formatString text_of "{0}'s age is {1}." [VStr "John Doe"; VStr "20"]
  = Return "John Doe's age is 20."%string
  /\ formatString text_of "{0}{00}{2}{x}{}{1" [VStr "a"; VNull]
     = Return "aa{2}{x}{}{1"%string
  /\ formatString text_of "{{1}}" [VUndefined; VBool true] = Return "{true}"%string
  /\ formatString text_of "{0}" [VStr "{1}"; VStr "b"] = Return "{1}"%string
  /\ formatString text_of "{99999999999999999999999999}" [VStr "a"]
     = Return "{99999999999999999999999999}"%string.
Proof. repeat split. Qed.
(** * More on deepClone *)

(** ** Cycles *)

Lemma classify_frame R hb h l :
  wf_heap hb = true -> extends hb h -> l < length hb ->
  classify R h (VRef l) = classify R hb (VRef l).
Proof.
  intros Hwf He Hl. unfold classify.
  rewrite (typeof_frame hb h l), (is_array_frame hb h l),
    !(instance_of_available_frame hb h l), !(instance_of_frame hb h l) by assumption.
  reflexivity.
Qed.

Lemma classify_sequence R h l :
  classify R h (VRef l) = Sequence -> is_array h (VRef l) = true.
Proof.
  unfold classify. cbn [strict_equals orb].
  replace (type_tag_eqb (typeof h (VRef l)) TString) with false
    by (simpl; destruct (is_callable h l); reflexivity).
  replace (type_tag_eqb (typeof h (VRef l)) TNumber) with false
    by (simpl; destruct (is_callable h l); reflexivity).
  destruct (is_array h (VRef l)); [reflexivity|].
  repeat match goal with
         | |- (if ?b then _ else _) = _ -> _ => destruct b
         end; discriminate.
Qed.

Lemma for_in_keys_allocated h l k : In k (for_in_keys h l) -> exists o, h !! l = Some o.
Proof.
  unfold for_in_keys, chain. destruct (h !! l) as [o|] eqn:Hl; [eauto|].
  destruct (length h); simpl; [contradiction|]. rewrite Hl. contradiction.
Qed.

Section Cycles.
Variables (R : realm) (hb : heap) (on_cycle : loc -> Prop).
Hypothesis Hwf : wf_heap hb = true.
Hypothesis Hcycle : forall l, on_cycle l -> exists l', descends_to R hb l l' /\ on_cycle l'.

Section Stuck.
Variables (clone : val -> M val) (l' : loc).
Hypothesis Hmono : forall v, monotone (clone v).
Hypothesis Hstuck : forall h, extends hb h ->
  forall h' v', clone (VRef l') h <> (h', Return v').

Lemma clone_elements_stuck src tmp j :
  src < length hb -> length hb <= tmp ->
  array_elems hb src !! j = Some (VRef l') ->
  forall n i h, extends hb h -> i <= j ->
    forall h' u, clone_elements clone n src tmp i h <> (h', Return u).
Proof.
  intros Hs Ht Hj. induction n as [|n IH]; intros i h He Hij h' u E; simpl in E;
    unfold array_length in E; rewrite (array_elems_frame hb h src) in E by assumption;
    replace (i <? length (array_elems hb src)) with true in E
      by (symmetry; apply Nat.ltb_lt; apply lookup_lt_Some in Hj; lia);
    [discriminate|].
  apply bind_inv_return in E as (h1 & a & E0 & E).
  assert (He1 : extends hb h1) by (eapply extends_trans; [exact He|eapply Hmono, E0]).
  destruct (decide (i = j)) as [->|Hne].
  - unfold array_get in E0. rewrite (array_elems_frame hb h src), Hj in E0 by assumption.
    exact (Hstuck h He _ _ E0).
  - rewrite bind_write in E. eapply (IH (S i)); [|lia|exact E].
    apply extends_array_push; assumption.
Qed.

Lemma clone_own_properties_stuck fuel src newObject s k :
  src < length hb -> length hb <= newObject ->
  own_test_of hb src = BuiltinTest -> slots_at hb src = Some s -> is_array_slots s = false ->
  has_own hb src k = true -> get hb src k = VRef l' ->
  forall keys, In k keys -> forall h, extends hb h ->
    forall h' u, clone_own_properties clone (S fuel) src newObject keys h <> (h', Return u).
Proof.
  intros Hs Hn Ht Hsl Has Hown Hget.
  induction keys as [|key keys IH]; intros Hin h He h' u E; [contradiction|].
  simpl in E. apply bind_inv_return in E as (h1 & own & E0 & E).
  rewrite (acts_call hb h src (S fuel) key Hwf He Hs (builtin_acts hb src s fuel Ht Hsl Has))
    in E0.
  inversion E0; subst h1 own; clear E0.
  apply bind_inv_return in E as (h2 & [] & E1 & E).
  destruct (String.eqb_spec key k) as [->|Hne].
  - rewrite Hown, bind_read in E1. rewrite (get_frame hb h src), Hget in E1 by assumption.
    apply bind_inv_return in E1 as (h3 & v' & E1 & _). exact (Hstuck h He _ _ E1).
  - assert (He2 : extends hb h2).
    { destruct (has_own hb src key).
      - rewrite bind_read in E1. apply bind_inv_return in E1 as (h3 & v' & E1 & E2).
        inversion E2; subst. apply extends_set_prop; [exact Hn|].
        eapply extends_trans; [exact He|eapply Hmono, E1].
      - inversion E1; subst. exact He. }
    eapply IH; [|exact He2|exact E]. destruct Hin as [Heq|Hin]; [congruence|exact Hin].
Qed.

Lemma clone_visible_properties_stuck src newObject k :
  src < length hb -> length hb <= newObject ->
  get hb src k = VRef l' ->
  forall keys, In k keys -> forall h, extends hb h ->
    forall h' u, clone_visible_properties clone src newObject keys h <> (h', Return u).
Proof.
  intros Hs Hn Hget.
  induction keys as [|key keys IH]; intros Hin h He h' u E; [contradiction|].
  simpl in E. rewrite bind_read in E. rewrite (get_frame hb h src) in E by assumption.
  apply bind_inv_return in E as (h1 & v' & E0 & E).
  destruct (String.eqb_spec key k) as [->|Hne].
  - rewrite Hget in E0. exact (Hstuck h He _ _ E0).
  - rewrite bind_write in E. eapply IH; [| |exact E].
    + destruct Hin as [Heq|Hin]; [congruence|exact Hin].
    + apply extends_set_prop; [exact Hn|].
      eapply extends_trans; [exact He|eapply Hmono, E0].
Qed.

End Stuck.

Lemma deepClone_stuck : forall fuel l, on_cycle l ->
  forall h, extends hb h -> forall h' v', deepClone R fuel (VRef l) h <> (h', Return v').
Proof.
  induction fuel as [|fuel IH]; intros l Hl h He h' v' E;
    destruct (Hcycle l Hl) as (l' & Hd & Hl'); unfold descends_to in Hd;
    destruct (classify R hb (VRef l)) eqn:Hc; try contradiction.
  - apply classify_sequence in Hc. rewrite deepClone_ref in E.
    rewrite <- (is_array_frame hb h l) in Hc.
    + destruct (slots_at h l); [|discriminate]. rewrite Hc in E. discriminate.
    + exact He.
    + destruct Hd as (i & Hi). unfold array_elems in Hi.
      destruct (hb !! l) eqn:Hb; [eapply lookup_lt_Some, Hb|discriminate].
  - destruct Hd as (k & Hin & _). destruct (for_in_keys_allocated hb l k Hin) as [o Ho].
    assert (Hlt : l < length hb) by (eapply lookup_lt_Some, Ho).
    rewrite <- (classify_frame R hb h l Hwf He Hlt) in Hc.
    destruct (classify_record R h l o (He l o Ho) Hc) as [_ Hrec].
    rewrite Hrec in E. discriminate.
  - destruct Hd as (i & Hi).
    assert (Hlt : l < length hb).
    { unfold array_elems in Hi.
      destruct (hb !! l) eqn:Hb; [eapply lookup_lt_Some, Hb|discriminate]. }
    apply classify_sequence in Hc. rewrite deepClone_ref in E.
    rewrite <- (is_array_frame hb h l) in Hc by assumption.
    destruct (slots_at h l); [|discriminate]. rewrite Hc in E.
    unfold clone_array in E. rewrite bind_alloc, bind_read in E.
    apply bind_inv_return in E as (h1 & [] & E & _).
    revert E.
    apply (clone_elements_stuck (deepClone R fuel) l' (deepClone_monotone R fuel)
             (IH l' Hl') l (length h) i Hlt (extends_length _ _ He) Hi); [|lia].
    eapply extends_trans; [exact He|apply extends_app].
  - destruct Hd as (k & Hin & Hget & Ht).
    destruct (for_in_keys_allocated hb l k Hin) as [o Ho].
    assert (Hlt : l < length hb) by (eapply lookup_lt_Some, Ho).
    rewrite <- (classify_frame R hb h l Hwf He Hlt) in Hc.
    destruct (classify_record R h l o (He l o Ho) Hc) as [Has Hrec].
    rewrite Hrec in E. unfold clone_record in E.
    rewrite bind_alloc, !bind_read in E.
    set (h1 := h ++ [_]) in E.
    assert (He1 : extends hb h1) by (eapply extends_trans; [exact He|apply extends_app]).
    assert (Hn : length hb <= length h) by (apply extends_length, He).
    apply bind_inv_return in E as (h2 & [] & E & _).
    rewrite (for_in_keys_frame hb h1 l) in E by assumption.
    assert (Hsl : slots_at hb l = Some (slots o)) by (unfold slots_at; rewrite Ho; reflexivity).
    destruct (own_test_of hb l) eqn:Hown; try contradiction.
    + rewrite (acts_usable hb h1 l (S (S fuel)) Hwf He1 Hlt
                 (builtin_acts hb l (slots o) (S fuel) Hown Hsl Has)) in E.
      revert E.
      apply (clone_own_properties_stuck (deepClone R fuel) l' (deepClone_monotone R fuel)
               (IH l' Hl') (S fuel) l (length h) (slots o) k Hlt Hn Hown Hsl Has Ht Hget
               _ Hin h1 He1).
    + assert (Hown1 : own_test_of h1 l = NotAFunction).
      { rewrite (own_test_of_frame hb h1 l) by (try assumption; rewrite Hown; discriminate).
        exact Hown. }
      rewrite (no_test_unusable h1 l Hown1) in E.
      revert E.
      apply (clone_visible_properties_stuck (deepClone R fuel) l' (deepClone_monotone R fuel)
               (IH l' Hl') l (length h) k Hlt Hn Hget _ Hin h1 He1).
Qed.

End Cycles.

(** On an array or a plain record from which a cycle of arrays and plain
    records can be followed, [deepClone] does not return, whatever the
    budget: it has no guard against cycles. *)
Theorem deepClone_cycle_never_returns R h (on_cycle : loc -> Prop) :
  wf_heap h = true ->
  (forall l, on_cycle l -> exists l', descends_to R h l l' /\ on_cycle l') ->
  forall l, on_cycle l ->
    forall fuel h' v', deepClone R fuel (VRef l) h <> (h', Return v').
Proof.
  intros Hwf Hcycle l Hl fuel h' v'.
  apply (deepClone_stuck R h on_cycle Hwf Hcycle fuel l Hl h (extends_refl h)).
Qed.

Lemma deepClone_cycle_never_returns_witness :
  wf_heap cyclic_record_heap = true
  /\ descends_to host cyclic_record_heap 10 10
  /\ forall fuel h' v', deepClone host fuel (VRef 10) cyclic_record_heap <> (h', Return v').
Proof.
  assert (Hd : descends_to host cyclic_record_heap 10 10).
  { exists "self"%string. split; [left; reflexivity|]. split; reflexivity. }
  split; [reflexivity|]. split; [exact Hd|].
  apply (deepClone_cycle_never_returns host cyclic_record_heap (fun l => l = 10) eq_refl);
    [|reflexivity].
  intros l ->. exists 10. split; [exact Hd|reflexivity].
Defined.

(** ** The ways to a TypeError *)

Lemma bind_throw {A B} (m : M A) (k : A -> M B) h h1 :
  m h = (h1, Throw) -> bind m k h = (h1, Throw).
Proof. intros E. unfold bind. rewrite E. reflexivity. Qed.

Lemma call_not_a_function fuel hb h src :
  wf_heap hb = true -> extends hb h -> src < length hb ->
  own_test_of hb src = NotAFunction ->
  forall key, call_hasOwnProperty (S fuel) src key h = (h, Throw).
Proof.
  intros Hwf He Hl Ht key. unfold call_hasOwnProperty.
  rewrite (get_frame hb h src) by assumption. unfold own_test_of in Ht.
  destruct (get hb src "hasOwnProperty") as [| | b | n | s | id | g]; try reflexivity.
  unfold slots_at in Ht. cbn [call].
  destruct (hb !! g) as [og|] eqn:Hg; [|discriminate].
  rewrite (He g og Hg). destruct (slots og) as [| | | |[]]; try discriminate; reflexivity.
Qed.

(** The function branch calls [hasOwnProperty] without the test the object
    branch makes first: on a function with a key for the loop to visit and
    a [hasOwnProperty] that is no function, the call throws. *)
Theorem deepClone_function_without_test_throws R fuel h f :
  wf_heap h = true ->
  classify R h (VRef f) = CallableWithState ->
  own_test_of h f = NotAFunction ->
  for_in_keys h f <> [] ->
  exists h', deepClone R fuel (VRef f) h = (h', Throw).
Proof.
  intros Hwf Hc Ht Hk. destruct (classify_callable R h f Hc) as (Ha & Hi & Hj & Hf).
  destruct (for_in_keys h f) as [|key keys] eqn:Hkeys; [congruence|].
  destruct (for_in_keys_allocated h f key) as [o Ho]; [rewrite Hkeys; left; reflexivity|].
  assert (Hl : f < length h) by (eapply lookup_lt_Some, Ho).
  assert (Hsl : slots_at h f = Some (slots o)) by (unfold slots_at; rewrite Ho; reflexivity).
  rewrite deepClone_ref, Hsl, Ha, Hi, Hj, Hf, clone_function_start. cbv zeta.
  set (h1 := h ++ [forwarder_object R f (S (length h)); prototype_object R (length h)]).
  set (h2 := set_prop (length h) "prototype" (get h1 f "prototype") h1).
  assert (He2 : extends h h2) by (apply extends_set_prop; [lia|apply extends_app]).
  rewrite (for_in_keys_frame h h2 f) by assumption. rewrite Hkeys.
  exists h2. apply bind_throw. cbn [copy_function_properties].
  apply bind_throw. apply (call_not_a_function fuel h h2 f Hwf He2 Hl Ht).
Qed.

Lemma deepClone_function_without_test_throws_witness :
  classify host tampered_heap (VRef 10) = CallableWithState
  /\ own_test_of tampered_heap 10 = NotAFunction
  /\ for_in_keys tampered_heap 10 = ["hasOwnProperty"%string]
  /\ exists h', deepClone host 0 (VRef 10) tampered_heap = (h', Throw).
Proof.
  split; [reflexivity|]. split; [reflexivity|]. split; [reflexivity|].
  apply (deepClone_function_without_test_throws host 0 tampered_heap 10);
    [reflexivity|reflexivity|reflexivity|discriminate].
Defined.

(** An object that stands below [Map.prototype] or [Set.prototype] without
    being a Map or a Set is taken for one, and [forEach] refuses it. *)
Theorem deepClone_false_collection_throws R fuel h c s :
  slots_at h c = Some s ->
  classify R h (VRef c) = Mapping /\ is_map_data s = false
  \/ classify R h (VRef c) = UniquenessSet /\ is_set_data s = false ->
  exists h', deepClone R fuel (VRef c) h = (h', Throw).
Proof.
  intros Hs Hc.
  assert (Hl : c < length h) by (eapply slots_at_allocated, Hs).
  assert (Hs1 : forall o, slots_at (h ++ [o]) c = Some s).
  { intros o. unfold slots_at in *. rewrite lookup_app_l by exact Hl. exact Hs. }
  rewrite deepClone_ref, Hs. destruct Hc as [[Hc Hd]|[Hc Hd]].
  - destruct (classify_mapping R h c Hc) as (Ha & Hi). rewrite Ha, Hi.
    unfold clone_map. rewrite bind_alloc, bind_read, Hs1.
    eexists. apply bind_throw. destruct s; try discriminate; reflexivity.
  - destruct (classify_set R h c Hc) as (Ha & Hi & Hj). rewrite Ha, Hi, Hj.
    unfold clone_set. rewrite bind_alloc, bind_read, Hs1.
    eexists. apply bind_throw. destruct s; try discriminate; reflexivity.
Qed.

Lemma deepClone_false_collection_throws_witness :
  slots_at fake_map_heap 10 = Some Ordinary
  /\ classify host fake_map_heap (VRef 10) = Mapping
  /\ exists h', deepClone host 0 (VRef 10) fake_map_heap = (h', Throw).
Proof.
  split; [reflexivity|]. split; [reflexivity|].
  apply (deepClone_false_collection_throws host 0 fake_map_heap 10 Ordinary eq_refl).
  left. split; reflexivity.
Defined.

(** ** Names the new function refuses *)

Section Refusals.
Variables (R : realm) (hb : heap) (fn src : loc) (s : internal).
Hypothesis Hwf : wf_heap hb = true.
Hypothesis Hfn : length hb <= fn.
Hypothesis Hsrc : src < length hb.
Hypothesis Ht : own_test_of hb src = BuiltinTest.
Hypothesis Hs : slots_at hb src = Some s.
Hypothesis Ha : is_array_slots s = false.

(** An assignment returns or raises a [TypeError], and leaves the read-only
    properties of its receiver as they are. *)
Lemma put_keeps_read_only h key v k h1 c :
  has_read_only h fn k -> put R fn key v h = (h1, c) ->
  has_read_only h1 fn k /\ (c = Return tt \/ c = Throw).
Proof.
  intros (o & p & Ho & Hk & Hw) E.
  assert (Hkeep : has_read_only h fn k) by (exists o, p; auto).
  assert (Hproto : forall q, has_read_only (set_prototype fn q h) fn k).
  { intros q. unfold set_prototype. rewrite Ho.
    exists {| proto := q; slots := slots o; props := props o |}, p.
    split; [|split; assumption].
    apply list_lookup_insert_eq. eapply lookup_lt_Some, Ho. }
  destruct (String.eqb_spec key k) as [->|Hne].
  - rewrite (put_own_read_only R h fn o k p v Ho Hk Hw) in E.
    inversion E; subst. split; [exact Hkeep|right; reflexivity].
  - unfold put in E. destruct (set_along R h (chain h fn) key) as [| |[|]].
    + inversion E; subst. split; [|left; reflexivity].
      exists (with_props o (assign key v (props o))), p. split; [|split; [|exact Hw]].
      * apply (set_prop_lookup fn key v h o (props o)). rewrite Ho. destruct o; reflexivity.
      * cbn [props with_props]. rewrite (lookup_assign_ne key k v _ Hne). exact Hk.
    + inversion E; subst. split; [exact Hkeep|right; reflexivity].
    + destruct v as [| | | | | |q];
        try (inversion E; subst; split; [exact Hkeep|left; reflexivity]).
      * inversion E; subst. split; [apply Hproto|left; reflexivity].
      * destruct (existsb (Nat.eqb fn) (chain h q)); inversion E; subst.
        -- split; [exact Hkeep|right; reflexivity].
        -- split; [apply Hproto|left; reflexivity].
    + inversion E; subst. split; [exact Hkeep|right; reflexivity].
Qed.

(** The loop of lines 182-186 does not get past an own key of the source
    that the new function has read-only. *)
Lemma copy_function_properties_refused fuel k keys :
  In k keys -> has_own hb src k = true ->
  forall h, extends hb h -> has_read_only h fn k ->
    exists h', copy_function_properties R (S fuel) src fn keys h = (h', Throw).
Proof.
  intros Hin Hown. induction keys as [|key keys IH]; intros h He Hro; [contradiction|].
  cbn [copy_function_properties].
  rewrite (bind_return _ _ _ _ _
             (builtin_test_call_frame hb Hwf src s Hsrc Ht Hs Ha fuel key h He)).
  destruct (has_own hb src key) eqn:Hk.
  - rewrite bind_assoc, bind_read.
    destruct (put R fn key (get h src key) h) as [h1 c] eqn:E.
    destruct (put_keeps_read_only h key _ k h1 c Hro E) as [Hro1 [-> | ->]].
    + destruct (String.eqb_spec key k) as [->|Hne].
      * destruct Hro as (o & p & Ho & Hp & Hw).
        rewrite (put_own_read_only R h fn o k p _ Ho Hp Hw) in E. discriminate.
      * rewrite (bind_return _ _ _ _ _ E). apply IH; [| |exact Hro1].
        -- destruct Hin as [?|?]; [congruence|assumption].
        -- eapply (preserves_put hb R fn key _ Hfn); [exact He|exact E].
    + exists h1. apply bind_throw. exact E.
  - rewrite bind_ret. apply IH; [|exact He|exact Hro].
    destruct Hin as [?|?]; [congruence|assumption].
Qed.

End Refusals.

(** A function with an own enumerable property called [name] or [length]
    (a class with such a static member) is not cloned: the new function
    has these two read-only, the assignment of line 184 is refused, and
    [deepClone] raises a [TypeError]. *)
Theorem deepClone_function_read_only_key_throws R fuel h f o k :
  wf_heap h = true -> h !! f = Some o ->
  classify R h (VRef f) = CallableWithState ->
  own_test_of h f = BuiltinTest ->
  In k (own_enumerable_keys o) ->
  k = "name"%string \/ k = "length"%string ->
  exists h', deepClone R fuel (VRef f) h = (h', Throw).
Proof.
  intros Hwf Hf Hc Ht Hin Hk.
  destruct (classify_callable R h f Hc) as (Ha & Hi & Hj & Hfun).
  assert (Hsl : slots_at h f = Some (slots o))
    by (unfold slots_at; rewrite Hf; reflexivity).
  assert (Hl : f < length h) by (eapply lookup_lt_Some, Hf).
  assert (Has : is_array_slots (slots o) = false)
    by (rewrite <- (is_array_slots_at _ _ _ Hsl); exact Ha).
  rewrite deepClone_ref, Hsl, Ha, Hi, Hj, Hfun, clone_function_start. cbv zeta.
  set (h1 := h ++ [forwarder_object R f (S (length h)); prototype_object R (length h)]).
  set (h2 := set_prop (length h) "prototype" (get h1 f "prototype") h1).
  assert (He2 : extends h h2) by (apply extends_set_prop; [lia|apply extends_app]).
  rewrite (for_in_keys_frame h h2 f Hwf He2 Hl).
  rewrite <- (filter_own_for_in h f o Hf) in Hin. apply filter_In in Hin as [Hin Hown].
  destruct (copy_function_properties_refused R h (length h) f (slots o) Hwf (le_n _)
              Hl Ht Hsl Has fuel k (for_in_keys h f) Hin Hown h2 He2) as (h' & E).
  - assert (Hn2 : h2 !! length h
                  = Some (with_props (forwarder_object R f (S (length h)))
                            (assign "prototype" (get h1 f "prototype")
                               (props (forwarder_object R f (S (length h))))))).
    { apply (set_prop_lookup (length h) "prototype" _ h1
               (forwarder_object R f (S (length h)))).
      unfold h1. rewrite lookup_app_r by lia. rewrite Nat.sub_diag. reflexivity. }
    destruct Hk as [-> | ->]; eexists _, _; (split; [exact Hn2|]);
      split; reflexivity.
  - exists h'. apply bind_throw. exact E.
Qed.

Lemma deepClone_function_read_only_key_throws_witness :
  wf_heap static_name_heap = true
  /\ classify host static_name_heap (VRef 10) = CallableWithState
  /\ own_test_of static_name_heap 10 = BuiltinTest
  /\ exists h', deepClone host 0 (VRef 10) static_name_heap = (h', Throw).
Proof.
  split; [reflexivity|]. split; [reflexivity|]. split; [reflexivity|].
  apply (deepClone_function_read_only_key_throws host 0 static_name_heap 10 _ "name"
           eq_refl eq_refl eq_refl eq_refl).
  - simpl. left. reflexivity.
  - left. reflexivity.
Defined.

(** An own enumerable property called [__proto__] is not copied.  On a
    host where that name leads, from [Function.prototype], to the setter of
    [Object.prototype], the assignment of line 184 runs the setter: the
    clone gets no property of that name, and the object the source holds
    under it becomes the prototype of the clone, in the place of
    [Function.prototype]. *)
Theorem deepClone_function_proto_key R fuel h f o p :
  wf_heap h = true -> h !! f = Some o ->
  classify R h (VRef f) = CallableWithState ->
  own_test_of h f = BuiltinTest ->
  ObjectPrototype R < length h -> FunctionPrototype R < length h ->
  set_along R h (chain h (FunctionPrototype R)) "__proto__" = CallSetter ProtoSetter ->
  for_in_keys h f = ["__proto__"%string] ->
  has_own h f "__proto__" = true ->
  get h f "__proto__" = VRef p -> p < length h ->
  exists h' o',
    deepClone R fuel (VRef f) h = (h', Return (VRef (length h)))
    /\ h' !! length h = Some o'
    /\ lookup_prop "__proto__" (props o') = None
    /\ proto o' = Some p
    /\ slots o' = Callable (Forwarder f).
Proof.
  intros Hwf Hf Hc Ht HO HF Hset Hkeys Hhas Hget Hp.
  destruct (classify_callable R h f Hc) as (Ha & Hi & Hj & Hfun).
  assert (Hsl : slots_at h f = Some (slots o))
    by (unfold slots_at; rewrite Hf; reflexivity).
  assert (Hl : f < length h) by (eapply lookup_lt_Some, Hf).
  assert (Has : is_array_slots (slots o) = false)
    by (rewrite <- (is_array_slots_at _ _ _ Hsl); exact Ha).
  rewrite deepClone_ref, Hsl, Ha, Hi, Hj, Hfun, clone_function_start. cbv zeta.
  set (fnobj := forwarder_object R f (S (length h))).
  set (h1 := h ++ [fnobj; prototype_object R (length h)]).
  set (h2 := set_prop (length h) "prototype" (get h1 f "prototype") h1).
  assert (He2 : extends h h2) by (apply extends_set_prop; [lia|apply extends_app]).
  assert (Hn2 : h2 !! length h
                = Some (with_props fnobj (assign "prototype" (get h1 f "prototype")
                                                 (props fnobj)))).
  { apply (set_prop_lookup (length h) "prototype" _ h1 fnobj).
    unfold h1. rewrite lookup_app_r by lia. rewrite Nat.sub_diag. reflexivity. }
  rewrite (for_in_keys_frame h h2 f Hwf He2 Hl), Hkeys.
  assert (Hfree : existsb (Nat.eqb (length h)) (chain h p) = false).
  { apply not_true_is_false. intros Hex.
    apply existsb_exists in Hex as (x & Hx & Hxe). apply Nat.eqb_eq in Hxe. subst x.
    apply proto_chain_allocated in Hx. lia. }
  assert (E : copy_function_properties R (S fuel) f (length h) ["__proto__"%string] h2
              = (set_prototype (length h) (Some p) h2, Return tt)).
  { cbn [copy_function_properties].
    rewrite (bind_return _ _ _ _ _
               (builtin_test_call_frame h Hwf f (slots o) Hl Ht Hsl Has fuel
                  "__proto__"%string h2 He2)).
    rewrite Hhas, bind_assoc, bind_read, (get_frame h h2 f Hwf He2 Hl), Hget.
    unfold bind, put.
    rewrite (set_along_new_function R h (length h) Hwf (le_n _) h2 "__proto__"%string He2
               (new_function_at_start R f h _) HO HF)
      by (unfold get_own; rewrite Hn2; reflexivity).
    rewrite Hset, (chain_frame h h2 p Hwf He2 Hp), Hfree. reflexivity. }
  rewrite (bind_return _ _ _ _ _ E).
  eexists _, _. split; [reflexivity|].
  unfold set_prototype. rewrite Hn2.
  split; [apply list_lookup_insert_eq; eapply lookup_lt_Some, Hn2|].
  split; [reflexivity|]. split; reflexivity.
Qed.

Lemma deepClone_function_proto_key_witness :
  wf_heap proto_key_heap = true
  /\ classify host proto_key_heap (VRef 10) = CallableWithState
  /\ own_test_of proto_key_heap 10 = BuiltinTest
  /\ for_in_keys proto_key_heap 10 = ["__proto__"%string]
  /\ exists h' o',
       deepClone host 0 (VRef 10) proto_key_heap = (h', Return (VRef 12))
       /\ h' !! 12 = Some o'
       /\ lookup_prop "__proto__" (props o') = None
       /\ proto o' = Some 11
       /\ slots o' = Callable (Forwarder 10).
Proof.
  split; [reflexivity|]. split; [reflexivity|]. split; [reflexivity|].
  split; [reflexivity|].
  apply (deepClone_function_proto_key host 0 proto_key_heap 10 _ 11
           eq_refl eq_refl eq_refl eq_refl);
    try reflexivity; simpl; lia.
Defined.

(** ** The clone of a class *)

Lemma get_val_frame R hb h l k :
  wf_heap hb = true -> extends hb h -> l < length hb ->
  get_val R h (VRef l) k = get_val R hb (VRef l) k.
Proof.
  intros Hwf He Hl. unfold get_val.
  rewrite (slots_at_frame hb h l), (get_frame hb h l) by assumption. reflexivity.
Qed.

(** The clone of a class definition whose own enumerable (static)
    properties have names the new function accepts is a function, but no
    class definition: it shares the prototype object of the class, whose
    [constructor] is the class and not the clone. *)
Theorem deepClone_class_is_no_class R appVersion fuel h f o p :
  wf_heap h = true -> h !! f = Some o ->
  classify R h (VRef f) = CallableWithState ->
  own_test_of h f = BuiltinTest ->
  (forall k, In k (own_enumerable_keys o) -> accepted_by_new_function R h k = true) ->
  get h f "prototype" = VRef p ->
  isClassDefinition R appVersion h (VRef f) = Return true ->
  exists h',
    deepClone R fuel (VRef f) h = (h', Return (VRef (length h)))
    /\ isFunction h' (VRef (length h)) = true
    /\ isClassDefinition R appVersion h' (VRef (length h)) = Return false.
Proof.
  intros Hwf Hf Hc Ht Hacc Hp Hclass.
  destruct (clone_function_accepted R fuel h f o Hwf Hf Hc Ht Hacc)
    as (h' & ps' & E & He & Hn & Hdom & Hout & Hsame).
  assert (Hpp : exists p', lookup_prop "prototype" ps' = Some p'
                           /\ value p' = get h f "prototype").
  { destruct (in_dec string_dec "prototype"%string (own_enumerable_keys o)) as [Hin|Hnin].
    - assert (Hs : lookup_prop "prototype" ps' <> None) by (apply Hdom; auto).
      destruct (lookup_prop "prototype" ps') as [p'|] eqn:Hp'; [|congruence].
      exists p'. split; [reflexivity|]. apply (Hsame _ _ Hin Hp').
    - rewrite (Hout _ Hnin). simpl. eexists. split; reflexivity. }
  destruct Hpp as (p' & Hp' & Hv).
  exists h'. split; [exact E|].
  assert (Hty : typeof h' (VRef (length h)) = TFunction).
  { cbn [typeof]. unfold is_callable. rewrite Hn. reflexivity. }
  split; [unfold isFunction; rewrite Hty; reflexivity|].
  destruct (classify_callable R h f Hc) as (Ha & _).
  assert (Hsl : slots_at h f = Some (slots o))
    by (unfold slots_at; rewrite Hf; reflexivity).
  assert (Has : is_array_slots (slots o) = false)
    by (rewrite <- (is_array_slots_at _ _ _ Hsl); exact Ha).
  (* what the class knows of its prototype *)
  unfold isClassDefinition in Hclass. cbn [to_boolean] in Hclass.
  assert (Hgf : get_val R h (VRef f) "prototype" = Return (VRef p)).
  { unfold get_val. rewrite Hsl. destruct (slots o); try (rewrite Hp; reflexivity).
    discriminate. }
  rewrite Hgf in Hclass. cbn [bind_completion to_boolean] in Hclass.
  destruct (get_val R h (VRef p) "constructor") as [c| | |] eqn:Hgc;
    cbn [bind_completion] in Hclass; try discriminate.
  assert (Hcf : strict_equals c (VRef f) = true).
  { destruct (strict_equals c (VRef f)); [reflexivity|].
    rewrite andb_false_r in Hclass. discriminate. }
  assert (Hpl : p < length h).
  { unfold get_val in Hgc. destruct (slots_at h p) eqn:Hsp; [|discriminate].
    eapply slots_at_allocated, Hsp. }
  (* the same, asked of the clone *)
  unfold isClassDefinition. rewrite Hty. cbn [type_tag_eqb to_boolean].
  assert (Hgn : get_val R h' (VRef (length h)) "prototype" = Return (VRef p)).
  { unfold get_val, slots_at. rewrite Hn. cbn [slots].
    rewrite (get_own_property h' (length h) _ "prototype" p' Hn Hp'), Hv, Hp. reflexivity. }
  rewrite Hgn. cbn [bind_completion to_boolean].
  rewrite (get_val_frame R h h' p "constructor" Hwf He Hpl), Hgc. cbn [bind_completion].
  destruct c as [| | b | n | s | id | g]; try discriminate.
  apply Nat.eqb_eq in Hcf. subst g. cbn [strict_equals].
  assert (Hl : f < length h) by (eapply lookup_lt_Some, Hf).
  replace (f =? length h) with false by (symmetry; apply Nat.eqb_neq; lia).
  reflexivity.
Qed.

Lemma deepClone_class_is_no_class_witness :
  isClassDefinition host "5.0 (X11)" function_heap (VRef 10) = Return true
  /\ exists h',
       deepClone host 0 (VRef 10) function_heap = (h', Return (VRef 13))
       /\ isFunction h' (VRef 13) = true
       /\ isClassDefinition host "5.0 (X11)" h' (VRef 13) = Return false.
Proof.
  split; [reflexivity|].
  apply (deepClone_class_is_no_class host "5.0 (X11)" 0 function_heap 10 _ 11
           eq_refl eq_refl eq_refl eq_refl);
    [|reflexivity|reflexivity].
  intros k [<-|[<-|[]]]; reflexivity.
Defined.

(** ** isClassDefinition on the legacy engine *)

Lemma typeof_object_ref h v :
  typeof h v = TObject -> to_boolean v = true -> exists l, v = VRef l.
Proof. destruct v; try discriminate. eauto. Qed.

(** On the legacy engine (an [appVersion] with both marks) a value is a
    class definition when [typeof] gives "function" or "object" of it, its
    [prototype] is present and the [constructor] of that prototype is the
    value itself. *)
Theorem isClassDefinition_legacy R appVersion h value :
  isIE11 appVersion = true ->
  allocated_val h value = true ->
  (forall p, get_val R h value "prototype" = Return p -> allocated_val h p = true) ->
  exists b,
    isClassDefinition R appVersion h value = Return b
    /\ (b = true <->
        (typeof h value = TFunction \/ typeof h value = TObject)
        /\ exists p, get_val R h value "prototype" = Return p
                     /\ to_boolean p = true
                     /\ get_val R h p "constructor" = Return value).
Proof.
  intros Hie Hav Hap. unfold isClassDefinition. rewrite Hie. cbn [andb].
  set (typeCheck := if type_tag_eqb (typeof h value) TFunction then true
                    else type_tag_eqb (typeof h value) TObject).
  assert (Htc : typeCheck = true <-> typeof h value = TFunction \/ typeof h value = TObject).
  { unfold typeCheck. destruct (typeof h value); cbn; split; intros H;
      try discriminate; auto; destruct H; discriminate. }
  destruct (to_boolean value) eqn:Htv.
  - destruct (get_val_returns R h value "prototype" Hav Htv) as [p Hp].
    rewrite Hp. cbn [bind_completion].
    destruct (to_boolean p) eqn:Htp.
    + destruct (get_val_returns R h p "constructor" (Hap p Hp) Htp) as [c Hc].
      rewrite Hc. cbn [bind_completion]. eexists. split; [reflexivity|].
      rewrite andb_true_iff, Htc. split.
      * intros [Hty Hse]. split; [exact Hty|]. exists p.
        split; [reflexivity|]. split; [exact Htp|].
        assert (Hl : exists l, value = VRef l).
        { destruct Hty as [Hty|Hty];
            [eapply typeof_function_ref, Hty|eapply typeof_object_ref; eassumption]. }
        destruct Hl as [l ->]. apply strict_equals_ref in Hse. congruence.
      * intros (Hty & p' & Hp' & _ & Hc'). split; [exact Hty|].
        assert (p' = p) by congruence. subst p'.
        assert (Hl : exists l, value = VRef l).
        { destruct Hty as [Hty|Hty];
            [eapply typeof_function_ref, Hty|eapply typeof_object_ref; eassumption]. }
        destruct Hl as [l ->]. apply strict_equals_ref. congruence.
    + eexists. split; [reflexivity|]. rewrite andb_false_r.
      split; [discriminate|]. intros (_ & p' & Hp' & Htp' & _).
      assert (p' = p) by congruence. subst p'. congruence.
  - cbn [bind_completion]. rewrite Htv. cbn [bind_completion].
    eexists. split; [reflexivity|]. rewrite andb_false_r.
    split; [discriminate|]. intros ([Hty|Hty] & p & Hp & _).
    + destruct (typeof_function_ref h value Hty) as [l ->]. discriminate.
    + destruct value; try discriminate.
Qed.

Lemma isClassDefinition_legacy_witness :
  isIE11 "5.0 (Windows NT 6.1; Trident/7.0; rv:11.0) like Gecko" = true
  /\ typeof legacy_heap (VRef 10) = TObject
  /\ isClassDefinition host "5.0 (Windows NT 6.1; Trident/7.0; rv:11.0) like Gecko"
       legacy_heap (VRef 10) = Return true
  /\ isClassDefinition host "5.0 (X11)" legacy_heap (VRef 10) = Return false.
Proof.
  split; [reflexivity|]. split; [reflexivity|].
  destruct (isClassDefinition_legacy host
              "5.0 (Windows NT 6.1; Trident/7.0; rv:11.0) like Gecko"
              legacy_heap (VRef 10) eq_refl eq_refl)
    as (b & E & _).
  { intros p Hp. vm_compute in Hp. inversion Hp. reflexivity. }
  vm_compute in E. inversion E; subst b.
  split; reflexivity.
Defined.
